(** * ConCat: the combination engine of [concat/combine.py]

    A shallow embedding of the delimiter sniffer, the schema reconciler,
    the requested-columns resolver, the streaming merger and the [run]
    entry point, followed by the properties established about them.

    Conventions.
    - A Python [str] is a [string]; a one-character delimiter is an [ascii].
    - A Python [set] is a [gset], a [dict] a [gmap]; a dictionary whose
      iteration order matters ([collections.Counter]) is an association
      list in insertion order.
    - A raised exception is the [Raise] constructor of [result]; code that
      performs input or output runs in the monad [M] over a [world].
    - The built-ins [str.lower], [str.strip] and the standard library's
      [csv.Sniffer().sniff] are parameters of the development; ASCII
      instances are supplied for the concrete runs at the end. *)

From stdpp Require Import gmap strings list fin_maps fin_sets sorting.
From Stdlib Require Import ZArith Ascii.

Local Open Scope string_scope.
Local Open Scope Z_scope.
Local Open Scope list_scope.

#[local] Set Warnings "-clear-no-such-hyp".
Set Default Proof Using "Type".

(** ** Exceptions and results *)

Definition Path := string.

(** The payload of the messages the engine raises, kept structured. *)
Inductive message :=
  | SchemaMismatch (base other : list string)
  | NoSharedColumns
  | UnknownPolicy (policy : string)
  | MissingRequested (p : Path) (missing : list string)
  | NoFilesLeft
  | NoInputFiles
  | InconsistentDelimiters (delims : list ascii)
  | HeaderUnreadable (names : list string)
  | AlreadyExists (column : string)
  | BadChunksize
  | Other (text : string).

Inductive exn :=
  | ValueError (m : message)
  | SystemExit (m : message)
  | IndexError
  | KeyError (key : string)
  | FileNotFoundError (p : Path)
  | OSError
  | TypeError
  | KeyboardInterrupt.

Inductive result (A : Type) :=
  | Ok (a : A)
  | Raise (e : exn).
Arguments Ok {A} a.
Arguments Raise {A} e.

#[global] Instance result_fmap : FMap result :=
  λ A B f r, match r with Ok a => Ok (f a) | Raise e => Raise e end.

(** ** Delimiters *)

Definition tab : ascii := ascii_of_nat 9.
Definition newline : ascii := ascii_of_nat 10.

Definition SNIFF_CANDIDATES : list ascii := ["," ; tab ; ";" ; "|"]%char.

(** [SUPPORTED_DELIMS]: a dictionary from the option's name to the character. *)
Definition SUPPORTED_DELIMS : list (string * ascii) :=
  [("comma", ","%char); ("tab", tab); ("semicolon", ";"%char); ("pipe", "|"%char)].

Definition supported_delim (name : string) : result ascii :=
  match List.find (λ kv, bool_decide (fst kv = name)) SUPPORTED_DELIMS with
  | Some kv => Ok (snd kv)
  | None => Raise (KeyError name)
  end.

(** The order of [sorted] on one-character strings: by code point. *)
Definition ascii_le (a b : ascii) : Prop := (nat_of_ascii a ≤ nat_of_ascii b)%nat.

#[local] Instance ascii_le_dec : RelDecision ascii_le.
Proof. intros a b. unfold ascii_le. apply _. Defined.

(** ** Strings *)

(** [s.split(delim)] for a one-character separator: the fields between
    the occurrences of [delim]; never empty. *)
Fixpoint split (delim : ascii) (s : string) : list string :=
  match s with
  | EmptyString => [EmptyString]
  | String c s' =>
      if bool_decide (c = delim) then EmptyString :: split delim s'
      else match split delim s' with
           | [] => [String c EmptyString]
           | f :: fs => String c f :: fs
           end
  end.

(** [sep.join(parts)]. *)
Fixpoint join (sep : string) (parts : list string) : string :=
  match parts with
  | [] => ""
  | [p] => p
  | p :: ps => p +:+ sep +:+ join sep ps
  end.

(** ASCII instances of the built-ins, used by the concrete runs. *)
Definition ascii_lower_char (c : ascii) : ascii :=
  let n := nat_of_ascii c in
  if (Nat.leb 65 n && Nat.leb n 90)%bool then ascii_of_nat (n + 32) else c.

Fixpoint ascii_lower (s : string) : string :=
  match s with
  | EmptyString => EmptyString
  | String c s' => String (ascii_lower_char c) (ascii_lower s')
  end.

Definition ascii_isspace (c : ascii) : bool :=
  let n := nat_of_ascii c in
  ((Nat.leb 9 n && Nat.leb n 13) || (Nat.leb 28 n && Nat.leb n 32))%bool.

Fixpoint lstrip_ascii (s : string) : string :=
  match s with
  | EmptyString => EmptyString
  | String c s' => if ascii_isspace c then lstrip_ascii s' else s
  end.

Fixpoint rstrip_ascii (s : string) : string :=
  match s with
  | EmptyString => EmptyString
  | String c s' =>
      match rstrip_ascii s' with
      | EmptyString => if ascii_isspace c then EmptyString else String c EmptyString
      | r => String c r
      end
  end.

Definition ascii_strip (s : string) : string := rstrip_ascii (lstrip_ascii s).

(** ** Scores of the sniffer: pairs of integers under Python's tuple order *)

Definition score := (Z * Z)%type.

Definition score_gt (a b : score) : bool :=
  (fst b <? fst a) || ((fst a =? fst b) && (snd b <? snd a)).

Definition score_lt (a b : score) : Prop :=
  fst a < fst b ∨ (fst a = fst b ∧ snd a < snd b).

Definition score_le (a b : score) : Prop := score_lt a b ∨ a = b.

(** ** [collections.Counter] *)

(** [Counter(counts)]: the tally of each value, in order of first
    occurrence (a dictionary keeps insertion order). *)
Fixpoint counter_add (k : nat) (c : list (nat * nat)) : list (nat * nat) :=
  match c with
  | [] => [(k, 1%nat)]
  | (k', n) :: c' => if bool_decide (k' = k) then (k', S n) :: c'
                     else (k', n) :: counter_add k c'
  end.

Definition Counter (counts : list nat) : list (nat * nat) :=
  foldl (λ c k, counter_add k c) [] counts.

(** [max(items, key=itemgetter(1))]: the first item of greatest tally. *)
Fixpoint max_by_count (best : nat * nat) (items : list (nat * nat)) : nat * nat :=
  match items with
  | [] => best
  | it :: items' =>
      if (snd best <? snd it)%nat then max_by_count it items'
      else max_by_count best items'
  end.

(** [c.most_common(1)]: [heapq.nlargest(1, ...)], a one-element list, or
    the empty list for an empty counter. *)
Definition most_common1 (c : list (nat * nat)) : list (nat * nat) :=
  match c with
  | [] => []
  | it :: items => [max_by_count it items]
  end.

(** ** Data frames

    The part of [pandas.DataFrame] the engine relies on.  A frame is a
    row count and a sequence of labelled columns; labels may repeat, as
    pandas allows.  Every value is text or missing ([dtype=str]). *)

Definition cell := option string.
Definition NA : cell := None.

Record DataFrame := mkDataFrame {
  df_len : nat;
  df_cols : list (string * list cell)
}.

(** [df.columns] *)
Definition columns (df : DataFrame) : list string := (df_cols df).*1.

(** [df[labels]] for a list of labels: for each label in turn, every
    column carrying it; [KeyError] for a label that is not a column. *)
Fixpoint getitem_cols (cols : list (string * list cell)) (labels : list string)
    : result (list (string * list cell)) :=
  match labels with
  | [] => Ok []
  | l :: labels' =>
      match List.filter (λ c, bool_decide (c.1 = l)) cols with
      | [] => Raise (KeyError l)
      | hit =>
          match getitem_cols cols labels' with
          | Ok more => Ok (hit ++ more)
          | Raise e => Raise e
          end
      end
  end.

Definition getitem (df : DataFrame) (labels : list string) : result DataFrame :=
  match getitem_cols (df_cols df) labels with
  | Ok cols => Ok (mkDataFrame (df_len df) cols)
  | Raise e => Raise e
  end.

(** [df[col] = pd.NA]: overwrites every column labelled [col], or appends
    a new column when there is none. *)
Definition setitem_NA (df : DataFrame) (col : string) : DataFrame :=
  let blank := replicate (df_len df) NA in
  if bool_decide (col ∈ columns df)
  then mkDataFrame (df_len df)
         (map (λ c, if bool_decide (c.1 = col) then (c.1, blank) else c) (df_cols df))
  else mkDataFrame (df_len df) (df_cols df ++ [(col, blank)]).

(** [df.rename(columns=rename_map)] *)
Definition rename (df : DataFrame) (rename_map : gmap string string) : DataFrame :=
  mkDataFrame (df_len df)
    (map (λ c, (default c.1 (rename_map !! c.1), c.2)) (df_cols df)).

(** [df.insert(0, name, value)]: refuses a label already present. *)
Definition insert0 (df : DataFrame) (name : string) (value : string) : result DataFrame :=
  if bool_decide (name ∈ columns df) then Raise (ValueError (AlreadyExists name))
  else Ok (mkDataFrame (df_len df)
             ((name, replicate (df_len df) (Some value)) :: df_cols df)).

(** The rows of a frame, one list of cells per row. *)
Definition row_at (df : DataFrame) (i : nat) : list cell :=
  map (λ c, default NA (c.2 !! i)) (df_cols df).

Definition rows (df : DataFrame) : list (list cell) :=
  map (row_at df) (seq 0 (df_len df)).

(** The chunks [pd.read_csv(..., chunksize=k)] iterates over: consecutive
    groups of [k] rows; a file without data rows gives one empty chunk. *)
Definition slice_frame (df : DataFrame) (start k : nat) : DataFrame :=
  mkDataFrame (Nat.min k (df_len df - start))
    (map (λ c, (c.1, take k (drop start c.2))) (df_cols df)).

Fixpoint chunk_starts (fuel start k len : nat) : list nat :=
  match fuel with
  | O => []
  | S fuel' => if (start <? len)%nat then start :: chunk_starts fuel' (start + k) k len
               else []
  end.

Definition chunks_of (df : DataFrame) (k : nat) : list DataFrame :=
  match df_len df with
  | O => [slice_frame df 0 k]
  | len => map (λ start, slice_frame df start k) (chunk_starts len 0 k len)
  end.

(** ** The world

    A file the run finds on disk is an [Input]: its text lines, and what
    [peek_header] and [pd.read_csv] make of it under the delimiter sniffed
    for it.  A file the run writes with [to_csv] is [Written]: its
    separator and the lines written so far.  The output path is taken not
    to be one of the inputs. *)

Inductive out_line :=
  | HeaderLine (names : list string)
  | DataLine (cells : list cell).

Inductive file :=
  | Input (lines : list string) (header : list string) (frame : DataFrame)
  | Written (sep : ascii) (lines : list out_line).

Inductive event :=
  | EvMkdtemp (d : Path)
  | EvRmtree (d : Path)
  | EvRemovalFault (e : exn)
  | EvToCsv (path : Path) (header : bool) (mode : string) (nrows : nat).

Record world := mkWorld {
  (** what each coming input/output call meets: [Some e] makes it raise
      [e] (an I/O error, an interrupt), [None] lets it proceed *)
  w_faults : list (option exn);
  w_files : gmap Path file;
  (** the scratch directories that exist *)
  w_dirs : gset Path;
  (** the names [tempfile.mkdtemp] hands out next *)
  w_tmp_names : list Path;
  (** the local [tmp_workspace] of [run], read by its [finally] clause *)
  w_tmp_workspace : option Path;
  w_trace : list event
}.

Definition set_faults (fs : list (option exn)) (w : world) : world :=
  mkWorld fs (w_files w) (w_dirs w) (w_tmp_names w) (w_tmp_workspace w) (w_trace w).
Definition set_files (m : gmap Path file) (w : world) : world :=
  mkWorld (w_faults w) m (w_dirs w) (w_tmp_names w) (w_tmp_workspace w) (w_trace w).
Definition set_dirs (d : gset Path) (w : world) : world :=
  mkWorld (w_faults w) (w_files w) d (w_tmp_names w) (w_tmp_workspace w) (w_trace w).
Definition set_tmp_names (ns : list Path) (w : world) : world :=
  mkWorld (w_faults w) (w_files w) (w_dirs w) ns (w_tmp_workspace w) (w_trace w).
Definition set_tmp_workspace (t : option Path) (w : world) : world :=
  mkWorld (w_faults w) (w_files w) (w_dirs w) (w_tmp_names w) t (w_trace w).
Definition log (ev : event) (w : world) : world :=
  mkWorld (w_faults w) (w_files w) (w_dirs w) (w_tmp_names w) (w_tmp_workspace w)
    (w_trace w ++ [ev]).

(** ** The monad of effectful code *)

Definition M (A : Type) : Type := world → result A * world.

Definition ret {A} (a : A) : M A := λ w, (Ok a, w).
Definition raise {A} (e : exn) : M A := λ w, (Raise e, w).
Definition lift {A} (r : result A) : M A := λ w, (r, w).
Definition bind {A B} (m : M A) (k : A → M B) : M B :=
  λ w, match m w with
       | (Ok a, w') => k a w'
       | (Raise e, w') => (Raise e, w')
       end.

Notation "'let*' x ':=' m 'in' k" := (bind m (λ x, k))
  (at level 10, x name, m at level 100, k at level 200).
Notation "'let*' ' pat ':=' m 'in' k" :=
  (bind m (λ x, match x with pat => k end))
  (at level 10, pat pattern, m at level 100, k at level 200).

(** [try: body finally: fin] *)
Definition try_finally {A} (body : M A) (fin : M unit) : M A :=
  λ w, let '(r, w') := body w in
       match fin w' with
       | (Ok _, w'') => (r, w'')
       | (Raise e, w'') => (Raise e, w'')
       end.

Fixpoint foldM {A S} (f : S → A → M S) (s : S) (l : list A) : M S :=
  match l with
  | [] => ret s
  | a :: l' => let* s' := f s a in foldM f s' l'
  end.

Fixpoint mapM_ {A B} (f : A → M B) (l : list A) : M (list B) :=
  match l with
  | [] => ret []
  | a :: l' => let* b := f a in let* bs := mapM_ f l' in ret (b :: bs)
  end.

Fixpoint mapM_result {A B} (f : A → result B) (l : list A) : result (list B) :=
  match l with
  | [] => Ok []
  | a :: l' =>
      match f a with
      | Raise e => Raise e
      | Ok b => match mapM_result f l' with
                | Raise e => Raise e
                | Ok bs => Ok (b :: bs)
                end
      end
  end.

(** An input/output call consults the fault schedule. *)
Definition io : M unit :=
  λ w, match w_faults w with
       | [] => (Ok tt, w)
       | None :: fs => (Ok tt, set_faults fs w)
       | Some e :: fs => (Raise e, set_faults fs w)
       end.

(** ** Reading and writing files *)

Definition render_line (sep : ascii) (l : out_line) : string :=
  match l with
  | HeaderLine names => join (String sep EmptyString) names
  | DataLine cells => join (String sep EmptyString) (map (default "") cells)
  end +:+ String newline EmptyString.

Definition data_cells (l : out_line) : option (list cell) :=
  match l with
  | HeaderLine _ => None
  | DataLine cells => Some cells
  end.

(** An empty field is read back as missing. *)
Definition reread (c : cell) : cell :=
  match c with
  | Some "" => NA
  | _ => c
  end.

(** What reading back a written file gives: the first line names the
    columns, the others are the data. *)
Definition written_header (lines : list out_line) : list string :=
  match lines with
  | HeaderLine names :: _ => names
  | DataLine cells :: _ => map (default "") cells
  | [] => []
  end.

Definition written_frame (lines : list out_line) : DataFrame :=
  let data := omap data_cells (tail lines) in
  mkDataFrame (length data)
    (imap (λ i name, (name, map (λ r, reread (default NA (r !! i))) data))
          (written_header lines)).

Definition file_lines (f : file) : list string :=
  match f with
  | Input lines _ _ => lines
  | Written sep lines => map (render_line sep) lines
  end.

Definition file_frame (f : file) : DataFrame :=
  match f with
  | Input _ _ frame => frame
  | Written _ lines => written_frame lines
  end.

Definition open_file (p : Path) : M file :=
  let* _ := io in λ w, match w_files w !! p with
              | Some f => (Ok f, w)
              | None => (Raise (FileNotFoundError p), w)
              end.

(** [pd.read_csv(p, sep=..., dtype=str, chunksize=..., engine="python")],
    iterated to the end. *)
Definition read_csv (p : Path) (chunksize : Z) : M (list DataFrame) :=
  if chunksize <? 1 then raise (ValueError BadChunksize)
  else let* f := open_file p in ret (chunks_of (file_frame f) (Z.to_nat chunksize)).

(** [df.to_csv(path, sep=..., index=False, header=..., mode=...)]: mode
    [w] replaces the file, mode [a] extends what was written before (both
    loops of the engine open a path in mode [w] first). *)
Definition to_csv (df : DataFrame) (path : Path) (sep : ascii) (header : bool)
    (mode : string) : M unit :=
  let* _ := io in λ w,
    let old := match w_files w !! path with
               | Some (Written _ lines) => if bool_decide (mode = "a") then lines else []
               | _ => []
               end in
    let new := (if header then [HeaderLine (columns df)] else [])
               ++ map DataLine (rows df) in
    (Ok tt, log (EvToCsv path header mode (df_len df))
              (set_files (<[path := Written sep (old ++ new)]> (w_files w)) w)).

(** ** The arguments of [run] *)

Record Args := mkArgs {
  args_out : Path;
  args_out_delim : string;
  args_sample_rows : Z;
  args_normalize : option string;
  args_schema : string;
  args_columns : option (list string);
  args_missing_policy : string;
  args_case_insensitive : bool;
  args_no_source_col : bool;
  args_source_col_name : string;
  args_source_col_mode : string;
  args_chunksize : Z;
  args_no_header : bool;
  args_dry_run : bool
}.

(** ** Concrete files and worlds, for the runs evaluated at the end *)

Definition nl : string := String newline EmptyString.

(** No fault scheduled, one scratch name available. *)
Definition world_of (faults : list (option exn)) (files : list (Path * file)) : world :=
  mkWorld faults (list_to_map files) ∅ ["/tmp/concat_norm_0"] None [].

(** The dialect sniffer failing on every sample. *)
Definition no_dialect (sample : string) (delimiters : list ascii) : option ascii := None.

(** [a.csv]: a header and no data row; [b.csv]: a header and one row. *)
Definition file_a_empty : file :=
  Input ["id,name" +:+ nl] ["id"; "name"]
        (mkDataFrame 0 [("id", []); ("name", [])]).

Definition file_b : file :=
  Input ["id,name" +:+ nl; "2,Bo" +:+ nl] ["id"; "name"]
        (mkDataFrame 1 [("id", [Some "2"]); ("name", [Some "Bo"])]).

(** [b.txt]: the same table, separated by semicolons. *)
Definition file_b_semicolon : file :=
  Input ["id;name" +:+ nl; "2;Bo" +:+ nl] ["id"; "name"]
        (mkDataFrame 1 [("id", [Some "2"]); ("name", [Some "Bo"])]).

Definition file_a : file :=
  Input ["id,name" +:+ nl; "1,Ann" +:+ nl] ["id"; "name"]
        (mkDataFrame 1 [("id", [Some "1"]); ("name", [Some "Ann"])]).

(** [c.csv]: one column [id], in lower case. *)
Definition file_c : file :=
  Input ["id" +:+ nl; "1" +:+ nl] ["id"]
        (mkDataFrame 1 [("id", [Some "1"])]).

(** [s.csv]: the header cell [id] is followed by a space; [peek_header]
    trims it, pandas keeps it in the column label. *)
Definition file_spaced : file :=
  Input ["id ,name" +:+ nl; "1,Ann" +:+ nl] ["id"; "name"]
        (mkDataFrame 1 [("id ", [Some "1"]); ("name", [Some "Ann"])]).

Definition default_args : Args :=
  {| args_out := "/out.csv"; args_out_delim := "comma"; args_sample_rows := 50;
     args_normalize := None; args_schema := "strict"; args_columns := None;
     args_missing_policy := "error"; args_case_insensitive := false;
     args_no_source_col := true; args_source_col_name := "source_file";
     args_source_col_mode := "name"; args_chunksize := 200000;
     args_no_header := false; args_dry_run := false |}.

Definition with_columns (requested : list string) (missing_policy : string)
    (case_insensitive : bool) (args : Args) : Args :=
  {| args_out := args_out args; args_out_delim := args_out_delim args;
     args_sample_rows := args_sample_rows args; args_normalize := args_normalize args;
     args_schema := args_schema args; args_columns := Some requested;
     args_missing_policy := missing_policy; args_case_insensitive := case_insensitive;
     args_no_source_col := args_no_source_col args;
     args_source_col_name := args_source_col_name args;
     args_source_col_mode := args_source_col_mode args;
     args_chunksize := args_chunksize args; args_no_header := args_no_header args;
     args_dry_run := args_dry_run args |}.

Definition with_normalize (name : string) (args : Args) : Args :=
  {| args_out := args_out args; args_out_delim := args_out_delim args;
     args_sample_rows := args_sample_rows args; args_normalize := Some name;
     args_schema := args_schema args; args_columns := args_columns args;
     args_missing_policy := args_missing_policy args;
     args_case_insensitive := args_case_insensitive args;
     args_no_source_col := args_no_source_col args;
     args_source_col_name := args_source_col_name args;
     args_source_col_mode := args_source_col_mode args;
     args_chunksize := args_chunksize args; args_no_header := args_no_header args;
     args_dry_run := args_dry_run args |}.

Section Engine.

(** [str.lower], [str.strip] and [csv.Sniffer().sniff(sample, delimiters)]
    ([None] when it raises). *)
Variable lower : string → string.
Variable strip : string → string.
Variable csv_sniff : string → list ascii → option ascii.

(** ** Delimiter sniffing *)

(** [fh.readline()] on a handle holding the lines still to be read: the
    empty string at the end of the file. *)
Definition readline (fh : list string) : string * list string :=
  match fh with
  | [] => ("", [])
  | l :: fh' => (l, fh')
  end.

Fixpoint read_head_loop (k : nat) (fh : list string) (lines : list string) : list string :=
  match k with
  | O => lines
  | S k' =>
      let '(line, fh') := readline fh in
      if bool_decide (line = "") then lines
      else read_head_loop k' fh' (lines ++ [line])
  end.

(** [read_head_lines(path, n)], on the lines of the file at [path]. *)
Definition read_head_lines (file_lines : list string) (n : Z) : list string :=
  read_head_loop (Z.to_nat n) file_lines [].

(** The inner loop: the field counts of the non-blank lines. *)
Definition field_counts (delim : ascii) (lines : list string) : list nat :=
  foldl (λ counts ln,
           let ln := strip ln in
           if bool_decide (ln = "") then counts
           else counts ++ [length (split delim ln)])
        [] lines.

(** The score of one candidate, [None] when the loop body [continue]s. *)
Definition candidate_score (delim : ascii) (lines : list string) : option score :=
  let counts := field_counts delim lines in
  match most_common1 (Counter counts) with
  | [] => None
  | (mode_val, mode_count) :: _ => Some (Z.of_nat mode_count, Z.of_nat mode_val)
  end.

Definition sniff_step (lines : list string)
    (st : option ascii * score) (delim : ascii) : option ascii * score :=
  let '(best_delim, best_score) := st in
  match candidate_score delim lines with
  | None => st
  | Some sc => if score_gt sc best_score then (Some delim, sc) else st
  end.

Definition sniff_delimiter_from_lines (lines : list string) : ascii :=
  let '(best_delim, _) := foldl (sniff_step lines) (None, (-1, -1)) SNIFF_CANDIDATES in
  match best_delim with
  | None =>
      let sample := join (String newline EmptyString) lines in
      match csv_sniff sample SNIFF_CANDIDATES with
      | Some d => d
      | None => ","%char
      end
  | Some d => d
  end.

Definition sniff_file_delimiter (file_lines : list string) (sample_rows : Z) : ascii :=
  sniff_delimiter_from_lines (read_head_lines file_lines sample_rows).

(** ** The header row *)

(** The cells [csv.reader] gives for a line that [to_csv] wrote. *)
Definition line_cells (l : out_line) : list string :=
  match l with
  | HeaderLine names => names
  | DataLine cells => map (default "") cells
  end.

(** The loop of [peek_header] over the rows of the reader: the first row
    with a cell that is not blank, each cell trimmed. *)
Definition peek_header_rows (rows : list (list string)) : list string :=
  match List.find (λ row, existsb (λ cell, negb (bool_decide (strip cell = ""))) row)
                  rows with
  | Some row => map strip row
  | None => []
  end.

(** [peek_header(path, delim)] on the file at [path]: for an input file
    the header recorded with it, for a file the run wrote the loop over
    its lines. *)
Definition peek_header (f : file) : list string :=
  match f with
  | Input _ header _ => header
  | Written _ lines => peek_header_rows (map line_cells lines)
  end.

(** ** Schema reconciliation *)

Fixpoint strict_loop (base : list string) (base_set : gset string)
    (rest : list (list string)) : result (list string) :=
  match rest with
  | [] => Ok base
  | hdrs :: rest' =>
      if bool_decide (list_to_set hdrs ≠ base_set)
      then Raise (ValueError (SchemaMismatch base hdrs))
      else strict_loop base base_set rest'
  end.

Definition union_inner (st : list string * gset string) (h : string)
    : list string * gset string :=
  let '(all_cols, seen) := st in
  if bool_decide (h ∉ seen) then (all_cols ++ [h], {[h]} ∪ seen) else st.

Definition union_loop (headers_list : list (list string)) : list string * gset string :=
  foldl (λ st hdrs, foldl union_inner st hdrs) ([], ∅) headers_list.

Definition build_schema (headers_list : list (list string)) (policy : string)
    : result (list string) :=
  if bool_decide (policy = "strict") then
    match headers_list with
    | [] => Raise IndexError
    | base :: rest => strict_loop base (list_to_set base) rest
    end
  else if bool_decide (policy = "union") then
    Ok (fst (union_loop headers_list))
  else if bool_decide (policy = "intersection") then
    match headers_list with
    | [] => Raise IndexError
    | first :: rest =>
        let shared : gset string :=
          foldl (λ shared hdrs, shared ∩ list_to_set hdrs) (list_to_set first) rest in
        if bool_decide (shared = ∅) then Raise (ValueError NoSharedColumns)
        else Ok (filter (λ h, h ∈ shared) first)
    end
  else Raise (ValueError (UnknownPolicy policy)).

(** ** Requested columns *)

Definition make_header_map (headers : list string) (case_insensitive : bool)
    : gmap string string :=
  if case_insensitive then foldl (λ m h, <[lower h := h]> m) ∅ headers
  else foldl (λ m h, <[h := h]> m) ∅ headers.

Definition resolve_step (header_map : gmap string string) (case_insensitive : bool)
    (st : list string * list string) (r : string) : list string * list string :=
  let '(found, missing) := st in
  let key := if case_insensitive then lower r else r in
  match header_map !! key with
  | Some h => (found ++ [h], missing)
  | None => (found, missing ++ [r])
  end.

Definition resolve_requested_columns (requested : list string)
    (header_map : gmap string string) (case_insensitive : bool)
    : list string * list string :=
  foldl (resolve_step header_map case_insensitive) ([], []) requested.

(** ** Paths *)

(** [path.name]: the last component. *)
Definition path_name (p : Path) : string := List.last (split "/" p) "".

(** [path.stem]: the name without its last suffix; a name whose only dot
    is leading or trailing has no suffix. *)
Definition path_stem (p : Path) : string :=
  let name := path_name p in
  let parts := split "." name in
  let front := join "." (removelast parts) in
  if bool_decide (2 ≤ length parts)%nat
     && negb (bool_decide (List.last parts "" = ""))
     && negb (bool_decide (front = ""))
  then front else name.

Definition source_value_for (path : Path) (mode : string) : string :=
  if bool_decide (mode = "name") then path_name path
  else if bool_decide (mode = "stem") then path_stem path
  else if bool_decide (mode = "path") then path
  else path_name path.

(** ** The streaming merge *)

(** The column of the file a schema column is read from:
    [header_map.get(c.lower() if (c not in header_map and c.lower() in
    header_map) else c, c)]. *)
Definition read_col (header_map : gmap string string) (c : string) : string :=
  let key :=
    if bool_decide (header_map !! c = None)
       && bool_decide (is_Some (header_map !! lower c))
    then lower c else c in
  default c (header_map !! key).

Definition read_cols_of (header_map : gmap string string) (schema_cols : list string)
    : list string :=
  map (read_col header_map) schema_cols.

(** [for col in schema_cols: if col not in df.columns: df[col] = pd.NA] *)
Definition fill_absent (df : DataFrame) (schema_cols : list string) : DataFrame :=
  foldl (λ df col, if bool_decide (col ∉ columns df) then setitem_NA df col else df)
        df schema_cols.

(** The body of the chunk loop in requested-columns mode, up to the
    renaming of the selected columns. *)
Definition select_requested (chunk : DataFrame) (schema_cols read_cols : list string)
    (missing_policy : option string) : result DataFrame :=
  let present := List.filter (λ c, bool_decide (c ∈ columns chunk)) read_cols in
  match getitem chunk present with
  | Raise e => Raise e
  | Ok df =>
      let df :=
        if bool_decide (missing_policy = Some "fillna") then
          foldl (λ df '(outcol, filecol),
                   if bool_decide (filecol ∉ columns chunk) then setitem_NA df outcol
                   else df)
                df (zip schema_cols read_cols)
        else df in
      let rename_map : gmap string string :=
        foldl (λ m '(outcol, filecol),
                 if bool_decide (filecol ∈ columns df) then <[filecol := outcol]> m
                 else m)
              ∅ (zip schema_cols read_cols) in
      Ok (rename df rename_map)
  end.

(** The frame written for one chunk. *)
Definition shape_chunk (chunk : DataFrame) (p : Path) (schema_cols : list string)
    (columns_mode : bool) (read_cols : list string) (missing_policy : option string)
    (add_source_col : bool) (source_col_name source_mode : string)
    : result DataFrame :=
  let out_cols := if add_source_col then source_col_name :: schema_cols else schema_cols in
  let shaped :=
    if columns_mode then
      match select_requested chunk schema_cols read_cols missing_policy with
      | Raise e => Raise e
      | Ok df => getitem (fill_absent df schema_cols) schema_cols
      end
    else getitem (fill_absent chunk schema_cols) schema_cols in
  match shaped with
  | Raise e => Raise e
  | Ok df =>
      if add_source_col then
        match insert0 df source_col_name (source_value_for p source_mode) with
        | Raise e => Raise e
        | Ok df => getitem df out_cols
        end
      else Ok df
  end.

Definition combine_files
    (paths : list Path) (per_file_delim : gmap Path ascii) (schema_cols : list string)
    (out_path : Path) (out_delim : ascii) (chunksize : Z) (write_header : bool)
    (columns_mode : bool) (per_file_header_maps : option (gmap Path (gmap string string)))
    (missing_policy : option string)
    (add_source_col : bool) (source_col_name source_mode : string) : M unit :=
  let* _ :=
    foldM (λ '(mode, total_rows) p,
      let* sep := lift (match per_file_delim !! p with
                        | Some sep => Ok sep
                        | None => Raise (KeyError p)
                        end) in
      let* read_cols :=
        lift (if columns_mode then
                match per_file_header_maps with
                | None => Raise TypeError
                | Some maps =>
                    match maps !! p with
                    | Some header_map => Ok (read_cols_of header_map schema_cols)
                    | None => Raise (KeyError p)
                    end
                end
              else Ok []) in
      let* reader := read_csv p chunksize in
      foldM (λ '(mode, total_rows) chunk,
        let* df := lift (shape_chunk chunk p schema_cols columns_mode read_cols
                           missing_policy add_source_col source_col_name source_mode) in
        let* _ := to_csv df out_path out_delim
                    (write_header && bool_decide (total_rows = 0%nat)) mode in
        ret ("a", (total_rows + df_len df)%nat))
        (mode, total_rows) reader)
      ("w", 0%nat) paths in
  ret tt.

(** ** Requested-columns mode of [run] *)

(** The loop of [run] over the files in requested-columns mode, with its
    accumulators [per_file_header_maps] and [usable_paths]. *)
Fixpoint columns_loop (requested : list string) (case_insensitive : bool)
    (missing_policy : string) (per_file_headers : gmap Path (list string))
    (paths : list Path)
    (per_file_header_maps : gmap Path (gmap string string)) (usable_paths : list Path)
    : result (gmap Path (gmap string string) * list Path) :=
  match paths with
  | [] => Ok (per_file_header_maps, usable_paths)
  | p :: paths' =>
      match per_file_headers !! p with
      | None => Raise (KeyError p)
      | Some hdrs =>
          let hmap := make_header_map hdrs case_insensitive in
          let '(found, missing) :=
            resolve_requested_columns requested hmap case_insensitive in
          let keep :=
            columns_loop requested case_insensitive missing_policy per_file_headers
              paths' (<[p := hmap]> per_file_header_maps) (usable_paths ++ [p]) in
          if bool_decide (missing ≠ []) then
            if bool_decide (missing_policy = "error") then
              Raise (SystemExit (MissingRequested p missing))
            else if bool_decide (missing_policy = "skip") then
              columns_loop requested case_insensitive missing_policy per_file_headers
                paths' per_file_header_maps usable_paths
            else keep
          else keep
      end
  end.

(** The requested-columns branch of [run]: the header maps, the files to
    merge and the output schema. *)
Definition run_columns_mode (requested : list string) (case_insensitive : bool)
    (missing_policy : string) (per_file_headers : gmap Path (list string))
    (paths : list Path)
    : result (gmap Path (gmap string string) * list Path * list string) :=
  match columns_loop requested case_insensitive missing_policy per_file_headers
          paths ∅ [] with
  | Raise e => Raise e
  | Ok (per_file_header_maps, usable_paths) =>
      if bool_decide (usable_paths = []) then Raise (SystemExit NoFilesLeft)
      else Ok (per_file_header_maps, usable_paths, requested)
  end.

(** ** Normalization *)

Definition path_le (a b : Path) : Prop := String.leb a b = true.

#[local] Instance path_le_dec : RelDecision path_le.
Proof. intros a b. unfold path_le. apply _. Defined.

Definition normalize_one (src target_dir : Path) (from_delim to_delim : ascii)
    (header : bool) : M Path :=
  let dst := target_dir +:+ "/" +:+ path_name src in
  let* df_iter := read_csv src 200000 in
  let* _ :=
    foldM (λ '(mode, idx) chunk,
             let* _ := to_csv chunk dst to_delim
                         (header && bool_decide (idx = 0%nat)) mode in
             ret ("a", S idx))
          ("w", 0%nat) df_iter in
  ret dst.

(** [tempfile.mkdtemp(...)]: the call can fail before it has made the
    directory, and it can be interrupted once the directory exists,
    before the caller has the name in hand. *)
Definition mkdtemp : M Path :=
  let* _ := io in
  let* d := (λ w, match w_tmp_names w with
                  | [] => (Raise OSError, w)
                  | d :: names =>
                      (Ok d, log (EvMkdtemp d)
                               (set_dirs ({[d]} ∪ w_dirs w) (set_tmp_names names w)))
                  end) in
  let* _ := io in
  ret d.

Definition assign_tmp_workspace (t : option Path) : M unit :=
  λ w, (Ok tt, set_tmp_workspace t w).

(** The exceptions that are [OSError]s. *)
Definition is_OSError (e : exn) : bool :=
  match e with
  | OSError | FileNotFoundError _ => true
  | _ => false
  end.

(** A call of the [finally] clause that swallows [OSError]s: [true] when
    the call went through and [act] took place, [false] when it failed
    with an [OSError] and left things as they were; any other exception
    (an interrupt) propagates.  The fault met is logged. *)
Definition swallowing (act : world → world) : M bool :=
  λ w, match w_faults w with
       | [] => (Ok true, act w)
       | None :: fs => (Ok true, act (set_faults fs w))
       | Some e :: fs =>
           let w' := log (EvRemovalFault e) (set_faults fs w) in
           if is_OSError e then (Ok false, w') else (Raise e, w')
       end.

(** [path.exists()]: [False] when the [stat] call finds the path
    missing; any other fault propagates. *)
Definition path_exists (d : Path) : M bool :=
  λ w, match w_faults w with
       | [] => (Ok (bool_decide (d ∈ w_dirs w)), w)
       | None :: fs => (Ok (bool_decide (d ∈ w_dirs w)), set_faults fs w)
       | Some e :: fs =>
           let w' := log (EvRemovalFault e) (set_faults fs w) in
           match e with
           | FileNotFoundError _ => (Ok false, w')
           | _ => (Raise e, w')
           end
       end.

(** The files under a directory. *)
Definition entries_under (d : Path) (w : world) : list Path :=
  List.filter (λ p, String.prefix (d +:+ "/") p) (map_to_list (w_files w)).*1.

Definition unlink (p : Path) (w : world) : world :=
  set_files (delete p (w_files w)) w.

(** [os.rmdir(d)] removes an empty directory only. *)
Definition rmdir (d : Path) (w : world) : world :=
  if bool_decide (entries_under d w = []) then set_dirs (w_dirs w ∖ {[d]}) w else w.

(** [shutil.rmtree(d, ignore_errors=True)] on a directory of files: the
    directory is opened, each file under it is unlinked, the directory is
    removed.  A step that fails with an [OSError] is skipped, so that the
    entry stays (and the directory with it); when the directory cannot be
    opened nothing is removed. *)
Definition rmtree (d : Path) : M unit :=
  let* _ := (λ w, (Ok tt, log (EvRmtree d) w)) in
  let* opened := swallowing id in
  if opened : bool then
    let* entries := (λ w, (Ok (entries_under d w), w)) in
    let* _ := foldM (λ _ p, let* _ := swallowing (unlink p) in ret tt) tt entries in
    let* _ := swallowing (rmdir d) in
    ret tt
  else ret tt.

(** A task handed to the pool: its outcome is kept in the future. *)
Definition submit {A} (task : M A) : M (result A) :=
  λ w, let '(r, w') := task w in (Ok r, w').

(** [fut.result()] *)
Definition future_result {A} (fut : result A) : M A :=
  let* _ := io in lift fut.

(** ** The entry point *)

Definition lookup_or_KeyError {A} (m : gmap Path A) (p : Path) : result A :=
  match m !! p with
  | Some a => Ok a
  | None => Raise (KeyError p)
  end.

(** The normalization step at the head of the [try] block. *)
Definition normalize_all (args : Args) (paths : list Path)
    (per_file_delim : gmap Path ascii) (per_file_headers : gmap Path (list string))
    : M (list Path * gmap Path ascii * gmap Path (list string)) :=
  let delims : gset ascii := map_img per_file_delim in
  if bool_decide (1 < size delims)%nat then
    match args_normalize args with
    | Some name =>
        let* target := lift (supported_delim name) in
        let* d := mkdtemp in
        let* _ := assign_tmp_workspace (Some d) in
        let* futures :=
          mapM_ (λ p, let* from_delim := lift (lookup_or_KeyError per_file_delim p) in
                      submit (normalize_one p d from_delim target true))
                paths in
        let* normalized := mapM_ future_result futures in
        let paths := merge_sort path_le normalized in
        let per_file_delim : gmap Path ascii :=
          foldl (λ m p, <[p := target]> m) ∅ paths in
        let* per_file_headers :=
          foldM (λ (m : gmap Path (list string)) p,
                   let* f := open_file p in ret (<[p := peek_header f]> m))
                ∅ paths in
        ret (paths, per_file_delim, per_file_headers)
    | None =>
        raise (SystemExit (InconsistentDelimiters (merge_sort ascii_le (elements delims))))
    end
  else ret (paths, per_file_delim, per_file_headers).

(** The [try] block. *)
Definition run_body (args : Args) (out_sep : ascii) (paths : list Path)
    (per_file_delim : gmap Path ascii) (per_file_headers : gmap Path (list string))
    : M unit :=
  let* '(paths, per_file_delim, per_file_headers) :=
    normalize_all args paths per_file_delim per_file_headers in
  if existsb (λ kv, bool_decide (kv.2 = [])) (map_to_list per_file_headers) then
    raise (SystemExit (HeaderUnreadable
             (map path_name
                (List.filter (λ p, bool_decide (per_file_headers !! p = Some [])) paths))))
  else
    let columns_mode :=
      match args_columns args with
      | Some (_ :: _) => true
      | _ => false
      end in
    let* '(per_file_header_maps, paths, schema_cols) :=
      lift (if columns_mode then
              match run_columns_mode (default [] (args_columns args))
                      (args_case_insensitive args) (args_missing_policy args)
                      per_file_headers paths with
              | Ok (maps, usable_paths, schema_cols) =>
                  Ok (Some maps, usable_paths, schema_cols)
              | Raise e => Raise e
              end
            else
              match mapM_result (lookup_or_KeyError per_file_headers) paths with
              | Raise e => Raise e
              | Ok headers_list =>
                  match build_schema headers_list (args_schema args) with
                  | Ok schema_cols => Ok (None, paths, schema_cols)
                  | Raise e => Raise e
                  end
              end) in
    if args_dry_run args then ret tt
    else
      let* _ := io in
      combine_files paths per_file_delim schema_cols (args_out args) out_sep
        (args_chunksize args) (negb (args_no_header args)) columns_mode
        per_file_header_maps
        (if columns_mode then Some (args_missing_policy args) else None)
        (negb (args_no_source_col args)) (args_source_col_name args)
        (args_source_col_mode args).

(** The [finally] clause. *)
Definition cleanup : M unit :=
  λ w, match w_tmp_workspace w with
       | Some d =>
           (let* present := path_exists d in
            if present : bool then rmtree d else ret tt) w
       | None => (Ok tt, w)
       end.

(** [run(args)], from the files that path discovery and the extension
    filter have kept. *)
Definition run (args : Args) (paths : list Path) : M unit :=
  let* out_sep := lift (supported_delim (args_out_delim args)) in
  if bool_decide (paths = []) then raise (SystemExit NoInputFiles)
  else
    let* '(per_file_delim, per_file_headers) :=
      foldM (λ '(per_file_delim, per_file_headers) p,
               let* f := open_file p in
               let delim := sniff_file_delimiter (file_lines f) (args_sample_rows args) in
               let* f := open_file p in
               ret (<[p := delim]> per_file_delim, <[p := peek_header f]> per_file_headers))
            ((∅ : gmap Path ascii), (∅ : gmap Path (list string))) paths in
    let* _ := assign_tmp_workspace None in
    try_finally (run_body args out_sep paths per_file_delim per_file_headers) cleanup.

(** ** Vocabulary of the properties *)

(** Two headers name the same set of columns. *)
Definition same_columns (a b : list string) : Prop := ∀ c, c ∈ a ↔ c ∈ b.

(** A column every header of the list carries. *)
Definition common_column (headers_list : list (list string)) (c : string) : Prop :=
  ∀ h, h ∈ headers_list → c ∈ h.

(** The names of [l] outside [seen], each at its first occurrence. *)
Fixpoint first_seen (seen : gset string) (l : list string) : list string :=
  match l with
  | [] => []
  | x :: l' =>
      if bool_decide (x ∉ seen) then x :: first_seen ({[x]} ∪ seen) l'
      else first_seen seen l'
  end.

(** The requested names a header does not resolve. *)
Definition missing_in (requested : list string) (case_insensitive : bool)
    (hdrs : list string) : list string :=
  (resolve_requested_columns requested (make_header_map hdrs case_insensitive)
     case_insensitive).2.

(** The header maps of the files [ps], entered in that order. *)
Definition header_maps_of (case_insensitive : bool)
    (per_file_headers : gmap Path (list string)) (ps : list Path)
    (maps : gmap Path (gmap string string)) : gmap Path (gmap string string) :=
  foldl (λ m p, <[p := make_header_map (default [] (per_file_headers !! p))
                          case_insensitive]> m) maps ps.

(** The number of occurrences of [v] in [l], and a most frequent value. *)
Definition tally (v : nat) (l : list nat) : nat := length (filter (λ x, x = v) l).

Definition is_mode (l : list nat) (m : nat) : Prop :=
  m ∈ l ∧ ∀ v, (tally v l ≤ tally m l)%nat.

(** What the sniffing loop holds after the candidates [processed]: no
    winner while none of them had a score; otherwise the winner, which
    strictly beats every candidate before it and is not beaten by any
    candidate after it. *)
Definition best_so_far (lines : list string) (processed : list ascii)
    (st : option ascii * score) : Prop :=
  match st.1 with
  | None => st.2 = (-1, -1) ∧ Forall (λ d, candidate_score d lines = None) processed
  | Some d =>
      ∃ pre post,
        processed = pre ++ d :: post
        ∧ candidate_score d lines = Some st.2
        ∧ Forall (λ d', ∀ sc', candidate_score d' lines = Some sc' → score_lt sc' st.2) pre
        ∧ Forall (λ d', ∀ sc', candidate_score d' lines = Some sc' → score_le sc' st.2) post
  end.

(** The scratch directories a sequence of events creates. *)
Definition created (evs : list event) : list Path :=
  omap (λ ev, match ev with EvMkdtemp d => Some d | _ => None end) evs.

(** A step that creates or removes no scratch directory and leaves the
    local [tmp_workspace] alone. *)
Definition quiet_step (w w' : world) : Prop :=
  w_dirs w' = w_dirs w
  ∧ w_tmp_workspace w' = w_tmp_workspace w
  ∧ ∃ evs, w_trace w' = w_trace w ++ evs ∧ created evs = [].

Definition quiet {A} (m : M A) : Prop :=
  ∀ w r w', m w = (r, w') → quiet_step w w'.

(** A step that either is quiet or has created one scratch directory and
    recorded it in [tmp_workspace]. *)
Definition guarded_step (w w' : world) : Prop :=
  quiet_step w w'
  ∨ ∃ d evs,
      w_trace w' = w_trace w ++ evs ∧ created evs = [d]
      ∧ w_tmp_workspace w' = Some d
      ∧ w_dirs w' = {[d]} ∪ w_dirs w.

(** The files under a directory. *)
Definition under (d p : Path) : Prop := String.prefix (d +:+ "/") p = true.

(** A step interrupted after it has created a scratch directory and
    before the name was recorded in [tmp_workspace]. *)
Definition dangling_step (w w' : world) : Prop :=
  ∃ d pre,
    w_trace w' = w_trace w ++ pre ++ [EvMkdtemp d] ∧ created pre = []
    ∧ w_tmp_workspace w' = w_tmp_workspace w
    ∧ w_dirs w' = {[d]} ∪ w_dirs w.

Definition guarded {A} (m : M A) : Prop :=
  ∀ w r w', m w = (r, w') →
    guarded_step w w' ∨ (dangling_step w w' ∧ ∃ e, r = Raise e).

(** The [to_csv] calls of the merge for chunks of [ns] rows, starting
    from the loop state [(mode, total_rows)], and the state they leave. *)
Fixpoint writes (out_path : Path) (write_header : bool) (st : string * nat)
    (ns : list nat) : list event :=
  match ns with
  | [] => []
  | n :: ns' =>
      EvToCsv out_path (write_header && bool_decide (st.2 = 0%nat)) st.1 n
      :: writes out_path write_header ("a", (st.2 + n)%nat) ns'
  end.

Fixpoint state_after (st : string * nat) (ns : list nat) : string * nat :=
  match ns with
  | [] => st
  | n :: ns' => state_after ("a", (st.2 + n)%nat) ns'
  end.

Definition event_header (ev : event) : bool :=
  match ev with
  | EvToCsv _ header _ _ => header
  | _ => false
  end.

(** The columns of [df] that are not columns of [chunk] hold only missing
    values. *)
Definition foreign_blank (chunk df : DataFrame) : Prop :=
  ∀ c, c ∈ df_cols df → c.1 ∉ columns chunk → c.2 = replicate (df_len df) NA.

(** Every column of the frame labelled [X] holds only missing values. *)
Definition blank_column (df : DataFrame) (X : string) : Prop :=
  ∀ c, c ∈ df_cols df → c.1 = X → c.2 = replicate (df_len df) NA.

(** The values a chunk holds for the label [l]: its column, or nulls when
    it has none. *)
Definition column_of (chunk : DataFrame) (l : string) : list cell :=
  default (replicate (df_len chunk) NA)
          ((list_to_map (df_cols chunk) : gmap string (list cell)) !! l).

(** The number of data lines among written lines. *)
Definition data_count (lines : list out_line) : nat :=
  length (omap data_cells lines).

(** What the merge loop holds between two writes: nothing written yet,
    or an output file holding [total_rows] data lines. *)
Definition merge_inv (out_path : Path) (st : string * nat) (w : world) : Prop :=
  (st.1 = "w" ∧ st.2 = 0%nat)
  ∨ (st.1 = "a"
     ∧ ∃ sep lines, w_files w !! out_path = Some (Written sep lines)
                    ∧ data_count lines = st.2).

(** The files satisfying [S] are the same in [w'] as in [w]. *)
Definition untouched (S : Path → Prop) (w w' : world) : Prop :=
  ∀ p, S p → w_files w' !! p = w_files w !! p.

(** Code that hands out no scratch name, leaves the local
    [tmp_workspace] alone and changes no file satisfying [S]. *)
Definition spares (S : Path → Prop) {A} (m : M A) : Prop :=
  ∀ w r w', m w = (r, w') →
    w_tmp_names w' = w_tmp_names w
    ∧ w_tmp_workspace w' = w_tmp_workspace w
    ∧ untouched S w w'.

(** ** Extensions *)

(** [path.suffix]: the last dot of the name and what follows it; a name
    whose only dot is leading or trailing has no suffix. *)
Definition path_suffix (p : Path) : string :=
  let parts := split "." (path_name p) in
  if bool_decide (2 ≤ length parts)%nat
     && negb (bool_decide (List.last parts "" = ""))
     && negb (bool_decide (join "." (removelast parts) = ""))
  then "." +:+ List.last parts "" else "".

(** [s.lstrip(".")] *)
Fixpoint lstrip_dots (s : string) : string :=
  match s with
  | String c s' => if bool_decide (c = "."%char) then lstrip_dots s' else s
  | EmptyString => EmptyString
  end.

(** [p.suffix.lower().lstrip(".")] *)
Definition normalized_ext (p : Path) : string := lstrip_dots (lower (path_suffix p)).

(** [ensure_single_extension(paths, user_ext)]: an empty [user_ext] counts
    as none; the one element of a set is what [next(iter(exts))] gives. *)
Definition ensure_single_extension (paths : list Path) (user_ext : option string)
    : result string :=
  match user_ext with
  | Some (String c e) => Ok (lstrip_dots (lower (String c e)))
  | _ =>
      let exts : gset string := list_to_set (normalized_ext <$> paths) in
      match elements exts with
      | [ext] => Ok ext
      | _ => Raise (ValueError (Other "Inconsistent extensions detected"))
      end
  end.

(** The head of [run]: the discovered files that are kept for the merge. *)
Definition select_inputs (paths : list Path) (extension : option string)
    : result (list Path) :=
  if bool_decide (paths = []) then Raise (SystemExit NoInputFiles)
  else
    match ensure_single_extension paths extension with
    | Raise e => Raise e
    | Ok ext_norm =>
        let paths := filter (λ p, normalized_ext p = ext_norm) paths in
        if bool_decide (paths = []) then
          Raise (SystemExit (Other "No files after filtering"))
        else Ok paths
    end.

(** A step of the removal creates no directory and leaves the local
    [tmp_workspace] alone; when it logs no fault it went through. *)
Definition removal_step (w w' : world) (evs : list event) : Prop :=
  w_tmp_workspace w' = w_tmp_workspace w
  ∧ w_trace w' = w_trace w ++ evs
  ∧ created evs = [].

(** * Properties *)

(** ** Schema reconciliation *)

Lemma same_columns_set (a b : list string) :
  same_columns a b ↔ list_to_set a =@{gset string} list_to_set b.
Proof.
  unfold same_columns. split.
  - intros H. apply set_eq. intros c. rewrite !elem_of_list_to_set. apply H.
  - intros H c. rewrite <- !(elem_of_list_to_set (C := gset string)), H. done.
Qed.

#[local] Instance same_columns_dec a b : Decision (same_columns a b).
Proof.
  destruct (decide (list_to_set a =@{gset string} list_to_set b)) as [E|E];
    [left|right]; by rewrite same_columns_set.
Defined.

Lemma strict_loop_all_same base rest :
  Forall (λ h, same_columns h base) rest →
  strict_loop base (list_to_set base) rest = Ok base.
Proof.
  induction 1 as [|h rest Hh _ IH]; simpl; [done|].
  apply same_columns_set in Hh.
  rewrite bool_decide_eq_false_2; [exact IH | intros Hne; by apply Hne].
Qed.

Lemma strict_loop_first_divergent base pre other post :
  Forall (λ h, same_columns h base) pre →
  ¬ same_columns other base →
  strict_loop base (list_to_set base) (pre ++ other :: post)
  = Raise (ValueError (SchemaMismatch base other)).
Proof.
  intros Hpre Hother. induction Hpre as [|h pre Hh _ IH]; simpl.
  - rewrite bool_decide_eq_true_2; [done|].
    intros E. apply Hother. by apply same_columns_set.
  - apply same_columns_set in Hh.
    rewrite bool_decide_eq_false_2; [exact IH | intros Hne; by apply Hne].
Qed.

(** The first element of a list that fails a decidable property. *)
Lemma first_failure {A} (P : A → Prop) `{∀ x, Decision (P x)} (l : list A) :
  ¬ Forall P l →
  ∃ pre x post, l = pre ++ x :: post ∧ Forall P pre ∧ ¬ P x.
Proof.
  induction l as [|a l IH]; intros Hn.
  - destruct Hn. constructor.
  - destruct (decide (P a)) as [Ha|Ha].
    + destruct IH as (pre & x & post & -> & Hpre & Hx).
      { intros Hl. apply Hn. by constructor. }
      exists (a :: pre), x, post. split_and!; [done | by constructor | done].
    + exists [], a, l. split_and!; [done | constructor | done].
Qed.

(** C2. Under the strict policy, on a non-empty list of headers: when
    every header names the same set of columns as the first one, the
    schema is the first header, in its own order; otherwise the call
    raises the schema-mismatch error carrying the first header and the
    header of the first file whose column set differs. *)
Theorem build_schema_strict (headers_list : list (list string)) :
  headers_list ≠ [] →
  let base := hd [] headers_list in
  (Forall (λ h, same_columns h base) headers_list →
     build_schema headers_list "strict" = Ok base)
  ∧ (¬ Forall (λ h, same_columns h base) headers_list →
     ∃ pre other post,
       headers_list = base :: pre ++ other :: post
       ∧ Forall (λ h, same_columns h base) pre
       ∧ ¬ same_columns other base
       ∧ build_schema headers_list "strict"
         = Raise (ValueError (SchemaMismatch base other))).
Proof.
  destruct headers_list as [|base rest]; [done|]. intros _. simpl. split.
  - intros Hall. apply Forall_cons in Hall as [_ Hrest].
    unfold build_schema. simpl. by apply strict_loop_all_same.
  - intros Hn.
    destruct (first_failure (λ h, same_columns h base) rest)
      as (pre & other & post & -> & Hpre & Hother).
    { intros Hrest. apply Hn. constructor; [done|exact Hrest]. }
    exists pre, other, post. split_and!; try done.
    unfold build_schema. simpl. by apply strict_loop_first_divergent.
Qed.

Lemma union_inner_first_seen (l acc : list string) (seen : gset string) :
  foldl union_inner (acc, seen) l
  = (acc ++ first_seen seen l, seen ∪ list_to_set l).
Proof.
  clear strip lower csv_sniff.
  revert acc seen. induction l as [|x l IH]; intros acc seen; simpl.
  - rewrite app_nil_r. f_equal. set_solver.
  - case_bool_decide as Hx.
    + rewrite IH, <- app_assoc. simpl. f_equal. set_solver.
    + rewrite IH. f_equal. set_solver.
Qed.

Lemma first_seen_app seen l1 l2 :
  first_seen seen (l1 ++ l2)
  = first_seen seen l1 ++ first_seen (seen ∪ list_to_set l1) l2.
Proof.
  clear strip lower csv_sniff.
  revert seen. induction l1 as [|x l1 IH]; intros seen; simpl.
  - f_equal. set_solver.
  - case_bool_decide as Hx.
    + simpl. f_equal. rewrite IH. f_equal. f_equal. set_solver.
    + rewrite IH. f_equal. f_equal. set_solver.
Qed.

Lemma union_loop_first_seen (headers_list : list (list string)) acc seen :
  foldl (λ st hdrs, foldl union_inner st hdrs) (acc, seen) headers_list
  = (acc ++ first_seen seen (concat headers_list),
     seen ∪ list_to_set (concat headers_list)).
Proof.
  clear strip lower csv_sniff.
  revert acc seen. induction headers_list as [|h hl IH]; intros acc seen; simpl.
  - rewrite app_nil_r. f_equal. set_solver.
  - rewrite union_inner_first_seen, IH, <- app_assoc, first_seen_app.
    f_equal. rewrite list_to_set_app_L. set_solver.
Qed.

Lemma elem_of_first_seen seen l c :
  c ∈ first_seen seen l ↔ c ∈ l ∧ c ∉ seen.
Proof.
  clear strip lower csv_sniff.
  revert seen. induction l as [|x l IH]; intros seen; simpl.
  - set_solver.
  - case_bool_decide as Hx.
    + rewrite !elem_of_cons, IH. split.
      * intros [->|[? ?]]; [by auto|]. split; [by right|set_solver].
      * intros [[->|?] ?]; [by left|].
        destruct (decide (c = x)) as [->|?]; [by left|right; set_solver].
    + rewrite elem_of_cons, IH. split.
      * intros [? ?]. by auto.
      * intros [[->|?] ?]; [done|by auto].
Qed.

Lemma NoDup_first_seen seen l : NoDup (first_seen seen l).
Proof.
  clear strip lower csv_sniff.
  revert seen. induction l as [|x l IH]; intros seen; simpl; [constructor|].
  case_bool_decide; [|apply IH].
  constructor; [|apply IH]. rewrite elem_of_first_seen. set_solver.
Qed.

Lemma first_seen_order seen l i j a b :
  first_seen seen l !! i = Some a → first_seen seen l !! j = Some b → (i < j)%nat →
  ∃ k, l !! k = Some a ∧ ∀ k', (k' ≤ k)%nat → l !! k' ≠ Some b.
Proof.
  clear strip lower csv_sniff.
  revert seen i j. induction l as [|x l IH]; intros seen i j; simpl; [done|].
  case_bool_decide as Hx.
  - intros Hi Hj Hlt. destruct j as [|j]; [lia|]. simpl in Hj.
    assert (b ≠ x) as Hbx.
    { apply list_elem_of_lookup_2, elem_of_first_seen in Hj. set_solver. }
    destruct i as [|i]; simpl in Hi.
    + injection Hi as ->. exists 0%nat. split; [done|].
      intros k' Hk'. replace k' with 0%nat by lia. simpl. congruence.
    + destruct (IH _ i j Hi Hj) as (k & Hk & Hbefore); [lia|].
      exists (S k). split; [done|].
      intros [|k'] Hk'; simpl; [congruence|]. apply Hbefore. lia.
  - intros Hi Hj Hlt.
    assert (b ≠ x) as Hbx.
    { apply list_elem_of_lookup_2, elem_of_first_seen in Hj. set_solver. }
    destruct (IH _ i j Hi Hj Hlt) as (k & Hk & Hbefore).
    exists (S k). split; [done|].
    intros [|k'] Hk'; simpl; [congruence|]. apply Hbefore. lia.
Qed.

Lemma elem_of_concat (ls : list (list string)) c :
  c ∈ concat ls ↔ ∃ l, l ∈ ls ∧ c ∈ l.
Proof.
  induction ls as [|l ls IH]; simpl.
  - split; [by intros ?%elem_of_nil | by intros (? & ?%elem_of_nil & _)].
  - rewrite elem_of_app, IH. split.
    + intros [?|(l' & ? & ?)]; [exists l; split; [left|done] | exists l'; split; [by right|done]].
    + intros (l' & [->|?]%elem_of_cons & ?); [by left | right; by exists l'].
Qed.

Lemma length_first_seen l :
  length (first_seen ∅ l) = size (list_to_set l : gset string).
Proof.
  clear strip lower csv_sniff.
  rewrite <- (size_list_to_set (C := gset string)) by apply NoDup_first_seen.
  f_equal. apply set_eq. intros c.
  rewrite !elem_of_list_to_set, elem_of_first_seen. set_solver.
Qed.

(** C3 (amended). Under the union policy the schema holds every column
    name of every input header exactly once, in order of first occurrence
    across the files in discovery order; its length is at least the
    number of distinct names of each header, hence at least the length of
    each header that repeats no name. *)
Theorem build_schema_union (headers_list : list (list string)) :
  ∃ out,
    build_schema headers_list "union" = Ok out
    ∧ NoDup out
    ∧ (∀ c, c ∈ out ↔ ∃ h, h ∈ headers_list ∧ c ∈ h)
    ∧ (∀ i j a b,
         out !! i = Some a → out !! j = Some b → (i < j)%nat →
         ∃ k, concat headers_list !! k = Some a
              ∧ ∀ k', (k' ≤ k)%nat → concat headers_list !! k' ≠ Some b)
    ∧ (∀ h, h ∈ headers_list →
         (size (list_to_set h : gset string) ≤ length out)%nat
         ∧ (NoDup h → (length h ≤ length out)%nat)).
Proof.
  clear strip lower csv_sniff.
  exists (first_seen ∅ (concat headers_list)).
  assert (build_schema headers_list "union"
          = Ok (first_seen ∅ (concat headers_list))) as Heq.
  { unfold build_schema, union_loop. simpl.
    by rewrite union_loop_first_seen. }
  split_and!; [exact Heq | apply NoDup_first_seen | | | ].
  - intros c. rewrite elem_of_first_seen, elem_of_concat. set_solver.
  - intros i j a b. apply first_seen_order.
  - intros h Hh.
    assert (size (list_to_set h : gset string)
            ≤ length (first_seen ∅ (concat headers_list)))%nat as Hsize.
    { rewrite length_first_seen. apply subseteq_size. intros c.
      rewrite !elem_of_list_to_set, elem_of_concat. eauto. }
    split; [exact Hsize|].
    intros Hnd. by rewrite <- (size_list_to_set (C := gset string)) by done.
Qed.

Lemma elem_of_shared (rest : list (list string)) (S : gset string) c :
  c ∈ foldl (λ shared hdrs, shared ∩ list_to_set hdrs) S rest
  ↔ c ∈ S ∧ Forall (λ h, c ∈ h) rest.
Proof.
  clear strip lower csv_sniff.
  revert S. induction rest as [|h rest IH]; intros S; simpl.
  - split; [intros ?; split; [done|constructor] | by intros [? _]].
  - rewrite IH, Forall_cons, elem_of_intersection, elem_of_list_to_set. tauto.
Qed.

Lemma filter_agree {A} (P Q : A → Prop) `{∀ x, Decision (P x)} `{∀ x, Decision (Q x)}
    (l : list A) :
  (∀ x, x ∈ l → P x ↔ Q x) → filter P l = filter Q l.
Proof.
  induction l as [|a l IH]; intros Hpq; [done|].
  rewrite !filter_cons.
  assert (P a ↔ Q a) as Ha by (apply Hpq; left).
  rewrite IH by (intros x Hx; apply Hpq; by right).
  destruct (decide (P a)), (decide (Q a)); tauto || done.
Qed.

(** C4. Under the intersection policy, on a non-empty list of headers,
    the call raises the empty-intersection error exactly when no column
    name is common to all the headers; otherwise it returns the elements
    of the first header that every other header carries, in the first
    header's order. *)
Theorem build_schema_intersection (headers_list : list (list string)) :
  headers_list ≠ [] →
  (build_schema headers_list "intersection" = Raise (ValueError NoSharedColumns)
   ↔ ¬ ∃ c, common_column headers_list c)
  ∧ ((∃ c, common_column headers_list c) →
     build_schema headers_list "intersection"
     = Ok (filter (λ c, Forall (λ h, c ∈ h) (tail headers_list))
                  (hd [] headers_list))).
Proof.
  clear strip lower csv_sniff.
  destruct headers_list as [|first rest]; [done|]. intros _.
  unfold build_schema. simpl.
  set (shared := foldl _ _ rest).
  assert (∀ c, c ∈ shared ↔ common_column (first :: rest) c) as Hshared.
  { intros c. unfold shared, common_column.
    rewrite elem_of_shared, elem_of_list_to_set, Forall_forall.
    split.
    - intros [Hc Hrest] h [->|Hh]%elem_of_cons; auto.
    - intros Hall. split; [apply Hall; left | intros h Hh; apply Hall; by right]. }
  assert (filter (λ h, h ∈ shared) first
          = filter (λ c, Forall (λ h, c ∈ h) rest) first) as Hfilter.
  { apply filter_agree. intros c Hc. unfold shared.
    rewrite elem_of_shared, elem_of_list_to_set. tauto. }
  case_bool_decide as Hempty.
  - assert (¬ ∃ c, common_column (first :: rest) c) as Hnone.
    { intros [c Hc]. apply Hshared in Hc. rewrite Hempty in Hc. set_solver. }
    split; [done|]. intros Hsome. by destruct Hnone.
  - split.
    + split; [done|]. intros Hnone. destruct Hempty.
      apply set_eq. intros c. split; [|set_solver].
      intros Hc. destruct Hnone. exists c. by apply Hshared.
    + intros _. by rewrite Hfilter.
Qed.

(** ** Requested columns *)

Lemma header_map_ci_later (post : list string) (m : gmap string string) k :
  Forall (λ h', lower h' ≠ k) post →
  foldl (λ m h, <[lower h := h]> m) m post !! k = m !! k.
Proof.
  revert m. induction post as [|h post IH]; intros m Hpost; simpl; [done|].
  apply Forall_cons in Hpost as [Hh Hpost].
  rewrite IH by done. by rewrite lookup_insert_ne.
Qed.

Lemma header_map_ci_last (pre post : list string) h k :
  lower h = k → Forall (λ h', lower h' ≠ k) post →
  make_header_map (pre ++ h :: post) true !! k = Some h.
Proof.
  intros Hk Hpost. unfold make_header_map. rewrite foldl_app. simpl.
  rewrite header_map_ci_later by done. subst k. apply lookup_insert_eq.
Qed.

Lemma header_map_ci_value (headers : list string) k v :
  make_header_map headers true !! k = Some v → v ∈ headers ∧ lower v = k.
Proof.
  unfold make_header_map.
  assert (∀ (m : gmap string string),
            (∀ k v, m !! k = Some v → v ∈ headers ∧ lower v = k) →
            ∀ l, (∀ x, x ∈ l → x ∈ headers) →
            ∀ k v, foldl (λ m h, <[lower h := h]> m) m l !! k = Some v →
                   v ∈ headers ∧ lower v = k) as Hgen.
  { intros m Hm l. revert m Hm. induction l as [|h l IH]; intros m Hm Hl; simpl.
    - exact Hm.
    - apply IH; [|intros x Hx; apply Hl; by right].
      intros k' v'. rewrite lookup_insert. case_decide as Hk.
      + intros [= <-]. split; [apply Hl; left | done].
      + apply Hm. }
  apply (Hgen ∅); [intros ? ?; by rewrite lookup_empty | done].
Qed.

Lemma header_map_cs_lookup (headers : list string) k :
  make_header_map headers false !! k = if bool_decide (k ∈ headers) then Some k else None.
Proof.
  unfold make_header_map.
  assert (∀ l (m : gmap string string),
            foldl (λ m h, <[h := h]> m) m l !! k
            = if bool_decide (k ∈ l) then Some k else m !! k) as Hgen.
  { induction l as [|h l IH]; intros m; simpl; [done|].
    rewrite IH. case_bool_decide as Hl.
    - rewrite bool_decide_eq_true_2; [done | by right].
    - rewrite lookup_insert. case_decide as Hh.
      + subst h. rewrite bool_decide_eq_true_2; [done | left].
      + rewrite bool_decide_eq_false_2; [done|].
        intros [->|?]%elem_of_cons; done. }
  rewrite Hgen. by rewrite lookup_empty.
Qed.

(** The two results of the resolver, without the loop. *)
Lemma resolve_requested_columns_eq (requested : list string)
    (header_map : gmap string string) (case_insensitive : bool) :
  let key (r : string) := if case_insensitive then lower r else r in
  resolve_requested_columns requested header_map case_insensitive
  = (omap (λ r, header_map !! key r) requested,
     filter (λ r, header_map !! key r = None) requested).
Proof.
  intros key. unfold resolve_requested_columns.
  assert (∀ l found missing,
            foldl (resolve_step header_map case_insensitive) (found, missing) l
            = (found ++ omap (λ r, header_map !! key r) l,
               missing ++ filter (λ r, header_map !! key r = None) l)) as Hgen.
  { induction l as [|r l IH]; intros found missing; simpl.
    - by rewrite !app_nil_r.
    - rewrite filter_cons. fold (key r).
      destruct (header_map !! key r) as [h|] eqn:Hr.
      + rewrite IH, <- app_assoc. simpl. done.
      + rewrite IH, <- app_assoc. simpl. done. }
  apply (Hgen requested [] []).
Qed.

(** C9. Under case-insensitive matching the lookup map of a header keeps,
    for the names that differ only by case, the last one: a requested
    name that folds to the same key resolves to that last occurrence,
    and no earlier variant is a value of the map. *)
Theorem case_insensitive_last_wins (pre post : list string) (h r : string) :
  lower h = lower r →
  Forall (λ h', lower h' ≠ lower r) post →
  let header_map := make_header_map (pre ++ h :: post) true in
  header_map !! lower r = Some h
  ∧ resolve_requested_columns [r] header_map true = ([h], [])
  ∧ (∀ h' k, lower h' = lower r → h' ≠ h → header_map !! k ≠ Some h').
Proof.
  intros Hfold Hpost header_map.
  assert (header_map !! lower r = Some h) as Hlook
    by (by apply header_map_ci_last).
  split_and!; [exact Hlook | |].
  - unfold resolve_requested_columns. simpl. by rewrite Hlook.
  - intros h' k Hh' Hne Hk.
    pose proof (header_map_ci_value _ _ _ Hk) as [_ Hk'].
    assert (k = lower r) as -> by congruence.
    rewrite Hlook in Hk. congruence.
Qed.

Section ColumnsLoop.

Variables (requested : list string) (case_insensitive : bool).
Variable per_file_headers : gmap Path (list string).

Let missing_of (p : Path) : list string :=
  missing_in requested case_insensitive (default [] (per_file_headers !! p)).

Lemma columns_loop_step missing_policy p paths maps usable hdrs :
  per_file_headers !! p = Some hdrs →
  columns_loop requested case_insensitive missing_policy per_file_headers
    (p :: paths) maps usable
  = let keep :=
      columns_loop requested case_insensitive missing_policy per_file_headers paths
        (<[p := make_header_map hdrs case_insensitive]> maps) (usable ++ [p]) in
    if bool_decide (missing_of p ≠ []) then
      if bool_decide (missing_policy = "error") then
        Raise (SystemExit (MissingRequested p (missing_of p)))
      else if bool_decide (missing_policy = "skip") then
        columns_loop requested case_insensitive missing_policy per_file_headers
          paths maps usable
      else keep
    else keep.
Proof.
  intros Hp. unfold missing_of, missing_in. simpl. rewrite Hp. simpl.
  by destruct (resolve_requested_columns _ _ _) as [found missing].
Qed.

Lemma columns_loop_none_lacking missing_policy paths maps usable :
  (∀ p, p ∈ paths → is_Some (per_file_headers !! p)) →
  Forall (λ q, missing_of q = []) paths →
  columns_loop requested case_insensitive missing_policy per_file_headers
    paths maps usable
  = Ok (header_maps_of case_insensitive per_file_headers paths maps, usable ++ paths).
Proof.
  revert maps usable. induction paths as [|p paths IH]; intros maps usable Hhdr Hall.
  - simpl. by rewrite app_nil_r.
  - destruct (Hhdr p) as [hdrs Hp]; [left|].
    apply Forall_cons in Hall as [Hp0 Hall].
    rewrite (columns_loop_step _ _ _ _ _ hdrs Hp). simpl.
    rewrite bool_decide_eq_false_2 by (intros Hne; by apply Hne).
    rewrite IH; [|intros q Hq; apply Hhdr; by right|done].
    unfold header_maps_of. simpl. rewrite Hp. simpl. by rewrite <- app_assoc.
Qed.

Lemma columns_loop_error pre p post maps usable :
  (∀ q, q ∈ pre ++ p :: post → is_Some (per_file_headers !! q)) →
  Forall (λ q, missing_of q = []) pre →
  missing_of p ≠ [] →
  columns_loop requested case_insensitive "error" per_file_headers
    (pre ++ p :: post) maps usable
  = Raise (SystemExit (MissingRequested p (missing_of p))).
Proof.
  revert maps usable. induction pre as [|q pre IH]; intros maps usable Hhdr Hpre Hp.
  - destruct (Hhdr p) as [hdrs Hq]; [left|]. simpl app.
    rewrite (columns_loop_step _ _ _ _ _ hdrs Hq). simpl.
    by rewrite bool_decide_eq_true_2.
  - destruct (Hhdr q) as [hdrs Hq]; [left|].
    apply Forall_cons in Hpre as [Hq0 Hpre]. simpl app.
    rewrite (columns_loop_step _ _ _ _ _ hdrs Hq). simpl.
    rewrite bool_decide_eq_false_2 by (intros Hne; by apply Hne).
    apply IH; [intros x Hx; apply Hhdr; by right | done | done].
Qed.

Lemma columns_loop_skip paths maps usable :
  (∀ p, p ∈ paths → is_Some (per_file_headers !! p)) →
  columns_loop requested case_insensitive "skip" per_file_headers paths maps usable
  = Ok (header_maps_of case_insensitive per_file_headers
          (filter (λ q, missing_of q = []) paths) maps,
        usable ++ filter (λ q, missing_of q = []) paths).
Proof.
  revert maps usable. induction paths as [|p paths IH]; intros maps usable Hhdr.
  - simpl. by rewrite app_nil_r.
  - destruct (Hhdr p) as [hdrs Hp]; [left|].
    rewrite (columns_loop_step _ _ _ _ _ hdrs Hp). simpl.
    rewrite filter_cons.
    assert (∀ q, q ∈ paths → is_Some (per_file_headers !! q)) as Hhdr'
      by (intros q Hq; apply Hhdr; by right).
    destruct (decide (missing_of p = [])) as [Hm|Hm].
    + rewrite bool_decide_eq_false_2 by (intros Hne; by apply Hne).
      rewrite IH by done.
      unfold header_maps_of. simpl. rewrite Hp. simpl. by rewrite <- app_assoc.
    + rewrite bool_decide_eq_true_2 by done. by rewrite IH.
Qed.

Lemma columns_loop_retain missing_policy paths maps usable :
  (∀ p, p ∈ paths → is_Some (per_file_headers !! p)) →
  missing_policy ≠ "error" → missing_policy ≠ "skip" →
  columns_loop requested case_insensitive missing_policy per_file_headers
    paths maps usable
  = Ok (header_maps_of case_insensitive per_file_headers paths maps, usable ++ paths).
Proof.
  intros Hhdr He Hs. revert maps usable Hhdr.
  induction paths as [|p paths IH]; intros maps usable Hhdr.
  - simpl. by rewrite app_nil_r.
  - destruct (Hhdr p) as [hdrs Hp]; [left|].
    rewrite (columns_loop_step _ _ _ _ _ hdrs Hp). simpl.
    rewrite (bool_decide_eq_false_2 (missing_policy = "error")) by done.
    rewrite (bool_decide_eq_false_2 (missing_policy = "skip")) by done.
    assert (∀ q, q ∈ paths → is_Some (per_file_headers !! q)) as Hhdr'
      by (intros q Hq; apply Hhdr; by right).
    rewrite IH by done.
    unfold header_maps_of. simpl. rewrite Hp. simpl. rewrite <- app_assoc.
    by destruct (bool_decide (missing_of p ≠ [])).
Qed.

(** C5. In requested-columns mode, over files that all have a header:
    under [error] the job aborts at the first file (in merge order) whose
    header lacks requested names, with an error carrying that file and
    the names it lacks; under [skip] exactly the files lacking nothing
    are kept, and the job fails with the no-usable-files error when none
    is; under [fillna] every file is kept; and whenever the step
    succeeds the schema is the requested list itself. *)
Theorem run_columns_mode_policies (paths : list Path) :
  (∀ p, p ∈ paths → is_Some (per_file_headers !! p)) →
  (∀ pre p post,
     paths = pre ++ p :: post →
     Forall (λ q, missing_of q = []) pre → missing_of p ≠ [] →
     run_columns_mode requested case_insensitive "error" per_file_headers paths
     = Raise (SystemExit (MissingRequested p (missing_of p))))
  ∧ (let usable := filter (λ q, missing_of q = []) paths in
     run_columns_mode requested case_insensitive "skip" per_file_headers paths
     = if bool_decide (usable = []) then Raise (SystemExit NoFilesLeft)
       else Ok (header_maps_of case_insensitive per_file_headers usable ∅,
                usable, requested))
  ∧ (paths ≠ [] →
     run_columns_mode requested case_insensitive "fillna" per_file_headers paths
     = Ok (header_maps_of case_insensitive per_file_headers paths ∅,
           paths, requested))
  ∧ (∀ missing_policy maps usable schema_cols,
       run_columns_mode requested case_insensitive missing_policy
         per_file_headers paths = Ok (maps, usable, schema_cols) →
       schema_cols = requested).
Proof.
  intros Hhdr. split_and!.
  - intros pre p post -> Hpre Hp. unfold run_columns_mode.
    by rewrite columns_loop_error.
  - intros usable. unfold run_columns_mode.
    rewrite columns_loop_skip by done. simpl. done.
  - intros Hne. unfold run_columns_mode.
    rewrite columns_loop_retain by done. simpl.
    by rewrite bool_decide_eq_false_2.
  - intros missing_policy maps usable schema_cols. unfold run_columns_mode.
    destruct (columns_loop _ _ _ _ _ _ _) as [[maps' usable']|e]; [|done].
    case_bool_decide; [done|]. by intros [= _ _ <-].
Qed.

End ColumnsLoop.

(** ** Delimiter sniffing *)


Lemma field_counts_eq delim lines :
  field_counts delim lines
  = map (λ ln, length (split delim (strip ln)))
        (filter (λ ln, strip ln ≠ "") lines).
Proof.
  unfold field_counts.
  assert (∀ acc,
            foldl (λ counts ln,
                     let ln := strip ln in
                     if bool_decide (ln = "") then counts
                     else counts ++ [length (split delim ln)]) acc lines
            = acc ++ map (λ ln, length (split delim (strip ln)))
                         (filter (λ ln, strip ln ≠ "") lines)) as Hgen.
  { induction lines as [|ln lines IH]; intros acc; simpl.
    - by rewrite app_nil_r.
    - rewrite filter_cons. case_bool_decide as Hb.
      + rewrite decide_False by (intros Hne; by apply Hne). apply IH.
      + rewrite decide_True by done. rewrite IH, <- app_assoc. done. }
  apply (Hgen []).
Qed.

Lemma field_counts_nil delim lines :
  field_counts delim lines = [] ↔ Forall (λ ln, strip ln = "") lines.
Proof.
  rewrite field_counts_eq. split.
  - intros Hnil. apply Forall_forall. intros ln Hln.
    destruct (decide (strip ln = "")) as [|Hne]; [done|].
    assert (ln ∈ filter (λ ln, strip ln ≠ "") lines) as Hin
      by (apply list_elem_of_filter; done).
    destruct (filter _ lines); [by apply elem_of_nil in Hin | done].
  - intros Hall. induction Hall as [|ln lines Hln _ IH]; [done|].
    rewrite filter_cons, decide_False by (intros Hne; by apply Hne). exact IH.
Qed.

(** *** The tally kept by [Counter] *)

Lemma tally_snoc v l k :
  tally v (l ++ [k]) = (tally v l + if bool_decide (k = v) then 1 else 0)%nat.
Proof.
  unfold tally. rewrite filter_app, length_app. f_equal.
  rewrite filter_cons, filter_nil.
  case_bool_decide; [by rewrite decide_True | by rewrite decide_False].
Qed.

Lemma tally_pos v l : v ∈ l ↔ (0 < tally v l)%nat.
Proof.
  unfold tally. split.
  - intros Hv. assert (v ∈ filter (λ x, x = v) l) as Hin
      by (by apply list_elem_of_filter).
    destruct (filter _ l); [by apply elem_of_nil in Hin | simpl; lia].
  - intros Hpos. destruct (filter (λ x, x = v) l) as [|x l'] eqn:Hf; [simpl in Hpos; lia|].
    assert (x ∈ filter (λ x, x = v) l) as Hin by (rewrite Hf; left).
    apply list_elem_of_filter in Hin as [-> ?]. done.
Qed.

Lemma counter_add_keys k c :
  (counter_add k c).*1 = if bool_decide (k ∈ c.*1) then c.*1 else c.*1 ++ [k].
Proof.
  induction c as [|[k' n] c IH]; simpl; [done|].
  destruct (decide (k' = k)) as [->|Hk].
  - rewrite (bool_decide_eq_true_2 (k = k)) by done. rewrite !fmap_cons.
    rewrite bool_decide_eq_true_2; [done | left].
  - rewrite (bool_decide_eq_false_2 (k' = k)) by done. rewrite !fmap_cons.
    rewrite IH. simpl fst. destruct (decide (k ∈ c.*1)) as [Hin|Hin].
    + rewrite !bool_decide_eq_true_2; [done | by right | done].
    + rewrite !bool_decide_eq_false_2; [done | | done].
      intros [->|?]%elem_of_cons; done.
Qed.

Lemma counter_add_NoDup k c : NoDup c.*1 → NoDup (counter_add k c).*1.
Proof.
  intros Hnd. rewrite counter_add_keys. case_bool_decide as Hk; [done|].
  apply NoDup_app. split_and!; [done | | repeat constructor; set_solver].
  intros x Hx ->%list_elem_of_singleton. done.
Qed.

Lemma counter_add_map k c :
  (list_to_map (counter_add k c) : gmap nat nat)
  = <[k := S (default 0%nat ((list_to_map c : gmap nat nat) !! k))]> (list_to_map c).
Proof.
  induction c as [|[k' n] c IH]; simpl; [done|].
  destruct (decide (k' = k)) as [->|Hk].
  - rewrite (bool_decide_eq_true_2 (k = k)) by done. simpl.
    rewrite lookup_insert_eq. simpl. by rewrite insert_insert_eq.
  - rewrite (bool_decide_eq_false_2 (k' = k)) by done. simpl.
    rewrite IH, lookup_insert_ne by done. by apply insert_insert_ne.
Qed.

Lemma Counter_snoc l k : Counter (l ++ [k]) = counter_add k (Counter l).
Proof. unfold Counter. by rewrite foldl_app. Qed.

Lemma Counter_NoDup l : NoDup (Counter l).*1.
Proof.
  induction l as [|k l IH] using rev_ind; [constructor|].
  rewrite Counter_snoc. by apply counter_add_NoDup.
Qed.

Lemma Counter_lookup l v :
  (list_to_map (Counter l) : gmap nat nat) !! v
  = if bool_decide (tally v l = 0%nat) then None else Some (tally v l).
Proof.
  induction l as [|k l IH] using rev_ind; [done|].
  rewrite Counter_snoc, counter_add_map, tally_snoc.
  destruct (decide (k = v)) as [->|Hk].
  - rewrite lookup_insert_eq, (bool_decide_eq_true_2 (v = v)) by done. rewrite IH.
    rewrite (bool_decide_eq_false_2 (_ + 1 = 0)%nat) by lia.
    case_bool_decide as H0; simpl; f_equal; lia.
  - rewrite lookup_insert_ne, (bool_decide_eq_false_2 (k = v)) by done.
    rewrite Nat.add_0_r. exact IH.
Qed.

Lemma max_by_count_spec best items :
  max_by_count best items ∈ best :: items
  ∧ ∀ it, it ∈ best :: items → (it.2 ≤ (max_by_count best items).2)%nat.
Proof.
  revert best. induction items as [|it items IH]; intros best; simpl.
  - split; [left|]. intros it [->|[]%elem_of_nil]%elem_of_cons. done.
  - destruct (Nat.ltb_spec best.2 it.2) as [Hlt|Hge].
    + destruct (IH it) as [Hin Hmax]. split; [by right|].
      intros x [->|Hx]%elem_of_cons; [|by apply Hmax].
      specialize (Hmax it (list_elem_of_here _ _)). lia.
    + destruct (IH best) as [Hin Hmax]. split.
      * apply elem_of_cons in Hin as [->|Hin]; [left | right; by right].
      * intros x [->|[->|Hx]%elem_of_cons]%elem_of_cons.
        -- apply Hmax. left.
        -- specialize (Hmax best (list_elem_of_here _ _)). lia.
        -- apply Hmax. by right.
Qed.

(** The score of a candidate is the pair (frequency of a most frequent
    field count, that field count). *)
Lemma candidate_score_mode delim lines :
  field_counts delim lines ≠ [] →
  ∃ m, is_mode (field_counts delim lines) m
       ∧ candidate_score delim lines
         = Some (Z.of_nat (tally m (field_counts delim lines)), Z.of_nat m).
Proof.
  intros Hne. unfold candidate_score.
  set (counts := field_counts delim lines) in *.
  pose proof (Counter_NoDup counts) as Hnd.
  pose proof (Counter_lookup counts) as Hlook.
  destruct (Counter counts) as [|it items] eqn:Hc.
  - destruct counts as [|v counts']; [done|].
    specialize (Hlook v). simpl in Hlook.
    rewrite bool_decide_eq_false_2 in Hlook; [done|].
    pose proof (proj1 (tally_pos v (v :: counts')) (list_elem_of_here _ _)). lia.
  - simpl. destruct (max_by_count_spec it items) as [Hin Hmax].
    destruct (max_by_count it items) as [m n] eqn:Hbest.
    assert (n = tally m counts ∧ (0 < n)%nat) as [-> Hpos].
    { apply (elem_of_list_to_map_1 (M := gmap nat)) in Hin; [|done].
      rewrite Hlook in Hin. case_bool_decide; [done|].
      injection Hin as <-. split; [done|lia]. }
    exists m. split; [|done]. split; [by apply tally_pos|].
    intros v. destruct (decide (tally v counts = 0)%nat) as [->|Hv]; [lia|].
    assert ((v, tally v counts) ∈ it :: items) as Hvin.
    { apply (elem_of_list_to_map_2 (M := gmap nat)).
      rewrite Hlook. by rewrite bool_decide_eq_false_2. }
    apply (Hmax _ Hvin).
Qed.


(** *** The order on scores *)

Lemma score_gt_lt a b : score_gt a b = true ↔ score_lt b a.
Proof.
  unfold score_gt, score_lt. destruct a as [a1 a2], b as [b1 b2]. simpl.
  rewrite orb_true_iff, andb_true_iff, !Z.ltb_lt, Z.eqb_eq. lia.
Qed.

Lemma score_not_gt_le a b : score_gt a b = false → score_le a b.
Proof.
  intros Hgt. unfold score_le, score_lt.
  destruct (decide (a = b)) as [|Hne]; [by right|left].
  assert (¬ score_lt b a) as Hnlt by (rewrite <- score_gt_lt; congruence).
  unfold score_lt in Hnlt. destruct a as [a1 a2], b as [b1 b2]. simpl in *.
  assert (a1 ≠ b1 ∨ a2 ≠ b2) by (destruct (decide (a1 = b1)); [right|left]; congruence).
  lia.
Qed.

Lemma score_lt_trans a b c : score_lt a b → score_lt b c → score_lt a c.
Proof. unfold score_lt. lia. Qed.

Lemma score_le_lt_trans a b c : score_le a b → score_lt b c → score_lt a c.
Proof. intros [Hlt| ->]; [by apply score_lt_trans | done]. Qed.

Lemma candidate_score_nonneg delim lines sc :
  candidate_score delim lines = Some sc → score_lt (-1, -1) sc.
Proof.
  unfold candidate_score.
  destruct (most_common1 _) as [|[mode_val mode_count] ?]; [done|].
  intros [= <-]. unfold score_lt. simpl. lia.
Qed.

(** *** The loop over the candidates *)

Lemma sniff_step_best lines processed st delim :
  best_so_far lines processed st →
  best_so_far lines (processed ++ [delim]) (sniff_step lines st delim).
Proof.
  destruct st as [best_delim best_score]. unfold best_so_far, sniff_step. simpl.
  destruct (candidate_score delim lines) as [sc|] eqn:Hsc.
  - destruct (score_gt sc best_score) eqn:Hgt; simpl.
    + (* the candidate takes the lead *)
      intros Hst. exists processed, []. split_and!; [done | done | | constructor].
      apply score_gt_lt in Hgt.
      destruct best_delim as [d|].
      * destruct Hst as (pre & post & -> & Hd & Hpre & Hpost).
        rewrite Forall_app, Forall_cons. split_and!.
        -- eapply Forall_impl; [exact Hpre|]. simpl. intros d' Hd' sc' Hsc'.
           eapply score_lt_trans; [by apply Hd' | done].
        -- intros sc' Hsc'. congruence.
        -- eapply Forall_impl; [exact Hpost|]. simpl. intros d' Hd' sc' Hsc'.
           eapply score_le_lt_trans; [by apply Hd' | done].
      * destruct Hst as [_ Hnone].
        eapply Forall_impl; [exact Hnone|]. simpl. intros d' Hd' sc' Hsc'. congruence.
    + (* the leader stays *)
      destruct best_delim as [d|]; simpl.
      * intros (pre & post & -> & Hd & Hpre & Hpost).
        exists pre, (post ++ [delim]). rewrite <- app_assoc.
        split_and!; [done | done | done |].
        rewrite Forall_app, Forall_singleton. split; [done|].
        intros sc' Hsc'. assert (sc' = sc) as -> by congruence.
        by apply score_not_gt_le.
      * intros [-> _]. apply candidate_score_nonneg in Hsc.
        apply score_gt_lt in Hsc. congruence.
  - destruct best_delim as [d|]; simpl.
    + intros (pre & post & -> & Hd & Hpre & Hpost).
      exists pre, (post ++ [delim]). rewrite <- app_assoc.
      split_and!; [done | done | done |].
      rewrite Forall_app, Forall_singleton. split; [done|]. intros sc'. congruence.
    + intros [-> Hnone]. split; [done|].
      rewrite Forall_app, Forall_singleton. done.
Qed.

Lemma sniff_loop_best lines cands processed st :
  best_so_far lines processed st →
  best_so_far lines (processed ++ cands) (foldl (sniff_step lines) st cands).
Proof.
  revert processed st. induction cands as [|d cands IH]; intros processed st Hst; simpl.
  - by rewrite app_nil_r.
  - replace (processed ++ d :: cands) with ((processed ++ [d]) ++ cands)
      by (by rewrite <- app_assoc).
    apply IH. by apply sniff_step_best.
Qed.


(** ** The scratch workspace *)

Lemma created_app evs1 evs2 : created (evs1 ++ evs2) = created evs1 ++ created evs2.
Proof. unfold created. apply omap_app. Qed.

Lemma quiet_step_refl w : quiet_step w w.
Proof. split_and!; [done | done |]. exists []. by rewrite app_nil_r. Qed.

Lemma quiet_step_trans w1 w2 w3 :
  quiet_step w1 w2 → quiet_step w2 w3 → quiet_step w1 w3.
Proof.
  intros (Hd1 & Ht1 & evs1 & Htr1 & Hc1) (Hd2 & Ht2 & evs2 & Htr2 & Hc2).
  split_and!; [congruence | congruence |].
  exists (evs1 ++ evs2). rewrite Htr2, Htr1, <- app_assoc, created_app, Hc1, Hc2. done.
Qed.

Lemma quiet_ret {A} (a : A) : quiet (ret a).
Proof. intros w r w' [= <- <-]. apply quiet_step_refl. Qed.

Lemma quiet_raise {A} e : quiet (raise (A := A) e).
Proof. intros w r w' [= <- <-]. apply quiet_step_refl. Qed.

Lemma quiet_lift {A} (x : result A) : quiet (lift x).
Proof. intros w r w' [= <- <-]. apply quiet_step_refl. Qed.

Lemma quiet_bind {A B} (m : M A) (k : A → M B) :
  quiet m → (∀ a, quiet (k a)) → quiet (bind m k).
Proof.
  intros Hm Hk w r w'. unfold bind.
  destruct (m w) as [[a|e] w1] eqn:Hmw.
  - intros Hkw. eapply quiet_step_trans; [by eapply Hm | by eapply Hk].
  - intros [= <- <-]. by eapply Hm.
Qed.

Lemma quiet_foldM {A S} (f : S → A → M S) s l :
  (∀ s a, quiet (f s a)) → quiet (foldM f s l).
Proof.
  intros Hf. revert s. induction l as [|a l IH]; intros s; simpl.
  - apply quiet_ret.
  - apply quiet_bind; [apply Hf | intros s'; apply IH].
Qed.

Lemma quiet_mapM_ {A B} (f : A → M B) l :
  (∀ a, quiet (f a)) → quiet (mapM_ f l).
Proof.
  intros Hf. induction l as [|a l IH]; simpl.
  - apply quiet_ret.
  - apply quiet_bind; [apply Hf | intros b].
    apply quiet_bind; [apply IH | intros bs; apply quiet_ret].
Qed.

Lemma quiet_io : quiet io.
Proof.
  intros w r w'. unfold io.
  destruct (w_faults w) as [|[e|] fs]; intros [= <- <-];
    (split_and!; [done | done | exists []; by rewrite app_nil_r]).
Qed.

Lemma quiet_submit {A} (task : M A) : quiet task → quiet (submit task).
Proof.
  intros Ht w r w'. unfold submit.
  destruct (task w) as [r0 w0] eqn:Htask. intros [= <- <-]. by eapply Ht.
Qed.

Lemma quiet_open_file p : quiet (open_file p).
Proof.
  unfold open_file. apply quiet_bind; [apply quiet_io | intros _].
  intros w r w'. destruct (w_files w !! p); intros [= <- <-]; apply quiet_step_refl.
Qed.

Lemma quiet_to_csv df path sep header mode : quiet (to_csv df path sep header mode).
Proof.
  unfold to_csv. apply quiet_bind; [apply quiet_io | intros _].
  intros w r w' [= <- <-]. split_and!; [done | done |].
  by exists [EvToCsv path header mode (df_len df)].
Qed.

Create HintDb quiet discriminated.

(** Closes a goal [quiet m] by following the structure of [m]; the
    database [quiet] holds the lemmas of the operations already treated. *)
Ltac quiet_steps :=
  repeat first
    [ progress cbv beta
    | solve [auto 1 with quiet nocore]
    | match goal with
      | |- quiet (match ?x with _ => _ end) => destruct x
      | |- quiet ((match ?x with _ => _ end) _) => destruct x
      | |- quiet (if ?b then _ else _) => destruct b
      end
    | apply quiet_ret | apply quiet_raise | apply quiet_lift | apply quiet_io
    | apply quiet_open_file | apply quiet_to_csv
    | apply quiet_bind; [|intros ?]
    | apply quiet_foldM; intros ? ?
    | apply quiet_mapM_; intros ?
    | apply quiet_submit ].

Lemma quiet_read_csv p chunksize : quiet (read_csv p chunksize).
Proof. unfold read_csv. quiet_steps. Qed.
#[local] Hint Resolve quiet_read_csv : quiet.

Lemma quiet_future_result {A} (fut : result A) : quiet (future_result fut).
Proof. unfold future_result. quiet_steps. Qed.
#[local] Hint Resolve quiet_future_result : quiet.

Lemma quiet_normalize_one src target_dir from_delim to_delim header :
  quiet (normalize_one src target_dir from_delim to_delim header).
Proof. unfold normalize_one. quiet_steps. Qed.
#[local] Hint Resolve quiet_normalize_one : quiet.

Lemma quiet_combine_files paths per_file_delim schema_cols out_path out_delim
    chunksize write_header columns_mode per_file_header_maps missing_policy
    add_source_col source_col_name source_mode :
  quiet (combine_files paths per_file_delim schema_cols out_path out_delim
           chunksize write_header columns_mode per_file_header_maps missing_policy
           add_source_col source_col_name source_mode).
Proof. unfold combine_files. quiet_steps. Qed.
#[local] Hint Resolve quiet_combine_files : quiet.

Lemma io_trace w r w' : io w = (r, w') → w_trace w' = w_trace w.
Proof.
  clear. unfold io. destruct (w_faults w) as [|[e|] fs]; by intros [= <- <-].
Qed.

Lemma quiet_guarded {A} (m : M A) : quiet m → guarded m.
Proof. intros Hm w r w' Hrun. left. left. by eapply Hm. Qed.

Lemma guarded_step_quiet w1 w2 w3 :
  guarded_step w1 w2 → quiet_step w2 w3 → guarded_step w1 w3.
Proof.
  intros [Hq|(d & evs & Htr & Hc & Htmp & Hdirs)] Hq2.
  - left. by eapply quiet_step_trans.
  - destruct Hq2 as (Hd2 & Ht2 & evs2 & Htr2 & Hc2).
    right. exists d, (evs ++ evs2).
    rewrite Htr2, Htr, <- app_assoc, created_app, Hc, Hc2.
    split_and!; [done | done | congruence | congruence].
Qed.

Lemma guarded_bind {A B} (m : M A) (k : A → M B) :
  guarded m → (∀ a, quiet (k a)) → guarded (bind m k).
Proof.
  intros Hm Hk w r w'. unfold bind.
  destruct (m w) as [[a|e] w1] eqn:Hmw.
  - intros Hkw. destruct (Hm _ _ _ Hmw) as [Hg|[_ [e He]]]; [|done].
    left. eapply guarded_step_quiet; [done | by eapply Hk].
  - intros [= <- <-]. destruct (Hm _ _ _ Hmw) as [Hg|[Hdang _]]; [by left|].
    right. split; [done | by exists e].
Qed.

(** Creating the workspace and recording it in [tmp_workspace] is one
    guarded step, whatever quiet code follows; a fault that strikes once
    the directory exists leaves it unrecorded. *)
Lemma guarded_mkdtemp_assign {B} (k : Path → M B) :
  (∀ d, quiet (k d)) →
  guarded (let* d := mkdtemp in let* _ := assign_tmp_workspace (Some d) in k d).
Proof.
  intros Hk w r w'. unfold bind at 1. unfold mkdtemp. unfold bind at 1.
  destruct (io w) as [[[]|e] w1] eqn:Hio.
  2: { intros [= <- <-]. left. left. by eapply quiet_io. }
  destruct (quiet_io _ _ _ Hio) as (Hd1 & Ht1 & evs1 & Htr1 & Hc1).
  unfold bind at 1.
  destruct (w_tmp_names w1) as [|d names] eqn:Hnames.
  { intros [= <- <-]. left. left. by eapply quiet_io. }
  set (w2 := log (EvMkdtemp d) _).
  unfold bind at 1.
  destruct (io w2) as [[[]|e] w3] eqn:Hio2;
    destruct (quiet_io _ _ _ Hio2) as (Hd3 & Ht3 & evs3 & Htr3 & Hc3).
  - unfold ret at 1. unfold bind, assign_tmp_workspace.
    set (w4 := set_tmp_workspace (Some d) w3).
    intros Hrun. destruct (Hk d _ _ _ Hrun) as (Hd5 & Ht5 & evs5 & Htr5 & Hc5).
    left. right. exists d, (evs1 ++ [EvMkdtemp d] ++ evs3 ++ evs5).
    split_and!.
    + rewrite Htr5. unfold w4. simpl. rewrite Htr3. unfold w2. simpl.
      rewrite Htr1, <- !app_assoc. done.
    + rewrite !created_app, Hc1, Hc3, Hc5. done.
    + rewrite Ht5. done.
    + rewrite Hd5. unfold w4. simpl. rewrite Hd3. unfold w2. simpl. by rewrite Hd1.
  - intros [= <- <-]. right. split; [|by exists e].
    assert (w_trace w3 = w_trace w2) as Htr3'.
    { by rewrite (io_trace _ _ _ Hio2). }
    exists d, evs1. split_and!.
    + rewrite Htr3'. unfold w2. simpl. by rewrite Htr1, <- app_assoc.
    + done.
    + rewrite Ht3. unfold w2. simpl. done.
    + rewrite Hd3. unfold w2. simpl. by rewrite Hd1.
Qed.

Lemma guarded_normalize_all args paths per_file_delim per_file_headers :
  guarded (normalize_all args paths per_file_delim per_file_headers).
Proof.
  unfold normalize_all. case_bool_decide.
  - destruct (args_normalize args) as [name|]; [|apply quiet_guarded, quiet_raise].
    intros w r w'. unfold bind at 1, lift at 1.
    destruct (supported_delim name) as [target|e];
      [|intros [= <- <-]; left; left; apply quiet_step_refl].
    apply guarded_mkdtemp_assign. intros d.
    quiet_steps.
  - apply quiet_guarded, quiet_ret.
Qed.

Lemma guarded_run_body args out_sep paths per_file_delim per_file_headers :
  guarded (run_body args out_sep paths per_file_delim per_file_headers).
Proof.
  unfold run_body. apply guarded_bind; [apply guarded_normalize_all|].
  intros [[paths' per_file_delim'] per_file_headers'].
  quiet_steps.
Qed.

Lemma run_sniff_quiet args paths :
  quiet (foldM (λ '(per_file_delim, per_file_headers) p,
                  let* f := open_file p in
                  let delim := sniff_file_delimiter (file_lines f) (args_sample_rows args) in
                  let* f := open_file p in
                  ret (<[p := delim]> per_file_delim,
                       <[p := peek_header f]> per_file_headers))
               ((∅ : gmap Path ascii), (∅ : gmap Path (list string))) paths).
Proof. quiet_steps. Qed.

(** *** The removal in the [finally] clause *)

Lemma elem_of_entries_under d w p :
  p ∈ entries_under d w ↔ under d p ∧ is_Some (w_files w !! p).
Proof.
  clear. unfold entries_under, under.
  rewrite list_elem_of_In, filter_In, <- list_elem_of_In, list_elem_of_fmap.
  split.
  - intros [([q f] & -> & Hq%elem_of_map_to_list) Hpre]. simpl in *.
    split; [done | by exists f].
  - intros [Hpre [f Hf]]. split; [|done].
    exists (p, f). split; [done | by apply elem_of_map_to_list].
Qed.

Lemma lookup_unlinked (m : gmap Path file) (entries : list Path) p :
  foldl (λ m q, delete q m) m entries !! p
  = if bool_decide (p ∈ entries) then None else m !! p.
Proof.
  clear. revert m. induction entries as [|q entries IH]; intros m; cbn [foldl].
  - case_bool_decide as H; [by apply elem_of_nil in H | done].
  - rewrite IH. case_bool_decide as H1; case_bool_decide as H2; try done.
    + exfalso. apply H2. by right.
    + apply elem_of_cons in H2 as [->|]; [apply lookup_delete_eq | done].
    + apply lookup_delete_ne. intros ->. apply H2. left.
Qed.

Ltac swallowing_cases :=
  let faults := fresh "faults" in
  let files := fresh "files" in
  let dirs := fresh "dirs" in
  let names := fresh "names" in
  let tmp := fresh "tmp" in
  let trace := fresh "trace" in
  let r := fresh "r" in
  let w' := fresh "w'" in
  let e := fresh "e" in
  let fs := fresh "fs" in
  let Hw := fresh "Hw" in
  intros [faults files dirs names tmp trace] r w';
  unfold swallowing, path_exists; simpl;
  destruct faults as [|[e|] fs];
  [ intros [= <- <-]; exists []
  | intros Hw; exists [EvRemovalFault e];
    assert (w' = mkWorld fs files dirs names tmp (trace ++ [EvRemovalFault e])) as ->
      by (revert Hw; destruct e; simpl; by intros [= _ <-])
  | intros [= <- <-]; exists [] ];
  unfold removal_step; simpl; rewrite ?app_nil_r.

Ltac fault_logged :=
  let Hno := fresh in
  intros Hno; exfalso; eapply Hno; left.

Lemma swallowing_id_spec :
  ∀ w r w', swallowing id w = (r, w') →
  ∃ evs, removal_step w w' evs
         ∧ w_files w' = w_files w ∧ w_dirs w' = w_dirs w
         ∧ ((∀ e, EvRemovalFault e ∉ evs) → r = Ok true).
Proof.
  clear. swallowing_cases; split_and!; try done. fault_logged.
Qed.

Lemma swallowing_unlink_spec p :
  ∀ w r w', swallowing (unlink p) w = (r, w') →
  ∃ evs, removal_step w w' evs
         ∧ w_dirs w' = w_dirs w
         ∧ (w_files w' = w_files w ∨ w_files w' = delete p (w_files w))
         ∧ ((∀ e, EvRemovalFault e ∉ evs) →
            r = Ok true ∧ w_files w' = delete p (w_files w)).
Proof.
  clear. swallowing_cases; split_and!;
    try done; try (by left); try (by right). fault_logged.
Qed.

Lemma swallowing_rmdir_spec d :
  ∀ w r w', swallowing (rmdir d) w = (r, w') →
  ∃ evs, removal_step w w' evs
         ∧ w_files w' = w_files w
         ∧ ((∀ e, EvRemovalFault e ∉ evs) →
            r = Ok true ∧ (entries_under d w = [] → d ∉ w_dirs w')).
Proof.
  clear. swallowing_cases; unfold rmdir, entries_under; simpl;
    try case_bool_decide; simpl; split_and!; try done;
    try fault_logged; try (intros _; split; [done|]; intros _; set_solver).
Qed.

Lemma path_exists_spec d :
  ∀ w r w', path_exists d w = (r, w') →
  ∃ evs, removal_step w w' evs
         ∧ w_files w' = w_files w ∧ w_dirs w' = w_dirs w
         ∧ ((∀ e, EvRemovalFault e ∉ evs) → r = Ok (bool_decide (d ∈ w_dirs w))).
Proof.
  clear. swallowing_cases; split_and!; try done. fault_logged.
Qed.

Lemma removal_step_trans w1 w2 w3 evs1 evs2 :
  removal_step w1 w2 evs1 → removal_step w2 w3 evs2 →
  removal_step w1 w3 (evs1 ++ evs2).
Proof.
  clear. intros (Ht1 & Htr1 & Hc1) (Ht2 & Htr2 & Hc2).
  split_and!; [congruence | by rewrite Htr2, Htr1, app_assoc |].
  by rewrite created_app, Hc1, Hc2.
Qed.

Lemma unlink_loop_spec entries :
  ∀ w r w',
  foldM (λ _ p, let* _ := swallowing (unlink p) in ret tt) tt entries w = (r, w') →
  ∃ evs, removal_step w w' evs
         ∧ w_dirs w' = w_dirs w
         ∧ (∀ q, q ∉ entries → w_files w' !! q = w_files w !! q)
         ∧ ((∀ e, EvRemovalFault e ∉ evs) →
            r = Ok tt ∧ w_files w' = foldl (λ m p, delete p m) (w_files w) entries).
Proof.
  clear. induction entries as [|p entries IH]; intros w r w'.
  - intros [= <- <-]. exists []. split_and!; [|done|done|done].
    split_and!; [done | by rewrite app_nil_r | done].
  - cbn [foldM]. unfold bind at 1. unfold bind at 1.
    destruct (swallowing (unlink p) w) as [[b|e] w1] eqn:Hstep;
      apply swallowing_unlink_spec in Hstep
        as (evs1 & Hstep1 & Hd1 & Hf1 & Hok1).
    + unfold ret at 1. intros Hrest.
      apply IH in Hrest as (evs2 & Hstep2 & Hd2 & Hf2 & Hok2).
      exists (evs1 ++ evs2). split_and!.
      * by eapply removal_step_trans.
      * congruence.
      * intros q Hq. apply not_elem_of_cons in Hq as [Hne Hq].
        rewrite Hf2 by done.
        destruct Hf1 as [-> | ->]; [done | by apply lookup_delete_ne].
      * intros Hno.
        destruct Hok1 as [_ Hdel]; [intros e He; apply (Hno e), elem_of_app; by left|].
        destruct Hok2 as [-> Hrest]; [intros e He; apply (Hno e), elem_of_app; by right|].
        split; [done|]. simpl. by rewrite Hrest, Hdel.
    + intros [= <- <-]. exists evs1. split_and!; [done | done | | ].
      * intros q Hq. apply not_elem_of_cons in Hq as [Hne Hq].
        destruct Hf1 as [-> | ->]; [done | by apply lookup_delete_ne].
      * intros Hno. by destruct (Hok1 Hno).
Qed.

Lemma rmtree_spec d w r w' :
  rmtree d w = (r, w') →
  ∃ evs, removal_step w w' evs
         ∧ (∀ p, ¬ under d p → w_files w' !! p = w_files w !! p)
         ∧ ((∀ e, EvRemovalFault e ∉ evs) →
            (d ∉ w_dirs w') ∧ (∀ p, under d p → w_files w' !! p = None)).
Proof.
  clear. unfold rmtree. unfold bind at 1.
  set (w0 := log (EvRmtree d) w).
  assert (removal_step w w0 [EvRmtree d]) as Hstep0 by done.
  unfold bind at 1.
  destruct (swallowing id w0) as [[opened|e] w1] eqn:Hopen;
    apply swallowing_id_spec in Hopen as (evs1 & Hstep1 & Hf1 & Hd1 & Hok1).
  2: { intros [= <- <-]. exists ([EvRmtree d] ++ evs1).
       split_and!; [by eapply removal_step_trans | by intros p _; rewrite Hf1 |].
       intros Hno. exfalso.
       assert (Raise e = Ok true) as Hbad; [|done].
       apply Hok1. intros e' He'. apply (Hno e'), elem_of_app. by right. }
  destruct opened.
  2: { intros [= <- <-]. exists ([EvRmtree d] ++ evs1).
       split_and!; [by eapply removal_step_trans | by intros p _; rewrite Hf1 |].
       intros Hno. exfalso.
       assert (Ok false = Ok true) as Hbad; [|done].
       apply Hok1. intros e' He'. apply (Hno e'), elem_of_app. by right. }
  unfold bind at 1. unfold bind at 1.
  destruct (foldM _ tt (entries_under d w1) w1) as [[[]|e] w2] eqn:Hloop;
    apply unlink_loop_spec in Hloop as (evs2 & Hstep2 & Hd2 & Hf2 & Hok2).
  all: assert (∀ p, ¬ under d p → w_files w2 !! p = w_files w !! p) as Hother
    by (intros p Hp; rewrite Hf2, Hf1;
        [done | intros [? _]%elem_of_entries_under; done]).
  2: { intros [= <- <-]. exists (([EvRmtree d] ++ evs1) ++ evs2).
       split_and!; [eapply removal_step_trans; [by eapply removal_step_trans | done]
                   | done |].
       intros Hno. exfalso.
       assert (Raise e = Ok tt) as Hbad; [|done].
       apply Hok2. intros e' He'. apply (Hno e'), elem_of_app. by right. }
  unfold bind at 1.
  destruct (swallowing (rmdir d) w2) as [[b|e] w3] eqn:Hrmdir;
    apply swallowing_rmdir_spec in Hrmdir as (evs3 & Hstep3 & Hf3 & Hok3).
  2: { intros [= <- <-]. exists ((([EvRmtree d] ++ evs1) ++ evs2) ++ evs3).
       split_and!; [repeat (eapply removal_step_trans; [|done]); done
                   | by intros p Hp; rewrite Hf3; apply Hother |].
       intros Hno. exfalso.
       assert (Raise e = Ok true) as Hbad; [|done].
       apply Hok3. intros e' He'. apply (Hno e'), elem_of_app. by right. }
  unfold ret. intros [= <- <-]. exists ((([EvRmtree d] ++ evs1) ++ evs2) ++ evs3).
  split_and!; [repeat (eapply removal_step_trans; [|done]); done
              | by intros p Hp; rewrite Hf3; apply Hother |].
  intros Hno.
  destruct Hok2 as [_ Hfiles2].
  { intros e' He'. apply (Hno e'). rewrite !elem_of_app. left. by right. }
  destruct Hok3 as [_ Hgone].
  { intros e' He'. apply (Hno e'). rewrite !elem_of_app. by right. }
  assert (∀ p, under d p → w_files w2 !! p = None) as Hnone.
  { intros p Hp. rewrite Hfiles2, lookup_unlinked.
    case_bool_decide as Hin; [done|].
    destruct (w_files w1 !! p) as [f|] eqn:Hlook; [|done].
    exfalso. apply Hin, elem_of_entries_under. split; [done | by exists f]. }
  split.
  - apply Hgone. destruct (entries_under d w2) as [|p ps] eqn:Hentries; [done|].
    assert (p ∈ entries_under d w2) as Hp by (rewrite Hentries; left).
    apply elem_of_entries_under in Hp as [Hunder [f Hf]].
    rewrite (Hnone p Hunder) in Hf. done.
  - intros p Hp. rewrite Hf3. by apply Hnone.
Qed.

Lemma cleanup_untouched d w r w' :
  w_tmp_workspace w = Some d →
  cleanup w = (r, w') →
  ∀ p, ¬ under d p → w_files w' !! p = w_files w !! p.
Proof.
  clear. intros Htmp. unfold cleanup. rewrite Htmp. unfold bind at 1.
  destruct (path_exists d w) as [[present|e] w1] eqn:Hexists;
    apply path_exists_spec in Hexists as (evs1 & Hstep1 & Hf1 & Hd1 & Hok1).
  2: { intros [= <- <-] p _. by rewrite Hf1. }
  destruct present.
  - intros Hrm p Hp. apply rmtree_spec in Hrm as (evs2 & _ & Hother & _).
    by rewrite Hother, Hf1.
  - intros [= <- <-] p _. by rewrite Hf1.
Qed.

Lemma cleanup_spec d w r w' :
  w_tmp_workspace w = Some d →
  d ∈ w_dirs w →
  cleanup w = (r, w') →
  ∃ evs, removal_step w w' evs
         ∧ ((∀ e, EvRemovalFault e ∉ evs) →
            (d ∉ w_dirs w') ∧ (∀ p, under d p → w_files w' !! p = None)).
Proof.
  clear. intros Htmp Hdir. unfold cleanup. rewrite Htmp. unfold bind at 1.
  destruct (path_exists d w) as [[present|e] w1] eqn:Hexists;
    apply path_exists_spec in Hexists as (evs1 & Hstep1 & Hf1 & Hd1 & Hok1).
  2: { intros [= <- <-]. exists evs1. split; [done|].
       intros Hno. by specialize (Hok1 Hno). }
  destruct present.
  - intros Hrm. apply rmtree_spec in Hrm as (evs2 & Hstep2 & _ & Hgone).
    exists (evs1 ++ evs2). split; [by eapply removal_step_trans|].
    intros Hno. apply Hgone. intros e He. apply (Hno e), elem_of_app. by right.
  - intros [= <- <-]. exists evs1. split; [done|].
    intros Hno. specialize (Hok1 Hno).
    rewrite bool_decide_eq_true_2 in Hok1 by done. done.
Qed.

(** C8 (amended). For a scratch directory that a run has created there
    are two cases, whatever the files, the arguments and the faults met
    on the way (an I/O error, a failed validation, an interrupt at an
    input/output call).  Either its name was recorded in
    [tmp_workspace]: then, when no step of the removal in the [finally]
    clause failed or was interrupted, the directory does not exist when
    the run ends and no file is left under it.  Or the run was
    interrupted after the directory was made and before its name was
    recorded: then the run ends with that exception, the directory is the
    last thing the run did, and it is left behind. *)
Theorem run_removes_workspace (args : Args) (paths : list Path) (w w' : world)
    (r : result unit) (d : Path) :
  run args paths w = (r, w') →
  d ∈ created (drop (length (w_trace w)) (w_trace w')) →
  (w_tmp_workspace w' = Some d
   ∧ ((∀ e, EvRemovalFault e ∉ drop (length (w_trace w)) (w_trace w')) →
      (d ∉ w_dirs w') ∧ (∀ p, under d p → w_files w' !! p = None)))
  ∨ (w_tmp_workspace w' = None
     ∧ (∃ e, r = Raise e)
     ∧ d ∈ w_dirs w'
     ∧ ∃ pre, drop (length (w_trace w)) (w_trace w') = pre ++ [EvMkdtemp d]).
Proof.
  unfold run, bind at 1, lift at 1.
  destruct (supported_delim (args_out_delim args)) as [out_sep|e].
  2: { intros [= <- <-]. rewrite drop_all. by intros ?%elem_of_nil. }
  case_bool_decide as Hpaths.
  { intros [= <- <-]. rewrite drop_all. by intros ?%elem_of_nil. }
  unfold bind at 1.
  destruct (foldM _ _ paths w) as [[[per_file_delim per_file_headers]|e] w1] eqn:Hsniff;
    apply run_sniff_quiet in Hsniff as (Hd1 & Ht1 & evs1 & Htr1 & Hc1).
  2: { intros [= <- <-]. rewrite Htr1, drop_app_length, Hc1. by intros ?%elem_of_nil. }
  unfold bind, assign_tmp_workspace, try_finally.
  set (w2 := set_tmp_workspace None w1).
  destruct (run_body args out_sep paths per_file_delim per_file_headers w2)
    as [rb w3] eqn:Hbody.
  apply guarded_run_body in Hbody
    as [[(Hd3 & Ht3 & evs3 & Htr3 & Hc3)|(d0 & evs3 & Htr3 & Hc3 & Ht3 & Hd3)]
       |[(d0 & pre & Htr3 & Hc3 & Ht3 & Hd3) [e ->]]].
  - unfold cleanup. rewrite Ht3. simpl. intros [= <- <-].
    rewrite Htr3. simpl. rewrite Htr1, <- app_assoc, drop_app_length, created_app, Hc1, Hc3.
    by intros ?%elem_of_nil.
  - destruct (cleanup w3) as [rc w4] eqn:Hclean.
    apply (cleanup_spec d0) in Hclean as (evs4 & (Ht4 & Htr4 & Hc4) & Hgone);
      [| done | rewrite Hd3; set_solver ].
    assert (w_trace w4 = w_trace w ++ (evs1 ++ evs3 ++ evs4)) as Htrace.
    { rewrite Htr4, Htr3. simpl. rewrite Htr1, <- !app_assoc. done. }
    assert (∀ x, (match rc with
                  | Ok _ => (rb, w4)
                  | Raise e => (Raise e, w4)
                  end) = (x, w') → w' = w4) as Hw'
      by (intros x; destruct rc; by intros [= _ <-]).
    intros Hrun. apply Hw' in Hrun as ->.
    rewrite Htrace, drop_app_length, !created_app, Hc1, Hc3, Hc4. simpl.
    intros ->%list_elem_of_singleton. left. split; [congruence|].
    intros Hno. apply Hgone. intros e He. apply (Hno e).
    rewrite !elem_of_app. right. by right.
  - unfold cleanup. rewrite Ht3. simpl. intros [= <- <-].
    rewrite Htr3. simpl. rewrite Htr1, <- !app_assoc, drop_app_length.
    rewrite !created_app, Hc1, Hc3. simpl.
    intros ->%list_elem_of_singleton. right.
    split_and!; [by rewrite Ht3 | by exists e | rewrite Hd3; set_solver |].
    exists (evs1 ++ pre). by rewrite <- app_assoc.
Qed.

(** ** The merge of one chunk in requested-columns mode *)

Lemma filter_unique_label (cols : list (string * list cell)) l :
  NoDup cols.*1 → l ∈ cols.*1 →
  ∃ vs, (l, vs) ∈ cols ∧ List.filter (λ c, bool_decide (c.1 = l)) cols = [(l, vs)].
Proof.
  clear. induction cols as [|[l' vs'] cols IH]; intros Hnd Hl.
  - by apply elem_of_nil in Hl.
  - rewrite fmap_cons in Hnd, Hl. simpl in Hnd, Hl.
    apply NoDup_cons in Hnd as [Hnotin Hnd]. simpl.
    destruct (decide (l' = l)) as [->|Hne].
    + rewrite bool_decide_eq_true_2 by done.
      exists vs'. split; [left|]. f_equal.
      clear IH Hl Hnd. induction cols as [|[l2 vs2] cols IH]; [done|].
      rewrite fmap_cons, not_elem_of_cons in Hnotin. destruct Hnotin as [Hne Hnotin].
      simpl. rewrite bool_decide_eq_false_2 by (simpl in *; congruence). by apply IH.
    + rewrite bool_decide_eq_false_2 by done.
      apply elem_of_cons in Hl as [->|Hl]; [done|].
      destruct (IH Hnd Hl) as (vs & Hin & Hf). exists vs. split; [by right|done].
Qed.

Lemma getitem_cols_labels (cols : list (string * list cell)) labels :
  NoDup cols.*1 → Forall (λ l, l ∈ cols.*1) labels →
  ∃ sel, getitem_cols cols labels = Ok sel ∧ sel.*1 = labels.
Proof.
  clear. intros Hnd. induction 1 as [|l labels Hl _ IH]; simpl.
  - by exists [].
  - destruct (filter_unique_label cols l Hnd Hl) as (vs & _ & ->).
    destruct IH as (sel & -> & Hsel). exists ((l, vs) :: sel). split; [done|].
    by rewrite fmap_cons, Hsel.
Qed.

Lemma filter_all_true {A} (f : A → bool) (l : list A) :
  Forall (λ x, f x = true) l → List.filter f l = l.
Proof. clear. induction 1 as [|x l Hx _ IH]; simpl; [done|]. by rewrite Hx, IH. Qed.

Lemma rename_map_lookup (present : list string) (pairs : list (string * string))
    (m : gmap string string) :
  NoDup pairs.*2 → Forall (λ p, p.2 ∈ present) pairs →
  ∀ outcol filecol, (outcol, filecol) ∈ pairs →
  foldl (λ m '(outcol, filecol),
           if bool_decide (filecol ∈ present) then <[filecol := outcol]> m else m)
        m pairs !! filecol = Some outcol.
Proof.
  clear. revert m. induction pairs as [|[o f] pairs IH]; intros m Hnd Hall outcol filecol Hin.
  - by apply elem_of_nil in Hin.
  - rewrite fmap_cons in Hnd. apply NoDup_cons in Hnd as [Hnotin Hnd].
    apply Forall_cons in Hall as [Hf Hall]. simpl in Hf. simpl.
    rewrite bool_decide_eq_true_2 by done.
    apply elem_of_cons in Hin as [[= -> ->]|Hin].
    + clear IH. revert m. induction pairs as [|[o2 f2] pairs IH]; intros m; simpl.
      * apply lookup_insert_eq.
      * rewrite fmap_cons, not_elem_of_cons in Hnotin. destruct Hnotin as [Hne Hnotin].
        apply NoDup_cons in Hnd as [_ Hnd]. apply Forall_cons in Hall as [Hf2 Hall].
        simpl in *. rewrite bool_decide_eq_true_2 by done.
        rewrite insert_insert_ne by done. by apply IH.
    + by apply IH.
Qed.

Lemma columns_rename df (rename_map : gmap string string) :
  columns (rename df rename_map)
  = (λ l, default l (rename_map !! l)) <$> columns df.
Proof.
  clear. unfold rename, columns. simpl. rewrite <- !list_fmap_compose. done.
Qed.

Lemma fill_absent_id df schema_cols :
  Forall (λ col, col ∈ columns df) schema_cols → fill_absent df schema_cols = df.
Proof.
  clear. unfold fill_absent. induction 1 as [|col cols Hcol _ IH]; simpl; [done|].
  by rewrite bool_decide_eq_false_2 by (intros Hn; by apply Hn).
Qed.

(** When the columns read for the schema are pairwise distinct columns
    of the chunk, the selection step yields exactly the schema's columns
    and the loop that synthesizes absent columns changes nothing. *)
Lemma select_requested_all_present chunk schema_cols read_cols missing_policy :
  length read_cols = length schema_cols →
  NoDup read_cols → NoDup (columns chunk) →
  Forall (λ c, c ∈ columns chunk) read_cols →
  ∃ df, select_requested chunk schema_cols read_cols missing_policy = Ok df
        ∧ columns df = schema_cols
        ∧ fill_absent df schema_cols = df.
Proof.
  clear. intros Hlen Hnd Hchunk Hall. unfold select_requested.
  rewrite filter_all_true
    by (eapply Forall_impl; [exact Hall|]; intros c Hc; by apply bool_decide_eq_true_2).
  unfold getitem.
  destruct (getitem_cols_labels (df_cols chunk) read_cols Hchunk Hall) as (sel & -> & Hsel).
  set (df0 := mkDataFrame (df_len chunk) sel).
  assert (columns df0 = read_cols) as Hcols0 by done.
  set (df1 := if bool_decide (missing_policy = Some "fillna") then _ else df0).
  assert (df1 = df0) as ->.
  { unfold df1. case_bool_decide; [|done].
    assert (∀ pairs : list (string * string),
              Forall (λ p, p.2 ∈ columns chunk) pairs →
              foldl (λ df '(outcol, filecol),
                       if bool_decide (filecol ∉ columns chunk)
                       then setitem_NA df outcol else df) df0 pairs = df0) as Hgen.
    { induction 1 as [|[o f] pairs Hf _ IH]; simpl; [done|].
      by rewrite bool_decide_eq_false_2 by (intros Hn; by apply Hn). }
    apply Hgen. apply Forall_forall. intros [o f] Hin. simpl.
    rewrite Forall_forall in Hall. apply Hall.
    apply elem_of_zip_r in Hin. done. }
  eexists. split; [reflexivity|].
  rewrite Hcols0. set (rename_map := foldl _ ∅ (zip schema_cols read_cols)).
  assert (columns (rename df0 rename_map) = schema_cols) as Hren.
  { rewrite columns_rename, Hcols0.
    apply list_eq. intros i. rewrite list_lookup_fmap.
    destruct (schema_cols !! i) as [o|] eqn:Ho.
    - destruct (lookup_lt_is_Some_2 read_cols i) as [f Hf].
      { rewrite Hlen. by eapply lookup_lt_Some. }
      rewrite Hf. simpl. unfold rename_map.
      rewrite (rename_map_lookup read_cols (zip schema_cols read_cols) ∅) with (outcol := o).
      + done.
      + rewrite snd_zip by lia. done.
      + apply Forall_forall. intros [o' f''] Hin. simpl.
        apply elem_of_zip_r in Hin. done.
      + apply list_elem_of_lookup. exists i. apply lookup_zip_with_Some.
        exists o, f. done.
    - apply lookup_ge_None in Ho.
      assert (read_cols !! i = None) as ->; [|done].
      apply lookup_ge_None. lia. }
  split; [exact Hren|].
  apply fill_absent_id. rewrite Hren. apply Forall_forall. done.
Qed.

Lemma missing_in_nil requested case_insensitive hdrs r :
  missing_in requested case_insensitive hdrs = [] → r ∈ requested →
  is_Some (make_header_map hdrs case_insensitive
             !! (if case_insensitive then lower r else r)).
Proof.
  clear strip csv_sniff. unfold missing_in.
  rewrite resolve_requested_columns_eq. simpl. intros Hnil Hr.
  destruct (make_header_map hdrs case_insensitive
              !! (if case_insensitive then lower r else r)) as [v|] eqn:Hv; [by eexists|].
  assert (r ∈ filter (λ r, make_header_map hdrs case_insensitive
                             !! (if case_insensitive then lower r else r) = None)
                     requested) as Hin by (by apply list_elem_of_filter).
  rewrite Hnil in Hin. by apply elem_of_nil in Hin.
Qed.

Lemma header_map_value case_insensitive hdrs k v :
  make_header_map hdrs case_insensitive !! k = Some v → v ∈ hdrs.
Proof.
  clear strip csv_sniff. destruct case_insensitive.
  - intros Hk. by apply header_map_ci_value in Hk as [? _].
  - rewrite header_map_cs_lookup. case_bool_decide; [|done]. by intros [= <-].
Qed.

(** A file that lacks no requested name reads every schema column from a
    column named in its header. *)
Lemma resolved_read_cols requested case_insensitive hdrs :
  missing_in requested case_insensitive hdrs = [] →
  Forall (λ c, c ∈ hdrs)
         (read_cols_of (make_header_map hdrs case_insensitive) requested).
Proof.
  clear strip csv_sniff. intros Hnil. unfold read_cols_of.
  apply Forall_fmap, Forall_forall. intros r Hr. unfold read_col. simpl.
  pose proof (missing_in_nil _ _ _ _ Hnil Hr) as [v Hv].
  set (hm := make_header_map hdrs case_insensitive) in *.
  destruct (hm !! r) as [v0|] eqn:Hr0.
  - simpl. rewrite Hr0. simpl. by eapply header_map_value.
  - rewrite bool_decide_eq_true_2 by done. simpl.
    destruct case_insensitive; [|congruence].
    rewrite bool_decide_eq_true_2 by (by eexists). rewrite Hv. simpl.
    by eapply header_map_value.
Qed.

Lemma length_read_cols_of header_map schema_cols :
  length (read_cols_of header_map schema_cols) = length schema_cols.
Proof. unfold read_cols_of. apply length_fmap. Qed.

(** X1. In requested-columns mode, for a file that lacks no requested
    name: when the chunk carries every header name as a column label,
    without repetition, and the requested names are read from pairwise
    distinct columns, the selection yields exactly the requested columns
    and the loop synthesizing absent columns changes nothing. *)
Theorem resolved_file_needs_no_synthesis (requested hdrs : list string)
    (case_insensitive : bool) (chunk : DataFrame) (missing_policy : option string) :
  missing_in requested case_insensitive hdrs = [] →
  (∀ h, h ∈ hdrs → h ∈ columns chunk) →
  NoDup (columns chunk) →
  NoDup (read_cols_of (make_header_map hdrs case_insensitive) requested) →
  ∃ df,
    select_requested chunk requested
      (read_cols_of (make_header_map hdrs case_insensitive) requested)
      missing_policy = Ok df
    ∧ columns df = requested
    ∧ fill_absent df requested = df.
Proof.
  clear strip csv_sniff. intros Hmissing Hsub Hchunk Hnd.
  apply select_requested_all_present; [apply length_read_cols_of | done | done |].
  eapply Forall_impl; [by apply resolved_read_cols|]. simpl. intros c. apply Hsub.
Qed.

(** ** The header flag of the merge *)

Lemma writes_app out_path write_header st ns1 ns2 :
  writes out_path write_header st (ns1 ++ ns2)
  = writes out_path write_header st ns1
    ++ writes out_path write_header (state_after st ns1) ns2.
Proof.
  clear. revert st. induction ns1 as [|n ns1 IH]; intros st; simpl; [done|].
  by rewrite IH.
Qed.

Lemma state_after_app st ns1 ns2 :
  state_after st (ns1 ++ ns2) = state_after (state_after st ns1) ns2.
Proof. clear. revert st. induction ns1 as [|n ns1 IH]; intros st; simpl; [done|]. apply IH. Qed.

Lemma read_csv_trace p chunksize w r w' :
  read_csv p chunksize w = (r, w') → w_trace w' = w_trace w.
Proof.
  clear. unfold read_csv. case_match; [by intros [= <- <-]|].
  unfold bind, open_file, bind.
  destruct (io w) as [[[]|e] w1] eqn:Hio; apply io_trace in Hio.
  - destruct (w_files w1 !! p); unfold ret; by intros [= <- <-].
  - by intros [= <- <-].
Qed.

Lemma to_csv_trace df path sep header mode w r w' :
  to_csv df path sep header mode w = (r, w') →
  (r = Ok tt ∧ w_trace w' = w_trace w ++ [EvToCsv path header mode (df_len df)])
  ∨ ((∃ e, r = Raise e) ∧ w_trace w' = w_trace w).
Proof.
  clear. unfold to_csv, bind.
  destruct (io w) as [[[]|e] w1] eqn:Hio; apply io_trace in Hio.
  - intros [= <- <-]. left. simpl. by rewrite Hio.
  - intros [= <- <-]. right. split; [by eexists|done].
Qed.

(** The chunk loop of one file. *)
Lemma chunk_loop_writes (shape : DataFrame → result DataFrame)
    out_path out_delim write_header reader st w r w' :
  foldM (λ '(mode, total_rows) chunk,
           let* df := lift (shape chunk) in
           let* _ := to_csv df out_path out_delim
                       (write_header && bool_decide (total_rows = 0%nat)) mode in
           ret ("a", (total_rows + df_len df)%nat))
        st reader w = (r, w') →
  ∃ ns, w_trace w' = w_trace w ++ writes out_path write_header st ns
        ∧ ∀ st', r = Ok st' → st' = state_after st ns.
Proof.
  clear. revert st w. induction reader as [|chunk reader IH]; intros [mode total] w; simpl.
  - intros [= <- <-]. exists []. simpl. rewrite app_nil_r. split; [done|]. by intros st' [= <-].
  - unfold bind at 1. unfold bind at 1. unfold lift.
    destruct (shape chunk) as [df|e].
    2: { intros [= <- <-]. exists []. simpl. rewrite app_nil_r. split; [done|]. by intros. }
    unfold bind at 1.
    destruct (to_csv df out_path out_delim _ mode w) as [[[]|e] w1] eqn:Hcsv;
      apply to_csv_trace in Hcsv as [[Hr Htr]|[[e' Hr] Htr]]; try done.
    + unfold ret. intros Hrest. apply IH in Hrest as (ns & Htr' & Hst).
      exists (df_len df :: ns). simpl. rewrite Htr', Htr, <- app_assoc. done.
    + intros [= <- <-]. exists []. simpl. rewrite app_nil_r. split; [done|]. by intros.
Qed.

Lemma writes_no_header out_path st ns :
  Forall (λ ev, event_header ev = false) (writes out_path false st ns).
Proof.
  clear. revert st. induction ns as [|n ns IH]; intros st; simpl; constructor; [done|apply IH].
Qed.

Lemma writes_after_rows out_path write_header st ns :
  (0 < st.2)%nat →
  Forall (λ ev, event_header ev = false) (writes out_path write_header st ns).
Proof.
  clear. revert st. induction ns as [|n ns IH]; intros st Hpos; simpl; constructor.
  - simpl. rewrite bool_decide_eq_false_2 by lia. apply andb_false_r.
  - apply IH. simpl. lia.
Qed.

(** X2. Whatever its outcome, [combine_files] calls [to_csv] in one
    sequence that starts in mode [w] and continues in mode [a], and
    passes [header=True] exactly while header output is enabled and no
    row has been written yet.  So with header output disabled no call
    writes a header; and when the first chunk written has a row, the
    header is written by that first call and by no later one. *)
Theorem combine_files_header_events
    (paths : list Path) (per_file_delim : gmap Path ascii) (schema_cols : list string)
    (out_path : Path) (out_delim : ascii) (chunksize : Z) (write_header : bool)
    (columns_mode : bool) (per_file_header_maps : option (gmap Path (gmap string string)))
    (missing_policy : option string)
    (add_source_col : bool) (source_col_name source_mode : string)
    (w w' : world) (r : result unit) :
  combine_files paths per_file_delim schema_cols out_path out_delim chunksize
    write_header columns_mode per_file_header_maps missing_policy
    add_source_col source_col_name source_mode w = (r, w') →
  ∃ ns,
    w_trace w' = w_trace w ++ writes out_path write_header ("w", 0%nat) ns
    ∧ (write_header = false →
       Forall (λ ev, event_header ev = false)
              (writes out_path write_header ("w", 0%nat) ns))
    ∧ (∀ n ns', ns = n :: ns' → (0 < n)%nat →
       writes out_path write_header ("w", 0%nat) ns
       = EvToCsv out_path write_header "w" n
         :: writes out_path write_header ("a", n) ns'
       ∧ Forall (λ ev, event_header ev = false)
                (writes out_path write_header ("a", n) ns')).
Proof.
  clear strip csv_sniff. intros Hrun.
  assert (∃ ns, w_trace w' = w_trace w ++ writes out_path write_header ("w", 0%nat) ns)
    as [ns Hns].
  { unfold combine_files in Hrun. unfold bind at 1 in Hrun.
    match type of Hrun with
    | context [foldM ?f ?s paths w] =>
        assert (∀ ps st w0 r0 w1,
                  foldM f st ps w0 = (r0, w1) →
                  ∃ ns, w_trace w1 = w_trace w0 ++ writes out_path write_header st ns
                        ∧ ∀ st', r0 = Ok st' → st' = state_after st ns) as Hloop
    end.
    { induction ps as [|p ps IH]; intros [mode total] w0 r0 w1; simpl.
      - intros [= <- <-]. exists []. simpl. rewrite app_nil_r.
        split; [done|]. by intros st' [= <-].
      - unfold bind at 1. unfold bind at 1. unfold lift at 1.
        destruct (per_file_delim !! p) as [sep|].
        2: { intros [= <- <-]. exists []. simpl. rewrite app_nil_r. split; [done|]. by intros. }
        unfold bind at 1. unfold lift at 1.
        match goal with
        | |- context [match ?x with Ok _ => _ | Raise _ => _ end] =>
            destruct x as [read_cols|e]
        end.
        2: { intros [= <- <-]. exists []. simpl. rewrite app_nil_r. split; [done|]. by intros. }
        unfold bind at 1.
        destruct (read_csv p chunksize w0) as [[reader|e] w2] eqn:Hread;
          apply read_csv_trace in Hread.
        2: { intros [= <- <-]. exists []. simpl. rewrite app_nil_r. split; [done|]. by intros. }
        match goal with
        | |- context [foldM ?g (mode, total) reader w2] =>
            destruct (foldM g (mode, total) reader w2) as [[st1|e] w3] eqn:Hchunks
        end.
        + apply (chunk_loop_writes
                   (λ chunk, shape_chunk chunk p schema_cols columns_mode read_cols
                               missing_policy add_source_col source_col_name source_mode))
            in Hchunks as (ns1 & Htr1 & Hst1).
          intros Hrest. apply IH in Hrest as (ns2 & Htr2 & Hst2).
          exists (ns1 ++ ns2). rewrite writes_app, state_after_app.
          rewrite <- (Hst1 st1 eq_refl). rewrite Htr2, Htr1, Hread, <- app_assoc.
          split; [done|]. exact Hst2.
        + apply (chunk_loop_writes
                   (λ chunk, shape_chunk chunk p schema_cols columns_mode read_cols
                               missing_policy add_source_col source_col_name source_mode))
            in Hchunks as (ns1 & Htr1 & Hst1).
          intros [= <- <-]. exists ns1. rewrite Htr1, Hread. split; [done|]. by intros. }
    match type of Hrun with
    | context [foldM ?f ?s paths w] =>
        destruct (foldM f s paths w) as [[st|e] w1] eqn:Hfold
    end.
    - apply Hloop in Hfold as (ns & Htr & _). unfold ret in Hrun.
      injection Hrun as <- <-. by exists ns.
    - apply Hloop in Hfold as (ns & Htr & _). injection Hrun as <- <-. by exists ns. }
  exists ns. split_and!; [exact Hns | |].
  - intros ->. apply writes_no_header.
  - intros n ns' -> Hn. simpl. rewrite andb_true_r. split; [done|].
    apply writes_after_rows. simpl. lia.
Qed.

(** ** Columns synthesized under [fillna] *)

Lemma setitem_NA_blank df X Y :
  Y = X ∨ blank_column df X → blank_column (setitem_NA df Y) X.
Proof.
  clear. unfold blank_column, setitem_NA. intros HX c.
  case_bool_decide as HY; simpl.
  - intros [c0 [-> Hc0]]%list_elem_of_fmap. case_bool_decide as Hl; simpl; [done|].
    intros Hc. destruct HX as [->|HX]; [done | by apply HX].
  - rewrite elem_of_app, list_elem_of_singleton. intros [Hc| ->]; simpl; [|done].
    intros Hl. destruct HX as [->|HX]; [|by apply HX].
    destruct HY. subst X. apply list_elem_of_fmap. by exists c.
Qed.

Lemma setitem_NA_foreign chunk df Y :
  foreign_blank chunk df → foreign_blank chunk (setitem_NA df Y).
Proof.
  clear. unfold foreign_blank, setitem_NA. intros Hdf c.
  case_bool_decide as HY; simpl.
  - intros [c0 [-> Hc0]]%list_elem_of_fmap. case_bool_decide; simpl; [done|]. by apply Hdf.
  - rewrite elem_of_app, list_elem_of_singleton. intros [Hc| ->]; simpl; [by apply Hdf|done].
Qed.

Lemma setitem_NA_columns df Y l :
  l ∈ columns (setitem_NA df Y) ↔ l = Y ∨ l ∈ columns df.
Proof.
  clear. unfold columns, setitem_NA. case_bool_decide as HY; simpl.
  - rewrite <- list_fmap_compose.
    assert ((fst ∘ (λ c : string * list cell,
                      if bool_decide (c.1 = Y)
                      then (c.1, replicate (df_len df) NA) else c)) <$> df_cols df
            = (df_cols df).*1) as ->.
    { apply list_fmap_ext. intros i c _. simpl. by case_bool_decide. }
    split; [by right | intros [->|?]; done].
  - rewrite fmap_app, elem_of_app. simpl. rewrite list_elem_of_singleton. tauto.
Qed.

Lemma setitem_NA_len df Y : df_len (setitem_NA df Y) = df_len df.
Proof. clear. unfold setitem_NA. by case_bool_decide. Qed.

Lemma getitem_cols_sub (cols : list (string * list cell)) labels sel :
  getitem_cols cols labels = Ok sel →
  (∀ c, c ∈ sel → c ∈ cols ∧ c.1 ∈ labels) ∧ (∀ l, l ∈ labels → l ∈ sel.*1).
Proof.
  clear. revert sel. induction labels as [|l labels IH]; intros sel; simpl.
  - intros [= <-]. split; [by intros c ?%elem_of_nil | by intros l ?%elem_of_nil].
  - destruct (List.filter _ cols) as [|h hit] eqn:Hf; [done|].
    destruct (getitem_cols cols labels) as [more|e]; [|done].
    intros [= <-]. destruct (IH more eq_refl) as [IH1 IH2].
    assert (∀ c, c ∈ h :: hit → c ∈ cols ∧ c.1 = l) as Hhit.
    { intros c Hc. rewrite <- Hf in Hc.
      apply list_elem_of_In, filter_In in Hc as [Hc Hl].
      apply list_elem_of_In in Hc. by apply bool_decide_eq_true in Hl. }
    split.
    + intros c. rewrite app_comm_cons, elem_of_app. intros [Hc|Hc].
      * destruct (Hhit c Hc) as [? <-]. split; [done|left].
      * destruct (IH1 c Hc). split; [done|by right].
    + intros l' [->|Hl']%elem_of_cons.
      * destruct (Hhit h) as [_ <-]; [left|]. rewrite fmap_cons. left.
      * rewrite app_comm_cons, fmap_app, elem_of_app. right. by apply IH2.
Qed.

Lemma getitem_blank df labels df' X :
  getitem df labels = Ok df' → blank_column df X → blank_column df' X.
Proof.
  clear. unfold getitem. destruct (getitem_cols _ _) as [sel|] eqn:Hsel; [|done].
  intros [= <-] Hdf c Hc. simpl in *.
  apply getitem_cols_sub in Hsel as [Hsub _]. apply Hdf. by apply Hsub.
Qed.

Lemma getitem_len df labels df' : getitem df labels = Ok df' → df_len df' = df_len df.
Proof.
  clear. unfold getitem. destruct (getitem_cols _ _); [|done]. by intros [= <-].
Qed.

Lemma getitem_columns df labels df' l :
  getitem df labels = Ok df' → l ∈ labels → l ∈ columns df'.
Proof.
  clear. unfold getitem. destruct (getitem_cols _ _) as [sel|] eqn:Hsel; [|done].
  intros [= <-] Hl. apply getitem_cols_sub in Hsel as [_ Hlab]. by apply Hlab.
Qed.

Lemma fill_absent_keeps df schema_cols l :
  l ∈ columns df → l ∈ columns (fill_absent df schema_cols).
Proof.
  clear. unfold fill_absent. revert df.
  induction schema_cols as [|c cols IH]; intros df Hl; simpl; [done|].
  apply IH. case_bool_decide; [apply setitem_NA_columns; by right | done].
Qed.

Lemma fill_absent_spec df schema_cols X :
  df_len (fill_absent df schema_cols) = df_len df
  ∧ (blank_column df X → blank_column (fill_absent df schema_cols) X)
  ∧ (∀ l, l ∈ schema_cols → l ∈ columns (fill_absent df schema_cols)).
Proof.
  clear. unfold fill_absent. revert df.
  induction schema_cols as [|col cols IH]; intros df; simpl.
  - split_and!; [done | done | by intros l ?%elem_of_nil].
  - set (df1 := if bool_decide (col ∉ columns df) then setitem_NA df col else df).
    destruct (IH df1) as (Hlen & Hblank & Hcols).
    assert (df_len df1 = df_len df) as Hlen1
      by (unfold df1; case_bool_decide; [apply setitem_NA_len | done]).
    assert (col ∈ columns df1) as Hcol1.
    { unfold df1. case_bool_decide as Hc; [apply setitem_NA_columns; by left|done]. }
    split_and!.
    + by rewrite Hlen.
    + intros HX. apply Hblank. unfold df1. case_bool_decide; [|done].
      apply setitem_NA_blank. by right.
    + intros l [->|Hl]%elem_of_cons; [|by apply Hcols].
      by apply (fill_absent_keeps df1 cols).
Qed.

Lemma fillna_loop_spec chunk (pairs : list (string * string)) df :
  let df' := foldl (λ df '(outcol, filecol),
                      if bool_decide (filecol ∉ columns chunk) then setitem_NA df outcol
                      else df) df pairs in
  df_len df' = df_len df
  ∧ (foreign_blank chunk df → foreign_blank chunk df')
  ∧ ∀ X, blank_column df X ∨ (∃ f, (X, f) ∈ pairs ∧ f ∉ columns chunk) →
         blank_column df' X.
Proof.
  clear. revert df. induction pairs as [|[o f] pairs IH]; intros df; simpl.
  - split_and!; [done | done |]. intros X [HX|(f & []%elem_of_nil & _)]. done.
  - set (df1 := if bool_decide (f ∉ columns chunk) then setitem_NA df o else df).
    destruct (IH df1) as (Hlen & Hforeign & Hblank).
    split_and!.
    + rewrite Hlen. unfold df1. case_bool_decide; [apply setitem_NA_len | done].
    + intros Hdf. apply Hforeign. unfold df1.
      case_bool_decide; [by apply setitem_NA_foreign | done].
    + intros X HX. apply Hblank.
      destruct HX as [HX|(f' & [[= -> ->]|Hin]%elem_of_cons & Hf')].
      * left. unfold df1. case_bool_decide; [|done]. apply setitem_NA_blank. by right.
      * left. unfold df1. rewrite bool_decide_eq_true_2 by done.
        apply setitem_NA_blank. by left.
      * right. by exists f'.
Qed.

Lemma rename_map_values (present : list string) (pairs : list (string * string))
    (m : gmap string string) l o :
  foldl (λ m '(outcol, filecol),
           if bool_decide (filecol ∈ present) then <[filecol := outcol]> m else m)
        m pairs !! l = Some o →
  m !! l = Some o ∨ (o, l) ∈ pairs.
Proof.
  clear. revert m. induction pairs as [|[o' f'] pairs IH]; intros m; simpl; [by left|].
  intros Hl. apply IH in Hl as [Hl|Hl]; [|right; by right].
  case_bool_decide; [|by left].
  apply lookup_insert_Some in Hl as [[<- <-]|[_ Hl]]; [right; left | by left].
Qed.

Lemma elem_of_zip_fmap {A B} (g : A → B) (l : list A) a b :
  (a, b) ∈ zip l (g <$> l) ↔ a ∈ l ∧ b = g a.
Proof.
  clear. induction l as [|x l IH]; simpl.
  - split; [by intros ?%elem_of_nil | by intros [?%elem_of_nil _]].
  - rewrite !elem_of_cons, IH. split.
    + intros [[= -> ->]|[? ->]]; [split; [by left|done] | split; [by right|done]].
    + intros [[->|?] ->]; [by left | right; done].
Qed.

(** Under [fillna], a schema column read from a column that the chunk
    does not have is blank after the selection step. *)
Lemma select_requested_fillna_blank chunk schema_cols header_map X df :
  select_requested chunk schema_cols (read_cols_of header_map schema_cols)
    (Some "fillna") = Ok df →
  X ∈ schema_cols → read_col header_map X ∉ columns chunk →
  df_len df = df_len chunk ∧ blank_column df X.
Proof.
  clear strip csv_sniff. unfold select_requested. intros Hsel HX Habsent.
  destruct (getitem chunk _) as [df0|e] eqn:Hget; [|done].
  rewrite bool_decide_eq_true_2 in Hsel by done.
  injection Hsel as <-.
  assert (df_len df0 = df_len chunk) as Hlen0 by (by eapply getitem_len).
  assert (foreign_blank chunk df0) as Hforeign0.
  { intros c Hc Hlabel. destruct Hlabel. unfold getitem in Hget.
    destruct (getitem_cols _ _) as [sel|] eqn:Hsel; [|done]. injection Hget as <-.
    apply getitem_cols_sub in Hsel as [Hsub _]. simpl in Hc.
    apply Hsub in Hc as [Hc _]. apply list_elem_of_fmap. by exists c. }
  set (pairs := zip schema_cols (read_cols_of header_map schema_cols)).
  destruct (fillna_loop_spec chunk pairs df0) as (Hlen1 & Hforeign1 & Hblank1).
  set (df1 := foldl _ df0 pairs) in *.
  specialize (Hforeign1 Hforeign0).
  assert (blank_column df1 X) as HX1.
  { apply Hblank1. right. exists (read_col header_map X). split; [|done].
    unfold pairs, read_cols_of. by apply elem_of_zip_fmap. }
  split; [simpl; congruence|].
  intros c Hc Hlabel. simpl in *.
  apply list_elem_of_fmap in Hc as (c0 & -> & Hc0). simpl in *.
  destruct (_ !! c0.1) as [o|] eqn:Hrm; simpl in Hlabel.
  - subst o. apply rename_map_values in Hrm as [Hrm|Hrm]; [by rewrite lookup_empty in Hrm|].
    apply elem_of_zip_fmap in Hrm as [_ Hrm].
    apply Hforeign1; [done|]. by rewrite Hrm.
  - by apply HX1.
Qed.

(** X3. In requested-columns mode under [fillna], when the merge of a
    chunk succeeds, every schema column whose source column is not a
    column of the chunk is present in the frame written and holds a null
    in every row; and the frame has as many rows as the chunk. *)
Theorem fillna_absent_column_is_null (chunk : DataFrame) (p : Path)
    (schema_cols : list string) (header_map : gmap string string)
    (add_source_col : bool) (source_col_name source_mode : string)
    (X : string) (df : DataFrame) :
  shape_chunk chunk p schema_cols true (read_cols_of header_map schema_cols)
    (Some "fillna") add_source_col source_col_name source_mode = Ok df →
  X ∈ schema_cols →
  read_col header_map X ∉ columns chunk →
  df_len df = df_len chunk ∧ X ∈ columns df ∧ blank_column df X.
Proof.
  clear strip csv_sniff. unfold shape_chunk. intros Hshape HX Habsent.
  destruct (select_requested _ _ _ _) as [df0|e] eqn:Hsel; [|done].
  destruct (select_requested_fillna_blank _ _ _ _ _ Hsel HX Habsent) as [Hlen0 Hblank0].
  destruct (fill_absent_spec df0 schema_cols X) as (Hlen1 & Hblank1 & Hcols1).
  destruct (getitem (fill_absent df0 schema_cols) schema_cols) as [df2|e] eqn:Hget; [|done].
  assert (df_len df2 = df_len chunk) as Hlen2
    by (rewrite (getitem_len _ _ _ Hget); congruence).
  assert (X ∈ columns df2) as Hcol2 by (by eapply getitem_columns).
  assert (blank_column df2 X) as Hblank2 by (eapply getitem_blank; eauto).
  destruct add_source_col; [|by injection Hshape as <-].
  unfold insert0 in Hshape. case_bool_decide as Hname; [done|].
  destruct (getitem _ (source_col_name :: schema_cols)) as [df3|e] eqn:Hget3; [|done].
  injection Hshape as <-.
  split_and!.
  - rewrite (getitem_len _ _ _ Hget3). done.
  - eapply getitem_columns; [exact Hget3 | by right].
  - eapply getitem_blank; [exact Hget3|].
    intros c [->|Hc]%elem_of_cons Hlabel; simpl in *; [congruence|]. by apply Hblank2.
Qed.

Lemma read_col_unresolved header_map X :
  header_map !! X = None → header_map !! lower X = None → read_col header_map X = X.
Proof.
  clear strip csv_sniff. intros HX Hlow. unfold read_col.
  rewrite bool_decide_eq_true_2 by done.
  rewrite bool_decide_eq_false_2 by (rewrite Hlow; by intros [? ?]).
  simpl. by rewrite HX.
Qed.

(** * Further properties of the engine *)

(** ** The resolver of requested columns *)

Lemma header_map_ci_dom (hdrs : list string) k :
  is_Some (make_header_map hdrs true !! k) ↔ ∃ h, h ∈ hdrs ∧ lower h = k.
Proof.
  clear strip csv_sniff. split.
  - intros [v Hv]. apply header_map_ci_value in Hv as [? ?]. by exists v.
  - intros (h & Hh & <-). unfold make_header_map.
    assert (∀ l (m : gmap string string),
              h ∈ l ∨ is_Some (m !! lower h) →
              is_Some (foldl (λ m h, <[lower h := h]> m) m l !! lower h)) as Hgen.
    { induction l as [|x l IH]; intros m; simpl.
      - intros [?%elem_of_nil|?]; done.
      - intros Hcase. apply IH.
        destruct (decide (lower x = lower h)) as [Heq|Hne].
        + right. rewrite Heq, lookup_insert_eq. by eexists.
        + destruct Hcase as [[->|?]%elem_of_cons|Hm]; [done | by left |].
          right. by rewrite lookup_insert_ne. }
    apply Hgen. by left.
Qed.

Lemma omap_filter_length {A B} (f : A → option B) (l : list A) :
  (length (omap f l) + length (filter (λ x, f x = None) l) = length l)%nat.
Proof.
  clear. induction l as [|a l IH]; [done|].
  rewrite filter_cons. change (omap f (a :: l))
    with (match f a with Some b => b :: omap f l | None => omap f l end).
  destruct (f a) as [b|] eqn:Ha.
  - rewrite decide_False by done. simpl. lia.
  - rewrite decide_True by done. simpl. lia.
Qed.

Lemma omap_guard {A} (P : A → Prop) `{∀ x, Decision (P x)} (f : A → option A)
    (l : list A) :
  (∀ x, f x = if bool_decide (P x) then Some x else None) →
  omap f l = filter P l.
Proof.
  clear. intros Hf. induction l as [|a l IH]; [done|].
  rewrite filter_cons. change (omap f (a :: l))
    with (match f a with Some b => b :: omap f l | None => omap f l end).
  rewrite Hf, IH. case_bool_decide; [by rewrite decide_True | by rewrite decide_False].
Qed.

(** X4. The resolver splits the requested names in two: every name is
    either resolved to a header entry or reported missing, the missing
    names keep their requested order, and a name is missing exactly when
    no header entry matches it (by equality, or by equality of the folded
    names under case-insensitive matching).  Under case-sensitive
    matching the resolved names are the requested names themselves. *)
Theorem resolve_requested_columns_partition (requested hdrs : list string)
    (case_insensitive : bool) :
  let header_map := make_header_map hdrs case_insensitive in
  let found := (resolve_requested_columns requested header_map case_insensitive).1 in
  let missing := (resolve_requested_columns requested header_map case_insensitive).2 in
  let matches (r h : string) :=
    if case_insensitive then lower h = lower r else h = r in
  (length found + length missing = length requested)%nat
  ∧ missing `sublist_of` requested
  ∧ (∀ r, r ∈ missing ↔ r ∈ requested ∧ ¬ ∃ h, h ∈ hdrs ∧ matches r h)
  ∧ Forall (λ h, h ∈ hdrs) found
  ∧ (case_insensitive = false → found = filter (λ r, r ∈ hdrs) requested).
Proof.
  clear strip csv_sniff. intros header_map found missing matches.
  unfold found, missing. rewrite resolve_requested_columns_eq. simpl.
  set (key := λ r : string, if case_insensitive then lower r else r).
  assert (∀ r, header_map !! key r = None ↔ ¬ ∃ h, h ∈ hdrs ∧ matches r h) as Hnone.
  { intros r. unfold header_map, key, matches. destruct case_insensitive.
    - rewrite <- header_map_ci_dom, eq_None_not_Some. done.
    - rewrite header_map_cs_lookup. case_bool_decide as Hr.
      + split; [done|]. intros Hn. destruct Hn. by exists r.
      + split; [|done]. intros _ (h & Hh & ->). done. }
  split_and!.
  - apply omap_filter_length.
  - apply sublist_filter.
  - intros r. rewrite list_elem_of_filter. specialize (Hnone r).
    unfold key in Hnone. simpl in *. tauto.
  - apply Forall_forall. intros h Hh.
    apply list_elem_of_omap in Hh as (r & _ & Hr).
    by eapply header_map_value.
  - intros ->. apply omap_guard. intros r. apply header_map_cs_lookup.
Qed.

(** ** The errors of the schema reconciler *)

(** X5. [build_schema] never fails under the union policy; under the
    strict policy it fails only with [IndexError], exactly on the empty
    list of headers, or with the schema-mismatch error; under the
    intersection policy only with [IndexError], exactly on the empty
    list, or with the empty-intersection error; and every other policy
    name is refused with the unknown-policy error, whatever the headers. *)
Theorem build_schema_failures (headers_list : list (list string)) :
  (∃ out, build_schema headers_list "union" = Ok out)
  ∧ (build_schema headers_list "strict" = Raise IndexError ↔ headers_list = [])
  ∧ (∀ e, build_schema headers_list "strict" = Raise e →
       e = IndexError ∨ ∃ other, other ∈ headers_list
           ∧ e = ValueError (SchemaMismatch (hd [] headers_list) other))
  ∧ (build_schema headers_list "intersection" = Raise IndexError ↔ headers_list = [])
  ∧ (∀ e, build_schema headers_list "intersection" = Raise e →
       e = IndexError ∨ e = ValueError NoSharedColumns)
  ∧ (∀ policy, policy ≠ "strict" → policy ≠ "union" → policy ≠ "intersection" →
       build_schema headers_list policy = Raise (ValueError (UnknownPolicy policy))).
Proof.
  clear. split_and!.
  - by eexists.
  - unfold build_schema. simpl. destruct headers_list as [|base rest]; [done|].
    split; [|done]. intros Hs. exfalso. revert Hs.
    generalize (list_to_set base : gset string). intros base_set.
    induction rest as [|h rest IH]; simpl; [done|]. by case_bool_decide.
  - intros e. unfold build_schema. simpl.
    destruct headers_list as [|base rest]; [intros [= <-]; by left|]. simpl.
    generalize (list_to_set base : gset string). intros base_set Hs. right.
    induction rest as [|h rest IH]; simpl in Hs; [done|].
    case_bool_decide.
    + injection Hs as <-. exists h. split; [right; left | done].
    + destruct (IH Hs) as (other & Hin & ->). exists other. split; [|done].
      apply elem_of_cons in Hin as [->|Hin]; [left | right; by right].
  - unfold build_schema. simpl. destruct headers_list as [|first rest]; [done|].
    split; [|done]. by case_bool_decide.
  - intros e. unfold build_schema. simpl.
    destruct headers_list as [|first rest]; [intros [= <-]; by left|].
    case_bool_decide; [|done]. intros [= <-]. by right.
  - intros policy Hs Hu Hi. unfold build_schema.
    by rewrite !bool_decide_eq_false_2.
Qed.

(** ** Agreement of the three policies *)

Lemma first_seen_covered (seen : gset string) l :
  Forall (λ x, x ∈ seen) l → first_seen seen l = [].
Proof.
  clear. induction 1 as [|x l Hx _ IH]; simpl; [done|].
  by rewrite bool_decide_eq_false_2 by (intros Hn; by apply Hn).
Qed.

Lemma first_seen_NoDup (seen : gset string) l :
  NoDup l → Forall (λ x, x ∉ seen) l → first_seen seen l = l.
Proof.
  clear. intros Hnd. revert seen. induction Hnd as [|x l Hx _ IH]; intros seen Hall; simpl.
  - done.
  - apply Forall_cons in Hall as [Hxs Hall].
    rewrite bool_decide_eq_true_2 by done. f_equal. apply IH.
    apply Forall_forall. intros y Hy. rewrite Forall_forall in Hall.
    specialize (Hall y Hy). set_solver.
Qed.

(** X6. When the first header is non-empty and repeats no name, and
    every file carries the same set of columns, the three policies agree:
    each returns the first header, in its order. *)
Theorem build_schema_policies_agree (base : list string) (rest : list (list string)) :
  base ≠ [] → NoDup base →
  Forall (λ h, same_columns h base) rest →
  build_schema (base :: rest) "strict" = Ok base
  ∧ build_schema (base :: rest) "union" = Ok base
  ∧ build_schema (base :: rest) "intersection" = Ok base.
Proof.
  clear. intros Hne Hnd Hsame. split_and!.
  - unfold build_schema. simpl. by apply strict_loop_all_same.
  - change (build_schema (base :: rest) "union")
      with (Ok (union_loop (base :: rest)).1).
    unfold union_loop. rewrite union_loop_first_seen. simpl. rewrite first_seen_app.
    rewrite first_seen_NoDup; [|done|apply Forall_forall; set_solver].
    rewrite first_seen_covered; [by rewrite app_nil_r|].
    apply Forall_forall. intros c Hc.
    apply elem_of_concat in Hc as (h & Hh & Hc).
    rewrite Forall_forall in Hsame. apply (Hsame h Hh) in Hc.
    rewrite elem_of_union, elem_of_list_to_set. by right.
  - unfold build_schema. simpl.
    set (shared := foldl _ _ rest).
    assert (∀ c, c ∈ shared ↔ c ∈ base) as Hshared.
    { intros c. unfold shared. rewrite elem_of_shared, elem_of_list_to_set.
      split; [by intros [? _]|]. intros Hc. split; [done|].
      eapply Forall_impl; [exact Hsame|]. simpl. intros h Hh. by apply Hh. }
    rewrite bool_decide_eq_false_2.
    + f_equal. clear Hne Hnd. 
      assert (∀ l, Forall (λ c, c ∈ shared) l → filter (λ h, h ∈ shared) l = l) as Hall.
      { induction 1 as [|x l Hx _ IH]; [done|].
        by rewrite filter_cons, decide_True, IH by done. }
      apply Hall, Forall_forall. intros c Hc. by apply Hshared.
    + intros Hempty. destruct base as [|c base]; [done|].
      assert (c ∈ shared) as Hc by (apply Hshared; left).
      rewrite Hempty in Hc. set_solver.
Qed.

(** ** Sniffing a consistently delimited sample *)

Lemma tally_all_equal k (counts : list nat) :
  Forall (λ c, c = k) counts → tally k counts = length counts.
Proof.
  clear. unfold tally. induction 1 as [|c counts -> _ IH]; [done|].
  rewrite filter_cons, decide_True by done. simpl. by rewrite IH.
Qed.

Lemma candidate_score_uniform delim lines k :
  Exists (λ ln, strip ln ≠ "") lines →
  (∀ ln, ln ∈ lines → strip ln ≠ "" → length (split delim (strip ln)) = k) →
  candidate_score delim lines
  = Some (Z.of_nat (length (filter (λ ln, strip ln ≠ "") lines)), Z.of_nat k).
Proof.
  clear lower csv_sniff. intros Hsome Hk.
  assert (Forall (λ c, c = k) (field_counts delim lines)) as Hall.
  { rewrite field_counts_eq. apply Forall_fmap, Forall_forall.
    intros ln [Hne Hin]%list_elem_of_filter. simpl. by apply Hk. }
  assert (field_counts delim lines ≠ []) as Hne.
  { intros Hnil. apply field_counts_nil in Hnil.
    apply Exists_exists in Hsome as (ln & Hln & Hnb).
    rewrite Forall_forall in Hnil. by apply Hnb, Hnil. }
  destruct (candidate_score_mode delim lines Hne) as (m & [Hm _] & ->).
  rewrite Forall_forall in Hall. rewrite (Hall m Hm).
  rewrite tally_all_equal by (by apply Forall_forall).
  by rewrite field_counts_eq, length_fmap.
Qed.

(** X7. When every non-blank sampled line splits into the same number
    [k >= 2] of fields on one candidate delimiter, and into a single
    field on each of the other candidates, the sniffer returns that
    delimiter, wherever it stands among the candidates. *)
Theorem sniff_consistent_sample (lines : list string) (d : ascii) (k : nat) :
  d ∈ SNIFF_CANDIDATES →
  (2 ≤ k)%nat →
  Exists (λ ln, strip ln ≠ "") lines →
  (∀ ln, ln ∈ lines → strip ln ≠ "" →
     length (split d (strip ln)) = k
     ∧ ∀ d', d' ∈ SNIFF_CANDIDATES → d' ≠ d → length (split d' (strip ln)) = 1%nat) →
  sniff_delimiter_from_lines lines = d.
Proof.
  clear lower. intros Hd Hk Hsome Hlines.
  set (n := length (filter (λ ln, strip ln ≠ "") lines)).
  assert (candidate_score d lines = Some (Z.of_nat n, Z.of_nat k)) as Hscore_d.
  { apply candidate_score_uniform; [done|]. intros ln Hln Hnb. by apply Hlines. }
  assert (∀ d', d' ∈ SNIFF_CANDIDATES → d' ≠ d →
            candidate_score d' lines = Some (Z.of_nat n, 1)) as Hscore_other.
  { intros d' Hd' Hne. apply (candidate_score_uniform d' lines 1); [done|].
    intros ln Hln Hnb. by apply Hlines. }
  pose proof (sniff_loop_best lines SNIFF_CANDIDATES [] (None, (-1, -1))) as Hloop.
  simpl app in Hloop.
  assert (best_so_far lines [] (None, (-1, -1))) as Hinit
    by (split; [done | constructor]).
  specialize (Hloop Hinit). clear Hinit.
  unfold sniff_delimiter_from_lines.
  destruct (foldl (sniff_step lines) (None, (-1, -1)) SNIFF_CANDIDATES)
    as [[w|] sc] eqn:Hfold; unfold best_so_far in Hloop; simpl in Hloop.
  - destruct Hloop as (pre & post & Hcands & Hw & Hpre & Hpost).
    destruct (decide (w = d)) as [|Hne]; [done|]. exfalso.
    assert (w ∈ SNIFF_CANDIDATES) as Hwin
      by (rewrite Hcands, elem_of_app; right; left).
    rewrite (Hscore_other w Hwin Hne) in Hw. injection Hw as <-.
    rewrite Hcands, elem_of_app, elem_of_cons in Hd.
    rewrite Forall_forall in Hpre. rewrite Forall_forall in Hpost.
    destruct Hd as [Hd|[->|Hd]]; [|done|].
    + specialize (Hpre d Hd _ Hscore_d). unfold score_lt in Hpre. simpl in Hpre. lia.
    + specialize (Hpost d Hd _ Hscore_d) as [Hlt|Heq].
      * unfold score_lt in Hlt. simpl in Hlt. lia.
      * injection Heq as Heq. lia.
  - destruct Hloop as [_ Hnone]. rewrite Forall_forall in Hnone.
    rewrite (Hnone d Hd) in Hscore_d. done.
Qed.

(** ** Chunks *)

Lemma row_at_slice df start k i :
  (i < k)%nat → row_at (slice_frame df start k) i = row_at df (start + i).
Proof.
  clear. intros Hi. unfold row_at, slice_frame. simpl.
  rewrite <- list_fmap_compose. apply list_fmap_ext. intros j c _. simpl.
  by rewrite lookup_take_lt, lookup_drop by done.
Qed.

Lemma rows_slice df start k :
  rows (slice_frame df start k)
  = row_at df <$> seq start (Nat.min k (df_len df - start)).
Proof.
  clear. unfold rows. simpl.
  set (m := Nat.min k (df_len df - start)).
  assert (seq start m = Nat.add start <$> seq 0 m) as ->
    by (rewrite fmap_add_seq; f_equal; lia).
  rewrite <- list_fmap_compose.
  apply list_eq. intros i. rewrite !list_lookup_fmap.
  destruct (seq 0 m !! i) as [j|] eqn:Hj; [|done]. simpl.
  apply lookup_seq in Hj as [-> Hlt]. f_equal. apply row_at_slice. lia.
Qed.

Lemma chunk_starts_cover fuel start k len :
  (1 ≤ k)%nat → (len - start ≤ fuel)%nat →
  concat ((λ s, seq s (Nat.min k (len - s))) <$> chunk_starts fuel start k len)
  = seq start (len - start).
Proof.
  clear. intros Hk. revert start. induction fuel as [|fuel IH]; intros start Hfuel; simpl.
  - by replace (len - start)%nat with 0%nat by lia.
  - destruct (Nat.ltb_spec start len) as [Hlt|Hge]; simpl.
    + rewrite IH by lia.
      destruct (Nat.le_gt_cases k (len - start)) as [Hle|Hgt].
      * rewrite Nat.min_l by done. rewrite <- seq_app. f_equal. lia.
      * rewrite Nat.min_r by lia.
        replace (len - (start + k))%nat with 0%nat by lia. simpl.
        by rewrite app_nil_r.
    + by replace (len - start)%nat with 0%nat by lia.
Qed.

Lemma concat_fmap_fmap {A B C} (f : B → C) (g : A → list B) (l : list A) :
  concat ((λ a, f <$> g a) <$> l) = f <$> concat (g <$> l).
Proof.
  clear. induction l as [|a l IH]; [done|].
  rewrite !fmap_cons. cbn [concat]. by rewrite IH, fmap_app.
Qed.

(** Chunking loses no row and keeps the order of the rows. *)
Lemma rows_chunks_of df k :
  (1 ≤ k)%nat → concat (rows <$> chunks_of df k) = rows df.
Proof.
  clear. intros Hk. unfold chunks_of.
  destruct (df_len df) as [|n] eqn:Hlen.
  - simpl. rewrite app_nil_r, rows_slice, Hlen. unfold rows. rewrite Hlen.
    by rewrite Nat.min_0_r.
  - rewrite <- list_fmap_compose.
    rewrite (list_fmap_ext (rows ∘ (λ start, slice_frame df start k))
               (λ s, row_at df <$> seq s (Nat.min k (df_len df - s))))
      by (intros i s _; apply rows_slice).
    rewrite (concat_fmap_fmap (row_at df) (λ s, seq s (Nat.min k (df_len df - s)))).
    rewrite Hlen, chunk_starts_cover by lia. unfold rows.
    by rewrite Hlen, Nat.sub_0_r.
Qed.

Lemma length_rows df : length (rows df) = df_len df.
Proof. clear. unfold rows. by rewrite length_fmap, length_seq. Qed.

Lemma sum_len_chunks_of df k :
  (1 ≤ k)%nat → sum_list (df_len <$> chunks_of df k) = df_len df.
Proof.
  clear. intros Hk. rewrite <- length_rows, <- (rows_chunks_of df k Hk).
  induction (chunks_of df k) as [|c cs IH]; [done|].
  rewrite !fmap_cons. cbn [concat]. rewrite length_app, length_rows, <- IH. done.
Qed.

Lemma chunks_of_cons df k :
  ∃ c cs, chunks_of df k = c :: cs ∧ columns c = columns df.
Proof.
  clear. assert (∀ s, columns (slice_frame df s k) = columns df) as Hcols.
  { intros s. unfold columns, slice_frame. simpl. by rewrite <- list_fmap_compose. }
  unfold chunks_of. destruct (df_len df) as [|n]; [by eexists _, _|].
  simpl. by eexists _, _.
Qed.

(** ** Files read and written *)

Lemma io_files w r w' : io w = (r, w') → w_files w' = w_files w.
Proof.
  clear. unfold io. destruct (w_faults w) as [|[e|] fs]; by intros [= <- <-].
Qed.

Lemma read_csv_ok p chunksize w reader w' :
  read_csv p chunksize w = (Ok reader, w') →
  1 ≤ chunksize
  ∧ w_files w' = w_files w
  ∧ ∃ f, w_files w !! p = Some f
         ∧ reader = chunks_of (file_frame f) (Z.to_nat chunksize).
Proof.
  clear. unfold read_csv. destruct (Z.ltb_spec chunksize 1) as [Hlt|Hge]; [done|].
  unfold bind, open_file, bind.
  destruct (io w) as [[[]|e] w1] eqn:Hio; [|done]. apply io_files in Hio.
  destruct (w_files w1 !! p) as [f|] eqn:Hp; [|done].
  unfold ret. intros [= <- <-]. rewrite Hio in Hp. split_and!; [done | done |].
  by exists f.
Qed.

Lemma to_csv_ok df path sep header mode w w' :
  to_csv df path sep header mode w = (Ok tt, w') →
  w_files w'
  = <[path := Written sep
        ((match w_files w !! path with
          | Some (Written _ lines) => if bool_decide (mode = "a") then lines else []
          | _ => []
          end)
         ++ (if header then [HeaderLine (columns df)] else [])
         ++ (DataLine <$> rows df))]> (w_files w).
Proof.
  clear. unfold to_csv, bind.
  destruct (io w) as [[[]|e] w1] eqn:Hio; [|done]. apply io_files in Hio.
  intros [= <-]. simpl. by rewrite Hio.
Qed.

(** The chunks of [normalize_one] after the first one only add rows. *)
Lemma normalize_rest dst to_delim header cs idx lines w st' w' :
  idx ≠ 0%nat →
  w_files w !! dst = Some (Written to_delim lines) →
  foldM (λ '(mode, idx) chunk,
           let* _ := to_csv chunk dst to_delim
                       (header && bool_decide (idx = 0%nat)) mode in
           ret ("a", S idx))
        ("a", idx) cs w = (Ok st', w') →
  w_files w' !! dst
  = Some (Written to_delim (lines ++ (DataLine <$> concat (rows <$> cs))))
  ∧ ∀ p, p ≠ dst → w_files w' !! p = w_files w !! p.
Proof.
  clear. revert idx lines w. induction cs as [|c cs IH]; intros idx lines w Hidx Hdst; simpl.
  - intros [= <- <-]. rewrite app_nil_r. done.
  - unfold bind at 1. unfold bind at 1.
    destruct (to_csv c dst to_delim (header && bool_decide (idx = 0%nat)) "a" w)
      as [[[]|e] w1] eqn:Hcsv; [|done].
    apply to_csv_ok in Hcsv. unfold ret. intros Hrest.
    rewrite Hdst in Hcsv.
    rewrite (bool_decide_eq_false_2 (idx = 0%nat)) in Hcsv by done.
    rewrite andb_false_r in Hcsv. simpl in Hcsv.
    apply (IH (S idx) (lines ++ (DataLine <$> rows c))) in Hrest as [Hfile Hother];
      [|done|by rewrite Hcsv, lookup_insert_eq].
    split.
    + rewrite Hfile, fmap_app, app_assoc. done.
    + intros p Hp. rewrite Hother, Hcsv, lookup_insert_ne by done. done.
Qed.

(** X8. When [normalize_one] succeeds on a source that is not its own
    destination, the copy it returns is named after the source inside
    the target directory and holds the column
    labels of the source once, as its first line when the header is
    asked for, followed by every row of the source in order, whatever the
    number of chunks; no other file is touched. *)
Theorem normalize_one_copy (src target_dir : Path) (from_delim to_delim : ascii)
    (header : bool) (w w' : world) (dst : Path) :
  src ≠ target_dir +:+ "/" +:+ path_name src →
  normalize_one src target_dir from_delim to_delim header w = (Ok dst, w') →
  dst = target_dir +:+ "/" +:+ path_name src
  ∧ ∃ f, w_files w !! src = Some f
         ∧ w_files w' !! dst
           = Some (Written to_delim
                     ((if header then [HeaderLine (columns (file_frame f))] else [])
                      ++ (DataLine <$> rows (file_frame f))))
         ∧ ∀ p, p ≠ dst → w_files w' !! p = w_files w !! p.
Proof.
  clear. intros _. unfold normalize_one. unfold bind at 1.
  destruct (read_csv src 200000 w) as [[reader|e] w1] eqn:Hread; [|done].
  apply read_csv_ok in Hread as (_ & Hfiles1 & f & Hf & ->).
  unfold bind at 1.
  set (target := target_dir +:+ "/" +:+ path_name src).
  match goal with
  | |- context [foldM ?g ?s ?l w1] =>
      destruct (foldM g s l w1) as [[st|e] w2] eqn:Hloop; [|done]
  end.
  unfold ret. intros [= <- <-]. split; [done|]. exists f. split; [done|].
  destruct (chunks_of_cons (file_frame f) (Z.to_nat 200000)) as (c & cs & Hcs & Hcols).
  pose proof (rows_chunks_of (file_frame f) (Z.to_nat 200000)) as Hrows.
  rewrite Hcs in Hloop, Hrows. simpl in Hloop.
  unfold bind at 1 in Hloop. unfold bind at 1 in Hloop. revert Hloop.
  match goal with
  | |- context [to_csv c target to_delim ?h "w" w1] =>
      destruct (to_csv c target to_delim h "w" w1) as [[[]|e] w1'] eqn:Hcsv; [|done]
  end.
  intros Hloop. apply to_csv_ok in Hcsv. unfold ret in Hloop.
  assert (w_files w1' !! target
          = Some (Written to_delim
                    ((if header then [HeaderLine (columns (file_frame f))] else [])
                     ++ (DataLine <$> rows c)))) as Hfirst.
  { rewrite Hcsv, lookup_insert_eq, Hcols.
    destruct header; repeat case_match; done. }
  apply (normalize_rest target to_delim header cs 1 _ _ _ _ ltac:(lia) Hfirst)
    in Hloop as [Hfile Hother].
  split.
  - rewrite Hfile, <- Hrows by lia. rewrite fmap_cons. cbn [concat].
    by rewrite fmap_app, app_assoc.
  - intros p Hp. rewrite Hother, Hcsv, lookup_insert_ne, Hfiles1 by done. done.
Qed.

(** ** The frame written for a chunk *)

Lemma getitem_cols_total (cols : list (string * list cell)) labels :
  Forall (λ l, l ∈ cols.*1) labels → ∃ sel, getitem_cols cols labels = Ok sel.
Proof.
  clear. induction 1 as [|l labels Hl _ [sel IH]]; simpl; [by eexists|].
  rewrite IH.
  destruct (List.filter (λ c, bool_decide (c.1 = l)) cols) as [|h hit] eqn:Hf;
    [|by eexists].
  apply list_elem_of_fmap in Hl as (c & -> & Hc).
  assert (c ∈ List.filter (λ c0, bool_decide (c0.1 = c.1)) cols) as Hin.
  { apply list_elem_of_In, filter_In. split; [by apply list_elem_of_In|].
    by apply bool_decide_eq_true_2. }
  rewrite Hf in Hin. by apply elem_of_nil in Hin.
Qed.

Lemma getitem_total df labels :
  Forall (λ l, l ∈ columns df) labels → ∃ df', getitem df labels = Ok df'.
Proof.
  clear. intros Hall. unfold getitem.
  destruct (getitem_cols_total (df_cols df) labels Hall) as [sel ->]. by eexists.
Qed.

Lemma getitem_columns_iff df labels df' l :
  getitem df labels = Ok df' → l ∈ columns df' ↔ l ∈ labels.
Proof.
  clear. unfold getitem. destruct (getitem_cols _ _) as [sel|] eqn:Hsel; [|done].
  intros [= <-]. apply getitem_cols_sub in Hsel as [Hsub Hlab]. split; [|apply Hlab].
  intros (c & -> & Hc)%list_elem_of_fmap. by apply Hsub.
Qed.

Lemma select_requested_ok chunk schema_cols read_cols missing_policy :
  ∃ df, select_requested chunk schema_cols read_cols missing_policy = Ok df
        ∧ df_len df = df_len chunk.
Proof.
  clear. unfold select_requested.
  destruct (getitem_total chunk
              (List.filter (λ c, bool_decide (c ∈ columns chunk)) read_cols))
    as [df0 Hget].
  { apply Forall_forall. intros c Hc.
    apply list_elem_of_In, filter_In in Hc as [_ Hc]. by apply bool_decide_eq_true in Hc. }
  rewrite Hget. eexists. split; [reflexivity|]. simpl.
  apply getitem_len in Hget. rewrite <- Hget.
  case_bool_decide; [|done].
  by destruct (fillna_loop_spec chunk (zip schema_cols read_cols) df0) as [-> _].
Qed.

(** The frame of a chunk before the source column is added. *)
Lemma shape_without_source chunk p schema_cols columns_mode read_cols missing_policy
    source_col_name source_mode :
  ∃ df, shape_chunk chunk p schema_cols columns_mode read_cols missing_policy
          false source_col_name source_mode = Ok df
        ∧ df_len df = df_len chunk
        ∧ ∀ l, l ∈ columns df ↔ l ∈ schema_cols.
Proof.
  clear strip csv_sniff. unfold shape_chunk.
  assert (∀ df0, df_len df0 = df_len chunk →
            ∃ df, getitem (fill_absent df0 schema_cols) schema_cols = Ok df
                  ∧ df_len df = df_len chunk
                  ∧ ∀ l, l ∈ columns df ↔ l ∈ schema_cols) as Hproject.
  { intros df0 Hlen0.
    destruct (fill_absent_spec df0 schema_cols "") as (Hlen & _ & Hcols).
    destruct (getitem_total (fill_absent df0 schema_cols) schema_cols) as [df Hget].
    { by apply Forall_forall. }
    exists df. split_and!; [done | |].
    - rewrite (getitem_len _ _ _ Hget). congruence.
    - intros l. by eapply getitem_columns_iff. }
  destruct columns_mode.
  - destruct (select_requested_ok chunk schema_cols read_cols missing_policy)
      as (df0 & -> & Hlen0).
    destruct (Hproject df0 Hlen0) as (df & -> & ?). by exists df.
  - destruct (Hproject chunk eq_refl) as (df & -> & ?). by exists df.
Qed.

Lemma fill_absent_cols df schema_cols :
  fill_absent df schema_cols
  = mkDataFrame (df_len df)
      (df_cols df
       ++ ((λ c, (c, replicate (df_len df) NA))
             <$> first_seen (list_to_set (columns df)) schema_cols)).
Proof.
  clear. unfold fill_absent. revert df.
  induction schema_cols as [|c cs IH]; intros df; simpl.
  - rewrite app_nil_r. by destruct df.
  - destruct (decide (c ∈ columns df)) as [Hc|Hc].
    + rewrite !bool_decide_eq_false_2; [apply IH | | by intros Hn].
      rewrite elem_of_list_to_set. by intros Hn.
    + rewrite !bool_decide_eq_true_2; [|by rewrite elem_of_list_to_set|done].
      rewrite IH. unfold setitem_NA. rewrite bool_decide_eq_false_2 by done. simpl.
      rewrite <- app_assoc. simpl. do 3 f_equal.
      unfold columns. simpl. rewrite fmap_app, list_to_set_app_L. simpl.
      replace (list_to_set (df_cols df).*1 ∪ ({[c]} ∪ ∅) : gset string)
        with ({[c]} ∪ list_to_set (df_cols df).*1 : gset string) by set_solver.
      done.
Qed.

Lemma schema_mode_labels chunk schema_cols df :
  NoDup (columns chunk) →
  getitem (fill_absent chunk schema_cols) schema_cols = Ok df →
  columns df = schema_cols.
Proof.
  clear. intros Hnd. rewrite fill_absent_cols. unfold getitem. simpl.
  set (added := first_seen (list_to_set (columns chunk)) schema_cols).
  set (cols := df_cols chunk ++ _).
  assert (cols.*1 = columns chunk ++ added) as Hlabels.
  { unfold cols. rewrite fmap_app, <- list_fmap_compose. f_equal.
    by rewrite (list_fmap_ext _ id added) , list_fmap_id by done. }
  assert (NoDup cols.*1) as Hcols_nd.
  { rewrite Hlabels. apply NoDup_app. split_and!; [done | | apply NoDup_first_seen].
    intros l Hl Hadded. apply elem_of_first_seen in Hadded as [_ Hnot].
    apply Hnot. by apply elem_of_list_to_set. }
  assert (Forall (λ l, l ∈ cols.*1) schema_cols) as Hall.
  { apply Forall_forall. intros l Hl. rewrite Hlabels, elem_of_app.
    destruct (decide (l ∈ columns chunk)) as [|Hn]; [by left|right].
    apply elem_of_first_seen. split; [done|]. by rewrite elem_of_list_to_set. }
  destruct (getitem_cols_labels cols schema_cols Hcols_nd Hall) as (sel & -> & Hsel).
  by intros [= <-].
Qed.

Lemma source_labels df source_col_name value schema_cols df2 :
  NoDup schema_cols →
  source_col_name ∉ schema_cols →
  columns df = schema_cols →
  getitem (mkDataFrame (df_len df)
             ((source_col_name, replicate (df_len df) (Some value)) :: df_cols df))
          (source_col_name :: schema_cols) = Ok df2 →
  columns df2 = source_col_name :: schema_cols.
Proof.
  clear. intros Hnd Hname Hcols. unfold getitem.
  change (df_cols (mkDataFrame (df_len df)
            ((source_col_name, replicate (df_len df) (Some value)) :: df_cols df)))
    with ((source_col_name, replicate (df_len df) (Some value)) :: df_cols df).
  set (cols := (source_col_name, replicate (df_len df) (Some value)) :: df_cols df).
  assert (cols.*1 = source_col_name :: schema_cols) as Hlabels
    by (unfold cols; rewrite fmap_cons; simpl; by f_equal).
  destruct (getitem_cols_labels cols (source_col_name :: schema_cols))
    as (sel & Hsel & Hsel1).
  { unfold cell. rewrite Hlabels. by apply NoDup_cons. }
  { unfold cell. rewrite Hlabels. by apply Forall_forall. }
  rewrite Hsel. by intros [= <-].
Qed.

(** X9. The shaping of a chunk never fails on a missing column: it fails
    exactly when the source column is to be added and its name is
    already a column of the schema, with the already-exists error of the
    insertion; otherwise it yields a frame with as many rows as the chunk
    in which a label occurs exactly when it is an output column (the
    source column name, when added, or a schema column).  In schema mode,
    when the labels of the chunk are distinct and, if the source column
    is added, the schema repeats no name, the labels of the frame are the
    output columns themselves, in their order; a name that is repeated
    can occur more often in the frame than among the output columns. *)
Theorem shape_chunk_failure (chunk : DataFrame) (p : Path) (schema_cols : list string)
    (columns_mode : bool) (read_cols : list string) (missing_policy : option string)
    (add_source_col : bool) (source_col_name source_mode : string) :
  let shaped :=
    shape_chunk chunk p schema_cols columns_mode read_cols missing_policy
      add_source_col source_col_name source_mode in
  let out_cols :=
    if add_source_col then source_col_name :: schema_cols else schema_cols in
  if bool_decide (add_source_col = true ∧ source_col_name ∈ schema_cols)
  then shaped = Raise (ValueError (AlreadyExists source_col_name))
  else ∃ df, shaped = Ok df
             ∧ df_len df = df_len chunk
             ∧ (∀ l, l ∈ columns df ↔ l ∈ out_cols)
             ∧ (columns_mode = false → NoDup (columns chunk) →
                (add_source_col = true → NoDup schema_cols) →
                columns df = out_cols).
Proof.
  clear strip csv_sniff. intros shaped out_cols.
  destruct (shape_without_source chunk p schema_cols columns_mode read_cols
              missing_policy source_col_name source_mode)
    as (df & Hshape & Hlen & Hcols).
  assert (columns_mode = false → NoDup (columns chunk) → columns df = schema_cols)
    as Hexact.
  { intros Hmode Hnd. rewrite Hmode in Hshape. unfold shape_chunk in Hshape.
    destruct (getitem (fill_absent chunk schema_cols) schema_cols)
      as [df'|e] eqn:Hget; [|done].
    injection Hshape as ->. by eapply schema_mode_labels. }
  unfold shaped, out_cols. clear shaped out_cols. unfold shape_chunk in *.
  destruct add_source_col.
  2: { rewrite bool_decide_eq_false_2 by (by intros [? _]). exists df.
       split_and!; [done | done | done |]. intros Hmode Hnd _. by apply Hexact. }
  destruct (if columns_mode then _ else _) as [df0|e]; [|done].
  injection Hshape as ->. unfold insert0.
  case_bool_decide as Hcase.
  - destruct Hcase as [_ Hin]. by rewrite bool_decide_eq_true_2 by (by apply Hcols).
  - assert (source_col_name ∉ schema_cols) as Hnotin by (intros ?; by apply Hcase).
    rewrite bool_decide_eq_false_2 by (by rewrite Hcols).
    set (df1 := mkDataFrame _ _).
    destruct (getitem_total df1 (source_col_name :: schema_cols)) as [df2 Hget].
    { apply Forall_forall. intros l Hl. unfold df1, columns. simpl.
      apply elem_of_cons in Hl as [->|Hl]; [left | right; by apply Hcols]. }
    rewrite Hget. exists df2. split_and!; [done | | |].
    + by rewrite (getitem_len _ _ _ Hget).
    + intros l. by eapply getitem_columns_iff.
    + intros Hmode Hnd Hschema.
      eapply (source_labels df); [by apply Hschema | done | by apply Hexact | exact Hget].
Qed.

(** X10. In reconciled mode, without the source column, a chunk whose
    column labels are distinct is written as the schema's columns in
    schema order: each schema column holds the chunk's values for that
    label, or nulls in every row when the chunk has no such column. *)
Theorem reconciled_projection (chunk : DataFrame) (p : Path) (schema_cols : list string)
    (read_cols : list string) (missing_policy : option string)
    (source_col_name source_mode : string) :
  NoDup (columns chunk) →
  shape_chunk chunk p schema_cols false read_cols missing_policy
    false source_col_name source_mode
  = Ok (mkDataFrame (df_len chunk) ((λ l, (l, column_of chunk l)) <$> schema_cols)).
Proof.
  clear strip csv_sniff. intros Hnd. unfold shape_chunk.
  rewrite fill_absent_cols. unfold getitem. simpl.
  set (added := first_seen (list_to_set (columns chunk)) schema_cols).
  set (cols := df_cols chunk ++ _).
  assert (cols.*1 = columns chunk ++ added) as Hlabels.
  { unfold cols. rewrite fmap_app, <- list_fmap_compose. f_equal.
    by rewrite (list_fmap_ext _ id added) , list_fmap_id by done. }
  assert (NoDup cols.*1) as Hcols_nd.
  { rewrite Hlabels. apply NoDup_app. split_and!; [done | | apply NoDup_first_seen].
    intros l Hl Hadded. apply elem_of_first_seen in Hadded as [_ Hnot].
    apply Hnot. by apply elem_of_list_to_set. }
  assert (Forall (λ l, l ∈ cols.*1) schema_cols) as Hall.
  { apply Forall_forall. intros l Hl. rewrite Hlabels, elem_of_app.
    destruct (decide (l ∈ columns chunk)) as [|Hn]; [by left|right].
    apply elem_of_first_seen. split; [done|]. by rewrite elem_of_list_to_set. }
  destruct (getitem_cols_labels cols schema_cols Hcols_nd Hall) as (sel & Hsel & Hsel1).
  rewrite Hsel. do 2 f_equal.
  apply getitem_cols_sub in Hsel as [Hsub _].
  apply list_eq. intros i. rewrite list_lookup_fmap.
  assert (sel.*1 !! i = schema_cols !! i) as Hi by (by rewrite Hsel1).
  rewrite list_lookup_fmap in Hi.
  destruct (sel !! i) as [[l v]|] eqn:Hsi; simpl in Hi; rewrite <- Hi; simpl; [|done].
  f_equal. f_equal.
  destruct (Hsub (l, v)) as [Hin _]; [by eapply list_elem_of_lookup_2|].
  unfold cols in Hin. apply elem_of_app in Hin as [Hin|Hin]; unfold column_of.
  - by rewrite (elem_of_list_to_map_1 (M := gmap string) _ _ _ Hnd Hin).
  - apply list_elem_of_fmap in Hin as (c & [= -> ->] & Hc).
    apply elem_of_first_seen in Hc as [_ Hnot]. rewrite elem_of_list_to_set in Hnot.
    by rewrite (not_elem_of_list_to_map_1 (M := gmap string)).
Qed.

Lemma filter_label_none (xs : list (string * list cell)) l :
  (∀ c, c ∈ xs → c.1 ≠ l) → List.filter (λ c, bool_decide (c.1 = l)) xs = [].
Proof.
  clear. induction xs as [|x xs IH]; intros Hxs; simpl; [done|].
  rewrite bool_decide_eq_false_2 by (apply Hxs; left).
  apply IH. intros c Hc. apply Hxs. by right.
Qed.

Lemma getitem_cols_drop_prefix (xs cols : list (string * list cell)) labels :
  (∀ c, c ∈ xs → c.1 ∉ labels) →
  getitem_cols (xs ++ cols) labels = getitem_cols cols labels.
Proof.
  clear. intros Hxs. induction labels as [|l labels IH]; simpl; [done|].
  rewrite List.filter_app, filter_label_none.
  - simpl. rewrite IH; [done|]. intros c Hc Hin. apply (Hxs c Hc). by right.
  - intros c Hc Heq. apply (Hxs c Hc). rewrite Heq. left.
Qed.

Lemma getitem_cols_skip (c : string * list cell) cols labels :
  c.1 ∉ labels → getitem_cols (c :: cols) labels = getitem_cols cols labels.
Proof.
  clear. intros Hc. apply (getitem_cols_drop_prefix [c]).
  by intros c' ->%list_elem_of_singleton.
Qed.

Lemma getitem_cols_idem (cols : list (string * list cell)) labels sel :
  NoDup labels → getitem_cols cols labels = Ok sel → getitem_cols sel labels = Ok sel.
Proof.
  clear. intros Hnd. revert sel. induction Hnd as [|l labels Hl Hnd IH]; intros sel; simpl.
  - by intros [= <-].
  - destruct (List.filter _ cols) as [|h hit] eqn:Hf; [done|].
    destruct (getitem_cols cols labels) as [more|e] eqn:Hmore; [|done].
    intros [= <-].
    assert (∀ c, c ∈ h :: hit → c.1 = l) as Hhit.
    { intros c Hc. rewrite <- Hf in Hc.
      apply list_elem_of_In, filter_In in Hc as [_ Hc]. by apply bool_decide_eq_true in Hc. }
    pose proof (getitem_cols_sub _ _ _ Hmore) as [Hsub _].
    rewrite app_comm_cons, List.filter_app.
    rewrite (filter_label_none more)
      by (intros c Hc Heq; apply Hl; rewrite <- Heq; by apply Hsub).
    rewrite app_nil_r.
    assert (List.filter (λ c, bool_decide (c.1 = l)) (h :: hit) = h :: hit) as ->.
    { apply filter_all_true, Forall_forall. intros c Hc.
      apply bool_decide_eq_true_2. by apply Hhit. }
    rewrite getitem_cols_drop_prefix.
    + by rewrite (IH more eq_refl).
    + intros c Hc Hin. rewrite (Hhit c Hc) in Hin. done.
Qed.

(** X11. When the schema repeats no name and does not hold the source
    column's name, adding the source column puts one column in front of
    the frame shaped without it: it is labelled with the source column's
    name and holds the value derived from the file's path in every row;
    the other columns are unchanged. *)
Theorem source_column_prepended (chunk : DataFrame) (p : Path)
    (schema_cols : list string) (columns_mode : bool) (read_cols : list string)
    (missing_policy : option string) (source_col_name source_mode : string)
    (df : DataFrame) :
  NoDup schema_cols →
  source_col_name ∉ schema_cols →
  shape_chunk chunk p schema_cols columns_mode read_cols missing_policy
    false source_col_name source_mode = Ok df →
  shape_chunk chunk p schema_cols columns_mode read_cols missing_policy
    true source_col_name source_mode
  = Ok (mkDataFrame (df_len df)
          ((source_col_name,
            replicate (df_len df) (Some (source_value_for p source_mode)))
           :: df_cols df)).
Proof.
  clear strip csv_sniff. intros Hnd Hname. unfold shape_chunk.
  assert (∀ df0, getitem df0 schema_cols = Ok df →
            match insert0 df source_col_name (source_value_for p source_mode) with
            | Raise e => Raise e
            | Ok df1 => getitem df1 (source_col_name :: schema_cols)
            end
            = Ok (mkDataFrame (df_len df)
                    ((source_col_name,
                      replicate (df_len df) (Some (source_value_for p source_mode)))
                     :: df_cols df))) as Hgen.
  { intros df0 Hget.
    assert (source_col_name ∉ columns df) as Hnotin
      by (by rewrite (getitem_columns_iff _ _ _ _ Hget)).
    unfold insert0. rewrite bool_decide_eq_false_2 by done.
    unfold getitem in *. simpl.
    destruct (getitem_cols (df_cols df0) schema_cols) as [sel|] eqn:Hsel; [|done].
    injection Hget as <-. simpl in *.
    rewrite bool_decide_eq_true_2 by done. simpl.
    rewrite (filter_label_none sel).
    2: { intros c Hc Heq. apply Hnotin. apply list_elem_of_fmap. by exists c. }
    rewrite getitem_cols_skip by done.
    by rewrite (getitem_cols_idem _ _ _ Hnd Hsel). }
  destruct columns_mode.
  - destruct (select_requested _ _ _ _) as [df0|e]; [|done].
    destruct (getitem _ schema_cols) as [df'|e] eqn:Hget; [|done].
    intros [= ->]. by eapply Hgen.
  - destruct (getitem _ schema_cols) as [df'|e] eqn:Hget; [|done].
    intros [= ->]. by eapply Hgen.
Qed.

(** ** The rows written by the merge *)

Lemma data_count_app l1 l2 : data_count (l1 ++ l2) = (data_count l1 + data_count l2)%nat.
Proof. clear. unfold data_count. by rewrite omap_app, length_app. Qed.

Lemma data_count_rows (rs : list (list cell)) : data_count (DataLine <$> rs) = length rs.
Proof.
  clear. unfold data_count. f_equal.
  induction rs as [|r rs IH]; [done|].
  rewrite fmap_cons. cbn [omap list_omap data_cells]. by f_equal.
Qed.

Lemma data_count_header header names :
  data_count (if header : bool then [HeaderLine names] else []) = 0%nat.
Proof. clear. by destruct header. Qed.

Lemma shape_chunk_len chunk p schema_cols columns_mode read_cols missing_policy
    add_source_col source_col_name source_mode df :
  shape_chunk chunk p schema_cols columns_mode read_cols missing_policy
    add_source_col source_col_name source_mode = Ok df →
  df_len df = df_len chunk.
Proof.
  clear strip csv_sniff.
  destruct (shape_without_source chunk p schema_cols columns_mode read_cols
              missing_policy source_col_name source_mode) as (df0 & H0 & Hlen0 & _).
  unfold shape_chunk in *.
  destruct (if columns_mode then _ else _) as [df1|e]; [|done].
  injection H0 as ->.
  destruct add_source_col; [|by intros [= <-]].
  unfold insert0. case_bool_decide; [done|].
  intros Hget. by rewrite (getitem_len _ _ _ Hget).
Qed.

Lemma chunk_loop_rows (shape : DataFrame → result DataFrame)
    out_path out_delim write_header reader st w st' w' :
  (∀ chunk df, shape chunk = Ok df → df_len df = df_len chunk) →
  merge_inv out_path st w →
  foldM (λ '(mode, total_rows) chunk,
           let* df := lift (shape chunk) in
           let* _ := to_csv df out_path out_delim
                       (write_header && bool_decide (total_rows = 0%nat)) mode in
           ret ("a", (total_rows + df_len df)%nat))
        st reader w = (Ok st', w') →
  merge_inv out_path st' w'
  ∧ st'.2 = (st.2 + sum_list (df_len <$> reader))%nat
  ∧ (reader ≠ [] ∨ st.1 = "a" → st'.1 = "a")
  ∧ ∀ p, p ≠ out_path → w_files w' !! p = w_files w !! p.
Proof.
  clear. intros Hshape. revert st w.
  induction reader as [|chunk reader IH]; intros [mode total] w Hinv.
  - intros [= <- <-]. split_and!; [done | simpl; lia | by intros [|] | done].
  - cbn [foldM]. unfold bind at 1. unfold bind at 1. unfold lift.
    destruct (shape chunk) as [df|e] eqn:Hdf; [|done].
    unfold bind at 1.
    destruct (to_csv df out_path out_delim _ mode w) as [[[]|e] w1] eqn:Hcsv;
      [|done].
    apply to_csv_ok in Hcsv. unfold ret. intros Hrest.
    apply Hshape in Hdf.
    assert (merge_inv out_path ("a", (total + df_len df)%nat) w1) as Hinv1.
    { right. split; [done|]. eexists _, _. rewrite Hcsv, lookup_insert_eq.
      split; [reflexivity|].
      rewrite !data_count_app, data_count_header, data_count_rows, length_rows.
      destruct Hinv as [[Hm Ht]|[Hm (sep & lines & Hout & Hcount)]]; simpl in *.
      - subst. by destruct (w_files w !! out_path) as [[]|].
      - subst. rewrite Hout. simpl. lia. }
    destruct (IH _ _ Hinv1 Hrest) as (Hinv' & Htotal & Hmode & Hother).
    split_and!; [done | | | ].
    + change (sum_list (df_len <$> chunk :: reader))
        with (df_len chunk + sum_list (df_len <$> reader))%nat.
      simpl in Htotal |- *. lia.
    + intros _. apply Hmode. by right.
    + intros p Hp. rewrite Hother, Hcsv by done. by rewrite lookup_insert_ne.
Qed.

Lemma merge_inv_files out_path st w w1 :
  w_files w1 = w_files w → merge_inv out_path st w → merge_inv out_path st w1.
Proof. clear. unfold merge_inv. by intros ->. Qed.

Lemma Forall2_files_other (m m' : gmap Path file) out_path paths files :
  out_path ∉ paths →
  (∀ p, p ≠ out_path → m' !! p = m !! p) →
  Forall2 (λ p f, m' !! p = Some f) paths files →
  Forall2 (λ p f, m !! p = Some f) paths files.
Proof.
  clear. intros Hout Hsame Hall. induction Hall as [|p f paths files Hp Hall IH];
    [constructor|].
  apply not_elem_of_cons in Hout as [Hne Hout].
  constructor; [by rewrite <- Hsame | by apply IH].
Qed.

Lemma merge_loop_rows (per_file_delim : gmap Path ascii) schema_cols out_path out_delim chunksize
    write_header (columns_mode : bool)
    (per_file_header_maps : option (gmap Path (gmap string string)))
    missing_policy add_source_col source_col_name source_mode paths st w st' w' :
  out_path ∉ paths →
  merge_inv out_path st w →
  foldM (λ '(mode, total_rows) p,
      let* sep := lift (match per_file_delim !! p with
                        | Some sep => Ok sep
                        | None => Raise (KeyError p)
                        end) in
      let* read_cols :=
        lift (if columns_mode then
                match per_file_header_maps with
                | None => Raise TypeError
                | Some maps =>
                    match maps !! p with
                    | Some header_map => Ok (read_cols_of header_map schema_cols)
                    | None => Raise (KeyError p)
                    end
                end
              else Ok []) in
      let* reader := read_csv p chunksize in
      foldM (λ '(mode, total_rows) chunk,
        let* df := lift (shape_chunk chunk p schema_cols columns_mode read_cols
                           missing_policy add_source_col source_col_name source_mode) in
        let* _ := to_csv df out_path out_delim
                    (write_header && bool_decide (total_rows = 0%nat)) mode in
        ret ("a", (total_rows + df_len df)%nat))
        (mode, total_rows) reader)
    st paths w = (Ok st', w') →
  ∃ files,
    Forall2 (λ p f, w_files w !! p = Some f) paths files
    ∧ merge_inv out_path st' w'
    ∧ st'.2 = (st.2 + sum_list ((λ f, df_len (file_frame f)) <$> files))%nat
    ∧ (paths ≠ [] ∨ st.1 = "a" → st'.1 = "a")
    ∧ ∀ p, p ≠ out_path → w_files w' !! p = w_files w !! p.
Proof.
  clear strip csv_sniff. revert st w.
  induction paths as [|p paths IH]; intros [mode total] w Hout Hinv.
  - intros [= <- <-]. exists []. split_and!; [done | done | simpl; lia | by intros [|] | done].
  - apply not_elem_of_cons in Hout as [Hp Hout].
    cbn [foldM]. unfold bind at 1. unfold bind at 1. unfold lift at 1.
    destruct (per_file_delim !! p) as [sep|]; [|done].
    unfold bind at 1. unfold lift at 1.
    destruct (if columns_mode then _ else _) as [read_cols|e]; [|done].
    unfold bind at 1.
    destruct (read_csv p chunksize w) as [[reader|e] w1] eqn:Hread; [|done].
    apply read_csv_ok in Hread as (Hk & Hfiles & f & Hf & ->).
    match goal with
    | |- context [foldM ?body (mode, total) (chunks_of ?df ?k) w1] =>
        destruct (foldM body (mode, total) (chunks_of df k) w1)
          as [[st1|e] w2] eqn:Hchunks; [|done]
    end.
    apply chunk_loop_rows in Hchunks as (Hinv1 & Htotal1 & Hmode1 & Hother1);
      [| by intros chunk df; apply shape_chunk_len
       | by apply (merge_inv_files _ _ w) ].
    intros Hrest.
    destruct (IH _ _ Hout Hinv1 Hrest) as (files & Hall & Hinv' & Htotal & Hmode & Hother).
    exists (f :: files). split_and!.
    + constructor; [done|].
      apply (Forall2_files_other _ (w_files w2) out_path); [done | | done].
      intros q Hq. by rewrite Hother1, Hfiles.
    + done.
    + change (sum_list ((λ f, df_len (file_frame f)) <$> f :: files))
        with (df_len (file_frame f)
              + sum_list ((λ f, df_len (file_frame f)) <$> files))%nat.
      rewrite Htotal, Htotal1, sum_len_chunks_of by lia. simpl. lia.
    + intros _. apply Hmode. right. apply Hmode1. left.
      by destruct (chunks_of_cons (file_frame f) (Z.to_nat chunksize))
        as (c & cs & -> & _).
    + intros q Hq. by rewrite Hother, Hother1, Hfiles.
Qed.

(** X12 (combine_files): a merge that succeeds on at least one input
    file, none of which is the output path, leaves every other file as
    it was, and the output file then holds exactly as many data lines as
    the frames of the input files have rows together. *)
Theorem combine_files_row_total paths per_file_delim schema_cols out_path out_delim
    chunksize write_header columns_mode per_file_header_maps missing_policy
    add_source_col source_col_name source_mode w w' :
  paths ≠ [] →
  out_path ∉ paths →
  combine_files paths per_file_delim schema_cols out_path out_delim chunksize
    write_header columns_mode per_file_header_maps missing_policy
    add_source_col source_col_name source_mode w = (Ok tt, w') →
  ∃ files sep lines,
    Forall2 (λ p f, w_files w !! p = Some f) paths files
    ∧ w_files w' !! out_path = Some (Written sep lines)
    ∧ data_count lines = sum_list ((λ f, df_len (file_frame f)) <$> files)
    ∧ ∀ p, p ≠ out_path → w_files w' !! p = w_files w !! p.
Proof.
  clear strip csv_sniff. intros Hne Hout. unfold combine_files.
  unfold bind at 1.
  match goal with
  | |- context [foldM ?body ("w", 0%nat) paths w] =>
      destruct (foldM body ("w", 0%nat) paths w) as [[st'|e] w1] eqn:Hloop; [|done]
  end.
  unfold ret. intros [= <-].
  apply merge_loop_rows in Hloop
    as (files & Hall & Hinv & Htotal & Hmode & Hother); [| done | by left ].
  destruct Hinv as [[Hm _]|[_ (sep & lines & Hfile & Hcount)]].
  { rewrite Hmode in Hm by (by left). done. }
  exists files, sep, lines. split_and!; [done | done | | done].
  by rewrite Hcount, Htotal.
Qed.

(** ** The files a run leaves alone *)

Section Spares.

Variable S : Path → Prop.

Lemma spares_ret {A} (a : A) : spares S (ret a).
Proof. by intros w r w' [= <- <-]. Qed.

Lemma spares_raise {A} e : spares S (raise (A := A) e).
Proof. by intros w r w' [= <- <-]. Qed.

Lemma spares_lift {A} (x : result A) : spares S (lift x).
Proof. by intros w r w' [= <- <-]. Qed.

Lemma spares_bind {A B} (m : M A) (k : A → M B) :
  spares S m → (∀ a, spares S (k a)) → spares S (bind m k).
Proof.
  intros Hm Hk w r w'. unfold bind.
  destruct (m w) as [[a|e] w1] eqn:Hmw.
  - intros Hkw. destruct (Hm _ _ _ Hmw) as (Hn1 & Ht1 & Hf1).
    destruct (Hk _ _ _ _ Hkw) as (Hn2 & Ht2 & Hf2).
    split_and!; [congruence | congruence |].
    intros p Hp. by rewrite Hf2, Hf1.
  - intros [= <- <-]. by eapply Hm.
Qed.

Lemma spares_foldM {A St} (f : St → A → M St) s l :
  (∀ s a, spares S (f s a)) → spares S (foldM f s l).
Proof.
  intros Hf. revert s. induction l as [|a l IH]; intros s; simpl.
  - apply spares_ret.
  - apply spares_bind; [apply Hf | intros s'; apply IH].
Qed.

Lemma spares_mapM_ {A B} (f : A → M B) l :
  (∀ a, spares S (f a)) → spares S (mapM_ f l).
Proof.
  intros Hf. induction l as [|a l IH]; simpl.
  - apply spares_ret.
  - apply spares_bind; [apply Hf | intros b].
    apply spares_bind; [apply IH | intros bs; apply spares_ret].
Qed.

Lemma spares_io : spares S io.
Proof.
  intros w r w'. unfold io.
  destruct (w_faults w) as [|[e|] fs]; by intros [= <- <-].
Qed.

Lemma spares_submit {A} (task : M A) : spares S task → spares S (submit task).
Proof.
  intros Ht w r w'. unfold submit.
  destruct (task w) as [r0 w0] eqn:Htask. intros [= <- <-]. by eapply Ht.
Qed.

Lemma spares_open_file p : spares S (open_file p).
Proof.
  unfold open_file. apply spares_bind; [apply spares_io | intros _].
  intros w r w'. by destruct (w_files w !! p); intros [= <- <-].
Qed.

Lemma spares_to_csv df path sep header mode :
  ¬ S path → spares S (to_csv df path sep header mode).
Proof.
  intros Hpath. unfold to_csv. apply spares_bind; [apply spares_io | intros _].
  intros w r w' [= <- <-]. split_and!; [done | done |].
  intros p Hp. simpl. apply lookup_insert_ne. by intros ->.
Qed.

(** Closes a goal [spares S m] by following the structure of [m]. *)
Ltac spares_steps :=
  repeat first
    [ progress cbv beta
    | match goal with
      | |- spares _ (match ?x with _ => _ end) => destruct x
      | |- spares _ ((match ?x with _ => _ end) _) => destruct x
      | |- spares _ (if ?b then _ else _) => destruct b
      end
    | apply spares_ret | apply spares_raise | apply spares_lift | apply spares_io
    | apply spares_open_file | apply spares_to_csv; assumption
    | apply spares_bind; [|intros ?]
    | apply spares_foldM; intros ? ?
    | apply spares_mapM_; intros ?
    | apply spares_submit ].

Lemma spares_read_csv p chunksize : spares S (read_csv p chunksize).
Proof. unfold read_csv. spares_steps. Qed.

Lemma spares_future_result {A} (fut : result A) : spares S (future_result fut).
Proof. unfold future_result. spares_steps. Qed.

Lemma spares_normalize_one src target_dir from_delim to_delim header :
  ¬ S (target_dir +:+ "/" +:+ path_name src) →
  spares S (normalize_one src target_dir from_delim to_delim header).
Proof.
  intros Hdst. unfold normalize_one.
  apply spares_bind; [apply spares_read_csv | intros df_iter].
  spares_steps.
Qed.

Lemma spares_combine_files paths per_file_delim schema_cols out_path out_delim
    chunksize write_header columns_mode per_file_header_maps missing_policy
    add_source_col source_col_name source_mode :
  ¬ S out_path →
  spares S (combine_files paths per_file_delim schema_cols out_path out_delim
              chunksize write_header columns_mode per_file_header_maps missing_policy
              add_source_col source_col_name source_mode).
Proof.
  intros Hout. unfold combine_files.
  apply spares_bind; [|intros ?; apply spares_ret].
  apply spares_foldM. intros [mode total_rows] p.
  apply spares_bind; [apply spares_lift | intros sep].
  apply spares_bind; [apply spares_lift | intros read_cols].
  apply spares_bind; [apply spares_read_csv | intros reader].
  spares_steps.
Qed.

End Spares.

Lemma under_scratch d name : under d (d +:+ "/" +:+ name).
Proof.
  clear. unfold under. induction d as [|c d IH]; simpl.
  - destruct (Ascii.ascii_dec "/" "/"); [by destruct name | done].
  - by destruct (Ascii.ascii_dec c c).
Qed.

(** Creating the workspace and recording it in [tmp_workspace], followed
    by code that spares the files of [S]. *)
Lemma mkdtemp_assign_untouched {B} (S : Path → Prop) (k : Path → M B) w r w' :
  (∀ d, d ∈ w_tmp_names w → spares S (k d)) →
  (let* d := mkdtemp in let* _ := assign_tmp_workspace (Some d) in k d) w = (r, w') →
  (w_tmp_workspace w' = w_tmp_workspace w
   ∨ ∃ d, d ∈ w_tmp_names w ∧ w_tmp_workspace w' = Some d)
  ∧ untouched S w w'.
Proof.
  clear. intros Hk. unfold bind at 1. unfold mkdtemp. unfold bind at 1.
  destruct (io w) as [[[]|e] w1] eqn:Hio;
    destruct (spares_io S _ _ _ Hio) as (Hn1 & Ht1 & Hf1).
  2: { intros [= <- <-]. split; [by left | done]. }
  unfold bind at 1.
  destruct (w_tmp_names w1) as [|d names] eqn:Hnames.
  { intros [= <- <-]. split; [by left | done]. }
  set (w2 := log (EvMkdtemp d) _).
  unfold bind at 1.
  destruct (io w2) as [[[]|e] w3] eqn:Hio2;
    destruct (spares_io S _ _ _ Hio2) as (Hn3 & Ht3 & Hf3).
  - unfold ret at 1. unfold bind, assign_tmp_workspace.
    set (w4 := set_tmp_workspace (Some d) w3).
    intros Hrun.
    assert (d ∈ w_tmp_names w) as Hd by (rewrite <- Hn1; left).
    destruct (Hk d Hd _ _ _ Hrun) as (Hn5 & Ht5 & Hf5).
    split.
    + right. exists d. split; [done|]. by rewrite Ht5.
    + intros p Hp. rewrite Hf5 by done. unfold w4. simpl.
      rewrite Hf3 by done. unfold w2. simpl. by apply Hf1.
  - intros [= <- <-]. split.
    + left. rewrite Ht3. unfold w2. simpl. done.
    + intros p Hp. rewrite Hf3 by done. unfold w2. simpl. by apply Hf1.
Qed.

Lemma normalize_all_untouched (S : Path → Prop) args paths per_file_delim
    per_file_headers w r w' :
  (∀ d p, d ∈ w_tmp_names w → S p → ¬ under d p) →
  normalize_all args paths per_file_delim per_file_headers w = (r, w') →
  (w_tmp_workspace w' = w_tmp_workspace w
   ∨ ∃ d, d ∈ w_tmp_names w ∧ w_tmp_workspace w' = Some d)
  ∧ untouched S w w'.
Proof.
  clear. intros HS. unfold normalize_all. case_bool_decide.
  - destruct (args_normalize args) as [name|];
      [|intros [= <- <-]; split; [by left | done]].
    unfold bind at 1, lift at 1.
    destruct (supported_delim name) as [target|e];
      [|intros [= <- <-]; split; [by left | done]].
    apply mkdtemp_assign_untouched. intros d Hd.
    apply spares_bind.
    { apply spares_mapM_. intros p.
      apply spares_bind; [apply spares_lift | intros from_delim].
      apply spares_submit, spares_normalize_one.
      intros Hp. by apply (HS d _ Hd Hp), under_scratch. }
    intros futures. apply spares_bind.
    { apply spares_mapM_. intros fut. apply spares_future_result. }
    intros normalized. apply spares_bind; [|intros ?; apply spares_ret].
    apply spares_foldM. intros m p.
    apply spares_bind; [apply spares_open_file | intros f; apply spares_ret].
  - intros [= <- <-]. split; [by left | done].
Qed.

Lemma run_body_untouched (S : Path → Prop) args out_sep paths per_file_delim
    per_file_headers w r w' :
  (∀ d p, d ∈ w_tmp_names w → S p → ¬ under d p) →
  (args_dry_run args = false → ¬ S (args_out args)) →
  run_body args out_sep paths per_file_delim per_file_headers w = (r, w') →
  (w_tmp_workspace w' = w_tmp_workspace w
   ∨ ∃ d, d ∈ w_tmp_names w ∧ w_tmp_workspace w' = Some d)
  ∧ untouched S w w'.
Proof.
  clear csv_sniff. intros HS Hout. unfold run_body. unfold bind at 1.
  destruct (normalize_all args paths per_file_delim per_file_headers w)
    as [[[[paths' per_file_delim'] per_file_headers']|e] w1] eqn:Hnorm;
    apply (normalize_all_untouched S) in Hnorm as [Htmp1 Hf1]; try done.
  2: { by intros [= <- <-]. }
  intros Hrest.
  assert (w_tmp_workspace w' = w_tmp_workspace w1 ∧ untouched S w1 w') as [Htmp2 Hf2].
  { revert Hrest.
    match goal with
    | |- ?m w1 = _ → _ =>
        assert (spares S m) as Hm; [|by intros Hrest; apply Hm in Hrest as (_ & ? & ?)]
    end.
    destruct (existsb _ _); [apply spares_raise|].
    apply spares_bind; [apply spares_lift|].
    intros [[maps paths''] schema_cols].
    destruct (args_dry_run args) eqn:Hdry; [apply spares_ret|].
    apply spares_bind; [apply spares_io | intros _].
    apply spares_combine_files. by apply Hout. }
  split.
  - rewrite Htmp2. done.
  - intros p Hp. by rewrite Hf2, Hf1.
Qed.

(** X13 (run): whatever the outcome of a run and the faults met on the
    way, a file that does not lie under a scratch directory the run may
    create is left exactly as it was, unless it is the output path of a
    run that is not a dry run.  In particular a dry run never touches the
    output path, and no run alters its input files. *)
Theorem run_spares_other_files (args : Args) (paths : list Path) (w w' : world)
    (r : result unit) (p : Path) :
  run args paths w = (r, w') →
  (∀ d, d ∈ w_tmp_names w → ¬ under d p) →
  args_dry_run args = true ∨ p ≠ args_out args →
  w_files w' !! p = w_files w !! p.
Proof.
  intros Hrun Hscratch Hp.
  set (S := λ q : Path, q = p).
  assert (∀ d q, d ∈ w_tmp_names w → S q → ¬ under d q) as HS.
  { intros d q Hd ->. by apply Hscratch. }
  assert (args_dry_run args = false → ¬ S (args_out args)) as Hout.
  { intros Hdry Heq. unfold S in Heq. destruct Hp as [Hp|Hp]; congruence. }
  revert Hrun. unfold run, bind at 1, lift at 1.
  destruct (supported_delim (args_out_delim args)) as [out_sep|e];
    [|by intros [= <- <-]].
  case_bool_decide as Hpaths; [by intros [= <- <-]|].
  unfold bind at 1.
  match goal with
  | |- context [foldM ?f ?s paths w] =>
      destruct (foldM f s paths w)
        as [[[per_file_delim per_file_headers]|e] w1] eqn:Hsniff;
      assert (spares S (foldM f s paths)) as Hsp
  end.
  1, 3: apply spares_foldM; intros [pfd pfh] q;
        (apply spares_bind; [apply spares_open_file | intros f]);
        (apply spares_bind; [apply spares_open_file | intros f']);
        apply spares_ret.
  2: { intros [= <- <-]. by apply (Hsp _ _ _ Hsniff). }
  destruct (Hsp _ _ _ Hsniff) as (Hn1 & Ht1 & Hf1).
  unfold bind, assign_tmp_workspace, try_finally.
  set (w2 := set_tmp_workspace None w1).
  destruct (run_body args out_sep paths per_file_delim per_file_headers w2)
    as [rb w3] eqn:Hbody.
  apply (run_body_untouched S) in Hbody as [Htmp3 Hf3];
    [| by unfold w2; simpl; rewrite Hn1 | done ].
  assert (w_files w3 !! p = w_files w !! p) as Hw3.
  { rewrite Hf3 by done. unfold w2. simpl. by apply Hf1. }
  destruct (cleanup w3) as [rc w4] eqn:Hclean.
  assert (∀ x, (match rc with
                | Ok _ => (rb, w4)
                | Raise e => (Raise e, w4)
                end) = (x, w') → w' = w4) as Hw'
    by (intros x; destruct rc; by intros [= _ <-]).
  intros Hrun. apply Hw' in Hrun as ->. rewrite <- Hw3.
  destruct Htmp3 as [Htmp3|(d & Hd & Htmp3)].
  { revert Hclean. unfold cleanup. rewrite Htmp3. simpl. by intros [= _ <-]. }
  apply (cleanup_untouched d w3 rc w4 Htmp3 Hclean).
  apply Hscratch. unfold w2 in Hd. simpl in Hd. by rewrite Hn1 in Hd.
Qed.

(** ** The extension of the input files *)

Lemma elements_one_ext (paths : list Path) (p0 : Path) :
  p0 ∈ paths →
  (∀ p, p ∈ paths → normalized_ext p = normalized_ext p0) →
  elements (list_to_set (normalized_ext <$> paths) : gset string) = [normalized_ext p0].
Proof.
  clear strip csv_sniff. intros Hp0 Hsame.
  assert ((list_to_set (normalized_ext <$> paths) : gset string) = {[normalized_ext p0]})
    as ->; [|apply elements_singleton].
  apply set_eq. intros e. rewrite elem_of_list_to_set, list_elem_of_fmap, elem_of_singleton.
  split.
  - intros (p & -> & Hp). by apply Hsame.
  - intros ->. by exists p0.
Qed.

Lemma filter_all_kept {A} (P : A → Prop) `{∀ x, Decision (P x)} (l : list A) :
  Forall P l → filter P l = l.
Proof.
  clear. induction 1 as [|x l Hx Hl IH]; [done|].
  by rewrite filter_cons_True, IH.
Qed.

(** X14 (ensure_single_extension, run): when no extension is given (or
    an empty one) and at least one file was found, the extension is
    inferred: if all files carry the same normalized extension the
    filter of [run] keeps every one of them, in their order; as soon as
    two files differ the job is refused with the inconsistent-extensions
    error, whatever the files are. *)
Theorem inferred_extension_keeps_all (paths : list Path) (extension : option string) :
  paths ≠ [] →
  extension = None ∨ extension = Some "" →
  ((∀ p q, p ∈ paths → q ∈ paths → normalized_ext p = normalized_ext q) →
   select_inputs paths extension = Ok paths)
  ∧ ((∃ p q, p ∈ paths ∧ q ∈ paths ∧ normalized_ext p ≠ normalized_ext q) →
     select_inputs paths extension
     = Raise (ValueError (Other "Inconsistent extensions detected"))).
Proof.
  clear strip csv_sniff. intros Hne Hext.
  assert (ensure_single_extension paths extension
          = match elements (list_to_set (normalized_ext <$> paths) : gset string) with
            | [ext] => Ok ext
            | _ => Raise (ValueError (Other "Inconsistent extensions detected"))
            end) as Hinfer by (by destruct Hext as [-> | ->]).
  unfold select_inputs. rewrite bool_decide_eq_false_2, Hinfer by done.
  split.
  - intros Hsame. destruct paths as [|p0 paths'] eqn:Hpaths; [done|].
    rewrite <- Hpaths in *.
    assert (p0 ∈ paths) as Hp0 by (rewrite Hpaths; left).
    rewrite (elements_one_ext paths p0 Hp0 (λ p Hp, Hsame p p0 Hp Hp0)).
    assert (filter (λ p, normalized_ext p = normalized_ext p0) paths = paths) as ->.
    { apply filter_all_kept. apply Forall_forall. intros p Hp. by apply Hsame. }
    by rewrite bool_decide_eq_false_2.
  - intros (p & q & Hp & Hq & Hpq).
    destruct (elements _) as [|e [|e' es]] eqn:Helems; [done | | done].
    exfalso. apply Hpq.
    assert (∀ x, x ∈ paths → normalized_ext x = e) as Hall.
    { intros x Hx.
      assert (normalized_ext x ∈ elements
                (list_to_set (normalized_ext <$> paths) : gset string)) as Hin.
      { apply elem_of_elements, elem_of_list_to_set, list_elem_of_fmap. by exists x. }
      rewrite Helems in Hin. by apply list_elem_of_singleton in Hin. }
    by rewrite (Hall p), (Hall q).
Qed.

(** ** Files with different delimiters *)

Lemma open_file_no_fault p f w :
  w_faults w = [] → w_files w !! p = Some f → open_file p w = (Ok f, w).
Proof.
  clear. intros Hfaults Hp. unfold open_file, bind, io. by rewrite Hfaults, Hp.
Qed.

Lemma run_sniff_no_fault (sample_rows : Z) paths
    (per_file_delim : gmap Path ascii) (per_file_headers : gmap Path (list string)) w :
  w_faults w = [] →
  (∀ p, p ∈ paths → is_Some (w_files w !! p)) →
  ∃ per_file_delim' per_file_headers',
    foldM (λ '(per_file_delim, per_file_headers) p,
             let* f := open_file p in
             let delim := sniff_file_delimiter (file_lines f) sample_rows in
             let* f := open_file p in
             ret (<[p := delim]> per_file_delim,
                  <[p := peek_header f]> per_file_headers))
          (per_file_delim, per_file_headers) paths w
    = (Ok (per_file_delim', per_file_headers'), w)
    ∧ (∀ p f, p ∈ paths → w_files w !! p = Some f →
         per_file_delim' !! p = Some (sniff_file_delimiter (file_lines f) sample_rows))
    ∧ (∀ p, p ∉ paths → per_file_delim' !! p = per_file_delim !! p).
Proof.
  clear lower. intros Hfaults. revert per_file_delim per_file_headers.
  induction paths as [|b paths IH]; intros m h Hfiles.
  - eexists _, _. split; [reflexivity|]. split; [by intros p f ?%elem_of_nil | done].
  - destruct (Hfiles b) as [fb Hfb]; [left|].
    destruct (IH (<[b := sniff_file_delimiter (file_lines fb) sample_rows]> m)
                 (<[b := peek_header fb]> h)) as (m' & h' & Hrun & Hin & Hout).
    { intros p Hp. apply Hfiles. by right. }
    exists m', h'. split.
    + cbn [foldM]. unfold bind at 1. unfold bind at 1.
      rewrite (open_file_no_fault b fb w Hfaults Hfb).
      unfold bind at 1. rewrite (open_file_no_fault b fb w Hfaults Hfb).
      unfold ret at 1. exact Hrun.
    + split.
      * intros p f Hp Hf. destruct (decide (p ∈ paths)) as [Hin'|Hnin].
        { by apply Hin. }
        apply elem_of_cons in Hp as [->|Hp]; [|done].
        rewrite Hout by done. rewrite lookup_insert_eq. congruence.
      * intros p Hp. apply not_elem_of_cons in Hp as [Hne Hp].
        rewrite Hout by done. by rewrite lookup_insert_ne.
Qed.

(** X15 (run): when no fault occurs, every input file exists, two of
    them are sniffed with different delimiters and [--normalize] is not
    given, the run stops with the inconsistent-delimiters exit before
    anything is written: no file is changed, no scratch directory is
    created and nothing is logged. *)
Theorem run_refuses_mixed_delimiters (args : Args) (paths : list Path) (w : world)
    (p q : Path) (fp fq : file) (out_sep : ascii) :
  supported_delim (args_out_delim args) = Ok out_sep →
  args_normalize args = None →
  w_faults w = [] →
  (∀ x, x ∈ paths → is_Some (w_files w !! x)) →
  p ∈ paths → q ∈ paths →
  w_files w !! p = Some fp → w_files w !! q = Some fq →
  sniff_file_delimiter (file_lines fp) (args_sample_rows args)
  ≠ sniff_file_delimiter (file_lines fq) (args_sample_rows args) →
  ∃ delims,
    run args paths w
    = (Raise (SystemExit (InconsistentDelimiters delims)), set_tmp_workspace None w)
    ∧ sniff_file_delimiter (file_lines fp) (args_sample_rows args) ∈ delims
    ∧ sniff_file_delimiter (file_lines fq) (args_sample_rows args) ∈ delims.
Proof.
  intros Hsep Hnorm Hfaults Hfiles Hp Hq Hfp Hfq Hdiff.
  destruct (run_sniff_no_fault (args_sample_rows args) paths ∅ ∅ w Hfaults Hfiles)
    as (per_file_delim & per_file_headers & Hsniff & Hdelims & _).
  pose proof (Hdelims p fp Hp Hfp) as Hdp.
  pose proof (Hdelims q fq Hq Hfq) as Hdq.
  set (dp := sniff_file_delimiter (file_lines fp) (args_sample_rows args)) in *.
  set (dq := sniff_file_delimiter (file_lines fq) (args_sample_rows args)) in *.
  assert (dp ∈ (map_img per_file_delim : gset ascii)) as Hinp
    by (apply elem_of_map_img; by exists p).
  assert (dq ∈ (map_img per_file_delim : gset ascii)) as Hinq
    by (apply elem_of_map_img; by exists q).
  assert (1 < size (map_img per_file_delim : gset ascii))%nat as Hsize.
  { assert (size ({[dp; dq]} : gset ascii) = 2%nat) as Htwo.
    { rewrite size_union by set_solver. by rewrite !size_singleton. }
    assert (({[dp; dq]} : gset ascii) ⊆ map_img per_file_delim) as Hsub by set_solver.
    apply subseteq_size in Hsub. lia. }
  exists (merge_sort ascii_le (elements (map_img per_file_delim : gset ascii))).
  split; [|split; rewrite merge_sort_Permutation; by apply elem_of_elements].
  unfold run, bind at 1, lift at 1. rewrite Hsep.
  rewrite bool_decide_eq_false_2 by (intros ->; by apply elem_of_nil in Hp).
  unfold bind at 1.
  match goal with
  | |- context [foldM ?f ?s paths w] =>
      replace (foldM f s paths w) with (Ok (per_file_delim, per_file_headers), w)
        by (symmetry; exact Hsniff)
  end.
  unfold bind at 1. unfold assign_tmp_workspace at 1.
  unfold try_finally, run_body. unfold bind at 1.
  unfold normalize_all. rewrite bool_decide_eq_true_2 by done.
  rewrite Hnorm. unfold raise. unfold cleanup. simpl. done.
Qed.

End Engine.

(** * Concrete runs *)

(** ** Defects exhibited by evaluation *)

(** C1 (defect). With header output enabled, merging [a.csv], which has
    a header and no data row, and then [b.csv] writes the header row
    twice: the first chunk of [a.csv] is empty, [total_rows] is still 0
    when the first chunk of [b.csv] is written, and that later chunk
    emits the header again. *)
Theorem header_emitted_twice :
  let files := [("/d/a.csv", file_a_empty); ("/d/b.csv", file_b)] in
  let header := HeaderLine ["id"; "name"] in
  let merged :=
    combine_files ascii_lower ["/d/a.csv"; "/d/b.csv"]
      (list_to_map [("/d/a.csv", ","%char); ("/d/b.csv", ","%char)])
      ["id"; "name"] "/out.csv" "," 200000 true false None None
      false "source_file" "name" (world_of [] files) in
  let ran :=
    run ascii_lower ascii_strip no_dialect default_args
      ["/d/a.csv"; "/d/b.csv"] (world_of [] files) in
  merged.1 = Ok tt
  ∧ w_files merged.2 !! "/out.csv"
    = Some (Written "," [header; header; DataLine [Some "2"; Some "Bo"]])
  ∧ w_trace merged.2
    = [EvToCsv "/out.csv" true "w" 0; EvToCsv "/out.csv" true "a" 1]
  ∧ ran.1 = Ok tt
  ∧ w_files ran.2 !! "/out.csv"
    = Some (Written "," [header; header; DataLine [Some "2"; Some "Bo"]]).
Proof. vm_compute. split_and!; reflexivity. Qed.

(** C6 (defect). With [--columns ID --missing-policy fillna] and
    case-sensitive matching, the header [id] of [c.csv] lacks the
    requested column [ID] (the resolver reports it missing, and the same
    request aborts under [error]); yet the row written for that file
    carries the value of [id] in column [ID] instead of a null. *)
Theorem fillna_reads_lowercase_column :
  let files := [("/d/c.csv", file_c)] in
  let ran policy :=
    run ascii_lower ascii_strip no_dialect
      (with_columns ["ID"] policy false default_args)
      ["/d/c.csv"] (world_of [] files) in
  missing_in ascii_lower ["ID"] false ["id"] = ["ID"]
  ∧ (ran "error").1 = Raise (SystemExit (MissingRequested "/d/c.csv" ["ID"]))
  ∧ (ran "fillna").1 = Ok tt
  ∧ w_files (ran "fillna").2 !! "/out.csv"
    = Some (Written "," [HeaderLine ["ID"]; DataLine [Some "1"]]).
Proof. vm_compute. split_and!; reflexivity. Qed.

(** C10 (defect). Under [--missing-policy error] a file that resolves
    every requested column can still reach the merge-time branch that
    synthesizes a null column.  In [s.csv] the header cell [id] is
    followed by a space: the header read for validation is trimmed, the
    column label of the chunk is not, so [id] is found at validation and
    absent at merge time.  With [--columns id ID --case-insensitive] on
    [c.csv] both names resolve to the column [id], the rename map keeps
    one of them, and [id] is absent after the renaming.  In both runs the
    frame entering the final loop lacks a schema column and the output
    has a null where the file has a value. *)
Theorem null_synthesis_reached_under_error :
  let spaced := mkDataFrame 1 [("id ", [Some "1"]); ("name", [Some "Ann"])] in
  let single := mkDataFrame 1 [("id", [Some "1"])] in
  let ran_spaced :=
    run ascii_lower ascii_strip no_dialect
      (with_columns ["id"; "name"] "error" false default_args)
      ["/d/s.csv"] (world_of [] [("/d/s.csv", file_spaced)]) in
  let ran_twice :=
    run ascii_lower ascii_strip no_dialect
      (with_columns ["id"; "ID"] "error" true default_args)
      ["/d/c.csv"] (world_of [] [("/d/c.csv", file_c)]) in
  missing_in ascii_lower ["id"; "name"] false ["id"; "name"] = []
  ∧ (columns <$> select_requested spaced ["id"; "name"]
                   (read_cols_of ascii_lower
                      (make_header_map ascii_lower ["id"; "name"] false) ["id"; "name"])
                   (Some "error"))
    = Ok ["name"]
  ∧ ran_spaced.1 = Ok tt
  ∧ w_files ran_spaced.2 !! "/out.csv"
    = Some (Written "," [HeaderLine ["id"; "name"]; DataLine [NA; Some "Ann"]])
  ∧ missing_in ascii_lower ["id"; "ID"] true ["id"] = []
  ∧ (columns <$> select_requested single ["id"; "ID"]
                   (read_cols_of ascii_lower
                      (make_header_map ascii_lower ["id"] true) ["id"; "ID"])
                   (Some "error"))
    = Ok ["ID"; "ID"]
  ∧ ran_twice.1 = Ok tt
  ∧ w_files ran_twice.2 !! "/out.csv"
    = Some (Written "," [HeaderLine ["id"; "ID"; "ID"];
                         DataLine [NA; Some "1"; Some "1"]]).
Proof. vm_compute. split_and!; reflexivity. Qed.

(** ** A header that repeats a name *)

(** C3 (counterexample). For the single header [a, a] the union schema
    is [a]: one output column, fewer than the two columns of the file. *)
Lemma union_count_counterexample :
  build_schema [["a"; "a"]] "union" = Ok ["a"]
  ∧ ¬ (length ["a"; "a"] ≤ length ["a"])%nat.
Proof. split; [reflexivity | simpl; lia]. Qed.

(** ** Instances of the general theorems *)

(** Case analysis on a membership in an explicit list. *)
Ltac each_member H :=
  repeat (apply elem_of_cons in H as [->|H]); [..|by apply elem_of_nil in H].

(** C2 at two runs: reordered columns give the first header; a header
    with another column set is reported with the first header. *)
Lemma build_schema_strict_witness :
  build_schema [["id"; "name"]; ["name"; "id"]] "strict" = Ok ["id"; "name"]
  ∧ ∃ pre other post,
      [["id"; "name"]; ["name"; "id"]; ["id"]; ["x"]]
      = ["id"; "name"] :: pre ++ other :: post
      ∧ Forall (λ h, same_columns h ["id"; "name"]) pre
      ∧ ¬ same_columns other ["id"; "name"]
      ∧ build_schema [["id"; "name"]; ["name"; "id"]; ["id"]; ["x"]] "strict"
        = Raise (ValueError (SchemaMismatch ["id"; "name"] other)).
Proof.
  split.
  - apply (proj1 (build_schema_strict [["id"; "name"]; ["name"; "id"]]
                    ltac:(discriminate))).
    simpl. repeat (apply Forall_cons; split); [| |apply Forall_nil];
      unfold same_columns; set_solver.
  - apply (proj2 (build_schema_strict
                    [["id"; "name"]; ["name"; "id"]; ["id"]; ["x"]]
                    ltac:(discriminate))).
    simpl. rewrite !Forall_cons. intros (_ & _ & Hbad & _).
    assert ("name" ∈ ["id"]) as Hin by (apply Hbad; set_solver).
    set_solver.
Defined.

(** C4 at two runs: a shared pair of columns, and no shared column. *)
Lemma build_schema_intersection_witness :
  build_schema [["id"; "x"; "name"]; ["name"; "id"]] "intersection"
  = Ok ["id"; "name"]
  ∧ build_schema [["a"]; ["b"]] "intersection" = Raise (ValueError NoSharedColumns).
Proof.
  split.
  - rewrite (proj2 (build_schema_intersection [["id"; "x"; "name"]; ["name"; "id"]]
                      ltac:(discriminate))); [reflexivity|].
    exists "id". intros h Hh. each_member Hh; set_solver.
  - apply (proj1 (build_schema_intersection [["a"]; ["b"]] ltac:(discriminate))).
    intros [c Hc].
    assert (c ∈ ["a"]) as Ha by (apply Hc; left).
    assert (c ∈ ["b"]) as Hb by (apply Hc; right; left).
    set_solver.
Defined.

(** C9 at the header [ID, x, Id, y] and the requested name [id]. *)
Lemma case_insensitive_last_wins_witness :
  make_header_map ascii_lower ["ID"; "x"; "Id"; "y"] true !! "id" = Some "Id"
  ∧ resolve_requested_columns ascii_lower ["id"]
      (make_header_map ascii_lower ["ID"; "x"; "Id"; "y"] true) true
    = (["Id"], []).
Proof.
  destruct (case_insensitive_last_wins ascii_lower ["ID"; "x"] ["y"] "Id" "id")
    as (Hmap & Hresolve & _).
  - reflexivity.
  - repeat constructor. vm_compute. discriminate.
  - split; [exact Hmap | exact Hresolve].
Defined.

(** C5 at two files, the second lacking [score]. *)
Lemma run_columns_mode_policies_witness :
  let headers : gmap Path (list string) :=
    list_to_map [("/d/a.csv", ["id"; "score"]); ("/d/b.csv", ["id"])] in
  let paths := ["/d/a.csv"; "/d/b.csv"] in
  let requested := ["id"; "score"] in
  run_columns_mode ascii_lower requested false "error" headers paths
  = Raise (SystemExit (MissingRequested "/d/b.csv" ["score"]))
  ∧ (∃ maps, run_columns_mode ascii_lower requested false "skip" headers paths
             = Ok (maps, ["/d/a.csv"], requested))
  ∧ (∃ maps, run_columns_mode ascii_lower requested false "fillna" headers paths
             = Ok (maps, paths, requested)).
Proof.
  intros headers paths requested.
  destruct (run_columns_mode_policies ascii_lower requested false headers paths)
    as (Herror & Hskip & Hfillna & _).
  - intros p Hp. unfold paths in Hp. each_member Hp; by eexists.
  - split_and!.
    + apply (Herror ["/d/a.csv"] "/d/b.csv" []); [reflexivity | |].
      * repeat constructor.
      * vm_compute. discriminate.
    + eexists. rewrite Hskip. reflexivity.
    + eexists. apply Hfillna. discriminate.
Defined.


(** C8 (counterexample). Two runs over [a.csv] and [b.csv], which differ
    in their delimiters, normalized to tabs.  In the first the interrupt
    arrives when [mkdtemp] has made the directory and its name is not yet
    recorded: the [finally] clause finds [tmp_workspace] empty and the
    directory stays.  In the second the run succeeds and the removal
    fails on one file with an [OSError], which [ignore_errors=True]
    swallows: the file and the directory stay. *)
Lemma workspace_left_behind :
  let files := [("/d/a.csv", file_a); ("/d/b.csv", file_b_semicolon)] in
  let ran faults :=
    run ascii_lower ascii_strip no_dialect (with_normalize "tab" default_args)
      ["/d/a.csv"; "/d/b.csv"] (world_of faults files) in
  let interrupted := ran (replicate 5 None ++ [Some KeyboardInterrupt]) in
  let failed := ran (replicate 21 None ++ [Some OSError]) in
  interrupted.1 = Raise KeyboardInterrupt
  ∧ created (w_trace interrupted.2) = ["/tmp/concat_norm_0"]
  ∧ w_tmp_workspace interrupted.2 = None
  ∧ ¬ ("/tmp/concat_norm_0" ∉ w_dirs interrupted.2)
  ∧ failed.1 = Ok tt
  ∧ created (w_trace failed.2) = ["/tmp/concat_norm_0"]
  ∧ ¬ ("/tmp/concat_norm_0" ∉ w_dirs failed.2)
  ∧ w_files failed.2 !! "/tmp/concat_norm_0/a.csv" ≠ None.
Proof.
  intros files ran interrupted failed.
  assert (elements (w_dirs interrupted.2) = ["/tmp/concat_norm_0"]) as Hdirs1
    by (vm_compute; reflexivity).
  assert (elements (w_dirs failed.2) = ["/tmp/concat_norm_0"]) as Hdirs2
    by (vm_compute; reflexivity).
  split; [vm_compute; reflexivity|].
  split; [vm_compute; reflexivity|].
  split; [vm_compute; reflexivity|].
  split.
  { intros Hnot. apply Hnot, elem_of_elements. rewrite Hdirs1. left. }
  split; [vm_compute; reflexivity|].
  split; [vm_compute; reflexivity|].
  split.
  { intros Hnot. apply Hnot, elem_of_elements. rewrite Hdirs2. left. }
  vm_compute. discriminate.
Qed.

(** C8 at a run over two files with different delimiters, normalized to
    tabs and interrupted while the copies are being made: the workspace
    was created and recorded, the removal met no fault, and the workspace
    is gone when the run ends. *)
Lemma run_removes_workspace_witness :
  let w :=
    world_of (replicate 16 None ++ [Some KeyboardInterrupt])
      [("/d/a.csv", file_a); ("/d/b.csv", file_b_semicolon)] in
  let ran :=
    run ascii_lower ascii_strip no_dialect (with_normalize "tab" default_args)
      ["/d/a.csv"; "/d/b.csv"] w in
  ran.1 = Raise KeyboardInterrupt
  ∧ created (w_trace ran.2) = ["/tmp/concat_norm_0"]
  ∧ ("/tmp/concat_norm_0" ∉ w_dirs ran.2)
  ∧ ∀ p, under "/tmp/concat_norm_0" p → w_files ran.2 !! p = None.
Proof.
  intros w ran.
  split; [vm_compute; reflexivity|].
  split; [vm_compute; reflexivity|].
  assert (drop (length (w_trace w)) (w_trace ran.2)
          = [EvMkdtemp "/tmp/concat_norm_0";
             EvToCsv "/tmp/concat_norm_0/a.csv" true "w" 1;
             EvToCsv "/tmp/concat_norm_0/b.csv" true "w" 1;
             EvRmtree "/tmp/concat_norm_0"]) as Htrace
    by (vm_compute; reflexivity).
  destruct (run_removes_workspace ascii_lower ascii_strip no_dialect
              (with_normalize "tab" default_args) ["/d/a.csv"; "/d/b.csv"]
              w ran.2 ran.1 "/tmp/concat_norm_0") as [[_ Hgone]|[Hnone _]].
  - unfold ran. by destruct (run _ _ _ _ _ _).
  - rewrite Htrace. left.
  - apply Hgone. rewrite Htrace. clear. intros e He.
    repeat (apply elem_of_cons in He as [He|He]; [discriminate He|]).
    by apply elem_of_nil in He.
  - exfalso. revert Hnone. clear. vm_compute. discriminate.
Defined.

(** C7 at a sample whose lines split evenly on semicolons only, and at a
    blank sample. *)
Example sniff_semicolons :
  sniff_file_delimiter ascii_strip no_dialect
    ["a;b;c" +:+ nl; "1;2,5;3" +:+ nl; "4;5;6" +:+ nl] 50 = ";"%char
  ∧ candidate_score ascii_strip ";" ["a;b;c" +:+ nl; "1;2,5;3" +:+ nl; "4;5;6" +:+ nl]
    = Some (3, 3)
  ∧ candidate_score ascii_strip "," ["a;b;c" +:+ nl; "1;2,5;3" +:+ nl; "4;5;6" +:+ nl]
    = Some (2, 1)
  ∧ sniff_file_delimiter ascii_strip no_dialect [nl; "  " +:+ nl] 50 = ","%char.
Proof. vm_compute. split_and!; reflexivity. Qed.

(** ** Instances of the further properties *)

(** X1 at a chunk whose columns are those of its header. *)
Lemma resolved_file_needs_no_synthesis_witness :
  ∃ df,
    select_requested
      (mkDataFrame 1 [("name", [Some "Ann"]); ("id", [Some "1"])])
      ["id"; "name"]
      (read_cols_of ascii_lower (make_header_map ascii_lower ["name"; "id"] false)
         ["id"; "name"])
      (Some "error") = Ok df
    ∧ columns df = ["id"; "name"]
    ∧ fill_absent df ["id"; "name"] = df.
Proof.
  apply (resolved_file_needs_no_synthesis ascii_lower ["id"; "name"] ["name"; "id"]
           false (mkDataFrame 1 [("name", [Some "Ann"]); ("id", [Some "1"])])
           (Some "error")).
  - reflexivity.
  - intros h Hh. each_member Hh; vm_compute; repeat constructor.
  - apply (bool_decide_unpack _). vm_compute. exact I.
  - apply (bool_decide_unpack _). vm_compute. exact I.
Defined.

(** X2 at the merge of [a.csv] and [b.csv], each with one row. *)
Lemma combine_files_header_events_witness :
  let w := world_of [] [("/d/a.csv", file_a); ("/d/b.csv", file_b)] in
  let merged :=
    combine_files ascii_lower ["/d/a.csv"; "/d/b.csv"]
      (list_to_map [("/d/a.csv", ","%char); ("/d/b.csv", ","%char)])
      ["id"; "name"] "/out.csv" "," 200000 true false None None
      false "source_file" "name" w in
  w_trace merged.2
  = [EvToCsv "/out.csv" true "w" 1; EvToCsv "/out.csv" false "a" 1]
  ∧ ∃ ns,
      w_trace merged.2 = w_trace w ++ writes "/out.csv" true ("w", 0%nat) ns
      ∧ (true = false →
         Forall (λ ev, event_header ev = false)
                (writes "/out.csv" true ("w", 0%nat) ns))
      ∧ (∀ n ns', ns = n :: ns' → (0 < n)%nat →
         writes "/out.csv" true ("w", 0%nat) ns
         = EvToCsv "/out.csv" true "w" n :: writes "/out.csv" true ("a", n) ns'
         ∧ Forall (λ ev, event_header ev = false)
                  (writes "/out.csv" true ("a", n) ns')).
Proof.
  intros w merged. split; [vm_compute; reflexivity|].
  apply (combine_files_header_events ascii_lower ["/d/a.csv"; "/d/b.csv"]
           (list_to_map [("/d/a.csv", ","%char); ("/d/b.csv", ","%char)])
           ["id"; "name"] "/out.csv" "," 200000 true false None None
           false "source_file" "name" w merged.2 merged.1).
  unfold merged. by destruct (combine_files _ _ _ _ _ _ _ _ _ _ _ _ _ _ _).
Defined.

(** X3 at a chunk of [c.csv] and the requested columns [id] and [score]. *)
Lemma fillna_absent_column_is_null_witness :
  let chunk := mkDataFrame 1 [("id", [Some "1"])] in
  let header_map := make_header_map ascii_lower ["id"] false in
  let df := mkDataFrame 1 [("id", [Some "1"]); ("score", [NA])] in
  shape_chunk chunk "/d/c.csv" ["id"; "score"] true
    (read_cols_of ascii_lower header_map ["id"; "score"])
    (Some "fillna") false "source_file" "name" = Ok df
  ∧ df_len df = df_len chunk ∧ "score" ∈ columns df ∧ blank_column df "score".
Proof.
  intros chunk header_map df.
  assert (shape_chunk chunk "/d/c.csv" ["id"; "score"] true
            (read_cols_of ascii_lower header_map ["id"; "score"])
            (Some "fillna") false "source_file" "name" = Ok df) as Hshape
    by (vm_compute; reflexivity).
  split; [exact Hshape|].
  apply (fillna_absent_column_is_null ascii_lower chunk "/d/c.csv" ["id"; "score"]
           header_map false "source_file" "name" "score" df Hshape).
  - right. left.
  - assert (read_col ascii_lower header_map "score" = "score") as ->
      by (vm_compute; reflexivity).
    assert (columns chunk = ["id"]) as -> by reflexivity.
    set_solver.
Defined.
(** X6 at two files whose headers list the same columns in another order. *)
Lemma build_schema_policies_agree_witness :
  build_schema [["id"; "name"]; ["name"; "id"]] "strict" = Ok ["id"; "name"]
  ∧ build_schema [["id"; "name"]; ["name"; "id"]] "union" = Ok ["id"; "name"]
  ∧ build_schema [["id"; "name"]; ["name"; "id"]] "intersection" = Ok ["id"; "name"].
Proof.
  apply (build_schema_policies_agree ["id"; "name"] [["name"; "id"]]).
  - discriminate.
  - apply (bool_decide_unpack _). vm_compute. exact I.
  - apply Forall_cons. split; [unfold same_columns; set_solver | by apply Forall_nil].
Defined.

(** X7 at three lines of three fields separated by semicolons. *)
Lemma sniff_consistent_sample_witness :
  sniff_delimiter_from_lines ascii_strip no_dialect
    ["a;b;c" +:+ nl; "1;2;3" +:+ nl; nl] = ";"%char.
Proof.
  apply (sniff_consistent_sample ascii_strip no_dialect
           ["a;b;c" +:+ nl; "1;2;3" +:+ nl; nl] ";"%char 3).
  - set_solver.
  - lia.
  - left. vm_compute. discriminate.
  - intros ln Hln Hne. each_member Hln.
    + split; [reflexivity|]. intros d' Hd' Hneq. each_member Hd'; done.
    + split; [reflexivity|]. intros d' Hd' Hneq. each_member Hd'; done.
    + exfalso. apply Hne. reflexivity.
Defined.

(** X8 at the normalization of [b.txt] from semicolons to tabs. *)
Lemma normalize_one_copy_witness :
  let w := world_of [] [("/d/b.txt", file_b_semicolon)] in
  let ran := normalize_one "/d/b.txt" "/tmp/concat_norm_0" ";" tab true w in
  ran.1 = Ok "/tmp/concat_norm_0/b.txt"
  ∧ ∃ f, w_files w !! "/d/b.txt" = Some f
         ∧ w_files ran.2 !! "/tmp/concat_norm_0/b.txt"
           = Some (Written tab
                     ([HeaderLine (columns (file_frame f))]
                      ++ (DataLine <$> rows (file_frame f))))
         ∧ ∀ p, p ≠ "/tmp/concat_norm_0/b.txt" → w_files ran.2 !! p = w_files w !! p.
Proof.
  intros w ran. split; [vm_compute; reflexivity|].
  apply (normalize_one_copy "/d/b.txt" "/tmp/concat_norm_0" ";" tab true w ran.2
           "/tmp/concat_norm_0/b.txt").
  - vm_compute. discriminate.
  - vm_compute. reflexivity.
Defined.

(** X11 at a chunk of [a.csv] merged with the source column. *)
Lemma source_column_prepended_witness :
  shape_chunk (mkDataFrame 1 [("id", [Some "1"]); ("name", [Some "Ann"])])
    "/d/a.csv" ["id"; "name"] false [] None true "source_file" "name"
  = Ok (mkDataFrame 1 [("source_file", [Some "a.csv"]);
                       ("id", [Some "1"]); ("name", [Some "Ann"])]).
Proof.
  apply (source_column_prepended
           (mkDataFrame 1 [("id", [Some "1"]); ("name", [Some "Ann"])])
           "/d/a.csv" ["id"; "name"] false [] None "source_file" "name"
           (mkDataFrame 1 [("id", [Some "1"]); ("name", [Some "Ann"])])).
  - apply (bool_decide_unpack _). vm_compute. exact I.
  - apply (bool_decide_unpack _). vm_compute. exact I.
  - vm_compute. reflexivity.
Defined.

(** X10 at a chunk with the columns [name] and [id] under the schema
    [id], [score], [name]. *)
Lemma reconciled_projection_witness :
  shape_chunk (mkDataFrame 1 [("name", [Some "Ann"]); ("id", [Some "1"])])
    "/d/a.csv" ["id"; "score"; "name"] false [] None false "source_file" "name"
  = Ok (mkDataFrame 1 [("id", [Some "1"]); ("score", [NA]); ("name", [Some "Ann"])]).
Proof.
  apply (reconciled_projection
           (mkDataFrame 1 [("name", [Some "Ann"]); ("id", [Some "1"])])
           "/d/a.csv" ["id"; "score"; "name"] [] None "source_file" "name").
  apply (bool_decide_unpack _). vm_compute. exact I.
Defined.

(** X12 at the merge of [a.csv] and [b.csv], one row each. *)
Lemma combine_files_row_total_witness :
  let w := world_of [] [("/d/a.csv", file_a); ("/d/b.csv", file_b)] in
  let merged :=
    combine_files ascii_lower ["/d/a.csv"; "/d/b.csv"]
      (list_to_map [("/d/a.csv", ","%char); ("/d/b.csv", ","%char)])
      ["id"; "name"] "/out.csv" "," 200000 true false None None
      false "source_file" "name" w in
  merged.1 = Ok tt
  ∧ ∃ files sep lines,
      Forall2 (λ p f, w_files w !! p = Some f) ["/d/a.csv"; "/d/b.csv"] files
      ∧ w_files merged.2 !! "/out.csv" = Some (Written sep lines)
      ∧ data_count lines = sum_list ((λ f, df_len (file_frame f)) <$> files)
      ∧ ∀ p, p ≠ "/out.csv" → w_files merged.2 !! p = w_files w !! p.
Proof.
  intros w merged. split; [vm_compute; reflexivity|].
  apply (combine_files_row_total ascii_lower ["/d/a.csv"; "/d/b.csv"]
           (list_to_map [("/d/a.csv", ","%char); ("/d/b.csv", ","%char)])
           ["id"; "name"] "/out.csv" "," 200000 true false None None
           false "source_file" "name" w merged.2).
  - discriminate.
  - apply (bool_decide_unpack _). vm_compute. exact I.
  - vm_compute. reflexivity.
Defined.

(** X13 at a dry run over two files with different delimiters,
    normalized to tabs: the output path is not created and [a.csv] is as
    it was. *)
Lemma run_spares_other_files_witness :
  let w := world_of [] [("/d/a.csv", file_a); ("/d/b.csv", file_b_semicolon)] in
  let args :=
    mkArgs "/out.csv" "comma" 50 (Some "tab") "strict" None "error" false true
      "source_file" "name" 200000 false true in
  let ran :=
    run ascii_lower ascii_strip no_dialect args ["/d/a.csv"; "/d/b.csv"] w in
  ran.1 = Ok tt
  ∧ created (w_trace ran.2) = ["/tmp/concat_norm_0"]
  ∧ w_files ran.2 !! "/out.csv" = w_files w !! "/out.csv"
  ∧ w_files ran.2 !! "/d/a.csv" = w_files w !! "/d/a.csv".
Proof.
  intros w args ran.
  split; [vm_compute; reflexivity|].
  split; [vm_compute; reflexivity|].
  split.
  - apply (run_spares_other_files ascii_lower ascii_strip no_dialect args
             ["/d/a.csv"; "/d/b.csv"] w ran.2 ran.1 "/out.csv").
    + unfold ran. by destruct (run _ _ _ _ _ _).
    + intros d Hd. change (d ∈ ["/tmp/concat_norm_0"]) in Hd.
      apply list_elem_of_singleton in Hd. rewrite Hd. clear.
      vm_compute. discriminate.
    + left. reflexivity.
  - apply (run_spares_other_files ascii_lower ascii_strip no_dialect args
             ["/d/a.csv"; "/d/b.csv"] w ran.2 ran.1 "/d/a.csv").
    + unfold ran. by destruct (run _ _ _ _ _ _).
    + intros d Hd. change (d ∈ ["/tmp/concat_norm_0"]) in Hd.
      apply list_elem_of_singleton in Hd. rewrite Hd. clear.
      vm_compute. discriminate.
    + left. reflexivity.
Defined.

(** X14 at two files with the extension [csv] in different cases, and at
    a [csv] file beside a [txt] file. *)
Lemma inferred_extension_keeps_all_witness :
  select_inputs ascii_lower ["/d/a.csv"; "/d/b.CSV"] None = Ok ["/d/a.csv"; "/d/b.CSV"]
  ∧ select_inputs ascii_lower ["/d/a.csv"; "/d/b.txt"] None
    = Raise (ValueError (Other "Inconsistent extensions detected")).
Proof.
  split.
  - apply (inferred_extension_keeps_all ascii_lower ["/d/a.csv"; "/d/b.CSV"] None).
    + discriminate.
    + by left.
    + intros p q Hp Hq. each_member Hp; each_member Hq; reflexivity.
  - apply (inferred_extension_keeps_all ascii_lower ["/d/a.csv"; "/d/b.txt"] None).
    + discriminate.
    + by left.
    + exists "/d/a.csv", "/d/b.txt". split_and!; [set_solver | set_solver |].
      vm_compute. discriminate.
Defined.

(** X15 at [a.csv], separated by commas, beside [b.csv], separated by
    semicolons, without [--normalize]. *)
Lemma run_refuses_mixed_delimiters_witness :
  let w := world_of [] [("/d/a.csv", file_a); ("/d/b.csv", file_b_semicolon)] in
  ∃ delims,
    run ascii_lower ascii_strip no_dialect default_args ["/d/a.csv"; "/d/b.csv"] w
    = (Raise (SystemExit (InconsistentDelimiters delims)), set_tmp_workspace None w)
    ∧ ","%char ∈ delims ∧ ";"%char ∈ delims.
Proof.
  intros w.
  apply (run_refuses_mixed_delimiters ascii_lower ascii_strip no_dialect default_args
           ["/d/a.csv"; "/d/b.csv"] w "/d/a.csv" "/d/b.csv" file_a file_b_semicolon
           ","%char).
  - reflexivity.
  - reflexivity.
  - reflexivity.
  - intros x Hx. each_member Hx; by eexists.
  - set_solver.
  - set_solver.
  - reflexivity.
  - reflexivity.
  - vm_compute. discriminate.
Defined.

(** The schema [a, a] with the source column: the frame written carries
    the label [a] four times. *)
Example shape_repeats_labels :
  columns <$> shape_chunk (mkDataFrame 1 [("a", [Some "1"])]) "/d/a.csv" ["a"; "a"]
                false [] None true "source_file" "name"
  = Ok ["source_file"; "a"; "a"; "a"; "a"].
Proof. vm_compute. reflexivity. Qed.
